(** * translator: incremental JSON translation pipeline

    A shallow embedding of the Go program [mylukin/translator] (the module
    [github.com/mylukin/translator], package [main]) and the proofs of the
    properties its specification states about it.

    Go strings are byte sequences: they are modelled as [list ascii], with
    string literals coerced.  The insertion-ordered store [OrderedMap] is a
    record of a key slice and a finite map, exactly as in the source.  The
    chat-completion client and the file system are external collaborators:
    they are arguments of the functions that use them, and the requests sent
    and the files written are threaded through explicitly. *)

From Stdlib Require Import Ascii String NArith DecimalString.
From stdpp Require Import gmap strings list.

Abbreviation gostring := (list ascii).
Coercion list_ascii_of_string : string >-> list.

(** The byte with code [n]. *)
Definition byte (n : N) : ascii := ascii_of_N n.

(** ** UTF-8, as Go's [unicode/utf8] decodes and encodes it *)

Local Open Scope N_scope.

Definition RuneError : N := 0xFFFD.

(** The table [first] with [acceptRanges]: for a leading byte, the length of
    the sequence and the range the second byte has to lie in. *)
Definition acceptRange (b0 : N) : option (nat * N * N) :=
  if (0xC2 <=? b0) && (b0 <=? 0xDF) then Some (2%nat, 0x80, 0xBF)
  else if b0 =? 0xE0 then Some (3%nat, 0xA0, 0xBF)
  else if b0 =? 0xED then Some (3%nat, 0x80, 0x9F)
  else if (0xE1 <=? b0) && (b0 <=? 0xEF) then Some (3%nat, 0x80, 0xBF)
  else if b0 =? 0xF0 then Some (4%nat, 0x90, 0xBF)
  else if (0xF1 <=? b0) && (b0 <=? 0xF3) then Some (4%nat, 0x80, 0xBF)
  else if b0 =? 0xF4 then Some (4%nat, 0x80, 0x8F)
  else None.

Definition outside (lo hi b : N) : bool := (b <? lo) || (hi <? b).

(** [utf8.DecodeRuneInString]: the rune and its width in bytes;
    [(RuneError, 1%nat)] for an invalid sequence, [(RuneError, 0%nat)] for [""]. *)
Definition DecodeRune (s : gostring) : N * nat :=
  match s with
  | [] => (RuneError, 0%nat)
  | c0 :: s1 =>
    let b0 := N_of_ascii c0 in
    if b0 <? 0x80 then (b0, 1%nat)
    else match acceptRange b0, s1 with
    | None, _ | _, [] => (RuneError, 1%nat)
    | Some (sz, lo, hi), c1 :: s2 =>
      let b1 := N_of_ascii c1 in
      if outside lo hi b1 then (RuneError, 1%nat)
      else if bool_decide (sz = 2%nat)
      then (N.lor (N.shiftl (N.land b0 0x1F) 6) (N.land b1 0x3F), 2%nat)
      else match s2 with
      | [] => (RuneError, 1%nat)
      | c2 :: s3 =>
        let b2 := N_of_ascii c2 in
        if outside 0x80 0xBF b2 then (RuneError, 1%nat)
        else if bool_decide (sz = 3%nat)
        then (N.lor (N.shiftl (N.land b0 0x0F) 12)
                (N.lor (N.shiftl (N.land b1 0x3F) 6) (N.land b2 0x3F)), 3%nat)
        else match s3 with
        | [] => (RuneError, 1%nat)
        | c3 :: _ =>
          let b3 := N_of_ascii c3 in
          if outside 0x80 0xBF b3 then (RuneError, 1%nat)
          else (N.lor (N.shiftl (N.land b0 0x07) 18)
                  (N.lor (N.shiftl (N.land b1 0x3F) 12)
                     (N.lor (N.shiftl (N.land b2 0x3F) 6) (N.land b3 0x3F))), 4%nat)
        end
      end
    end
  end.

(** [utf8.EncodeRune] (appended to nothing). *)
Definition EncodeRune (r : N) : gostring :=
  let tx (x : N) := byte (N.lor 0x80 (N.land x 0x3F)) in
  let three (r : N) :=
    [byte (N.lor 0xE0 (N.shiftr r 12)); tx (N.shiftr r 6); tx r] in
  if r <=? 0x7F then [byte r]
  else if r <=? 0x7FF then [byte (N.lor 0xC0 (N.shiftr r 6)); tx r]
  else if (0x10FFFF <? r) || ((0xD800 <=? r) && (r <=? 0xDFFF)) then three RuneError
  else if r <=? 0xFFFF then three r
  else [byte (N.lor 0xF0 (N.shiftr r 18)); tx (N.shiftr r 12); tx (N.shiftr r 6); tx r].

Local Close Scope N_scope.

(** ** The parts of Go's [strings] and [strconv] packages the program uses *)

(** [strconv.Itoa] on a length, which is what [%d] prints in this program. *)
Definition Itoa (n : nat) : gostring :=
  list_ascii_of_string (NilEmpty.string_of_uint (Nat.to_uint n)).

(** [strings.HasPrefix]. *)
Fixpoint HasPrefix (s prefix : gostring) : bool :=
  match prefix, s with
  | [], _ => true
  | p :: prefix', c :: s' => Ascii.eqb c p && HasPrefix s' prefix'
  | _ :: _, [] => false
  end.

(** [strings.HasSuffix]. *)
Definition HasSuffix (s suffix : gostring) : bool :=
  HasPrefix (reverse s) (reverse suffix).

(** [strings.Index], with [None] for Go's [-1]. *)
Fixpoint Index (s substr : gostring) : option nat :=
  if HasPrefix s substr then Some 0
  else match s with
       | [] => None
       | _ :: s' => S <$> Index s' substr
       end.

(** [strings.Contains]. *)
Definition Contains (s substr : gostring) : bool :=
  bool_decide (is_Some (Index s substr)).

(** [strings.Join]. *)
Fixpoint Join (elems : list gostring) (sep : gostring) : gostring :=
  match elems with
  | [] => []
  | [e] => e
  | e :: elems' => e ++ sep ++ Join elems' sep
  end.

(** The UTF-8 sequences of [s], one per element ([explode] without a
    limit): what [Split] does for the empty separator. *)
Fixpoint explode (fuel : nat) (s : gostring) : list gostring :=
  match fuel, s with
  | S fuel', _ :: _ =>
      let size := (DecodeRune s).2 in
      take size s :: explode fuel' (drop size s)
  | _, _ => []
  end.

(** The loop of [genSplit]: cut at the leftmost separator until none is
    left.  Each round consumes at least one byte of [s], so [length s]
    rounds always suffice. *)
Fixpoint genSplit (fuel : nat) (s sep : gostring) : list gostring :=
  match fuel, Index s sep with
  | S fuel', Some m => take m s :: genSplit fuel' (drop (m + length sep) s) sep
  | _, _ => [s]
  end.

(** [strings.Split]. *)
Definition Split (s sep : gostring) : list gostring :=
  match sep with
  | [] => explode (length s) s
  | _ => genSplit (length s) s sep
  end.

(** The loop of [Replace] for a non-empty [old]: copy up to the leftmost
    occurrence, write [new], continue behind the occurrence. *)
Fixpoint replaceLoop (fuel : nat) (s old new : gostring) : gostring :=
  match fuel, Index s old with
  | S fuel', Some j => take j s ++ new ++ replaceLoop fuel' (drop (j + length old) s) old new
  | _, _ => s
  end.

(** [strings.ReplaceAll].  For the empty [old] Go writes [new] in front of
    every UTF-8 sequence and at the end. *)
Definition ReplaceAll (s old new : gostring) : gostring :=
  match old with
  | [] => new ++ concat ((λ r, r ++ new) <$> explode (length s) s)
  | _ => replaceLoop (length s) s old new
  end.

(** The code points with Unicode's White_Space property, which is what
    [unicode.IsSpace] tests. *)
Definition White_Space : list N :=
  [0x09; 0x0A; 0x0B; 0x0C; 0x0D; 0x20; 0x85; 0xA0; 0x1680;
   0x2000; 0x2001; 0x2002; 0x2003; 0x2004; 0x2005; 0x2006; 0x2007; 0x2008;
   0x2009; 0x200A; 0x2028; 0x2029; 0x202F; 0x205F; 0x3000]%N.

(** Their UTF-8 encodings.  A string starts (ends) with a white-space rune
    exactly when it starts (ends) with one of these byte sequences: an
    invalid or truncated sequence decodes to [RuneError], which is no space. *)
Definition spaces : list gostring := Eval vm_compute in EncodeRune <$> White_Space.

Fixpoint trimLeft (fuel : nat) (s : gostring) : gostring :=
  match fuel, find (HasPrefix s) spaces with
  | S fuel', Some w => trimLeft fuel' (drop (length w) s)
  | _, _ => s
  end.

Fixpoint trimRight (fuel : nat) (s : gostring) : gostring :=
  match fuel, find (HasSuffix s) spaces with
  | S fuel', Some w => trimRight fuel' (take (length s - length w) s)
  | _, _ => s
  end.

(** [strings.TrimSpace] (and [bytes.TrimSpace]): all leading and trailing
    white space removed. *)
Definition TrimSpace (s : gostring) : gostring :=
  let s := trimLeft (length s) s in
  trimRight (length s) s.

Global Arguments Split : simpl never.
Global Arguments ReplaceAll : simpl never.
Global Arguments TrimSpace : simpl never.

(** ** OrderedMap *)

Record OrderedMap := mkOrderedMap {
  keys : list gostring;
  values : gmap gostring gostring
}.

Definition NewOrderedMap : OrderedMap :=
  {| keys := []; values := ∅ |}.

(** [om.Set(key, value)]: the key is appended on first sight only. *)
Definition OrderedMap_Set (om : OrderedMap) (key value : gostring) : OrderedMap :=
  {| keys := if bool_decide (is_Some (values om !! key)) then keys om
             else keys om ++ [key];
     values := <[key := value]> (values om) |}.

(** [om.Get(key)]: the zero value [""] and [false] for a missing key. *)
Definition OrderedMap_Get (om : OrderedMap) (key : gostring) : gostring * bool :=
  (default [] (values om !! key), bool_decide (is_Some (values om !! key))).

(** The invariant of a store: the key sequence has no duplicates and is the
    key set of the mapping. *)
Definition store_ok (om : OrderedMap) : Prop :=
  NoDup (keys om) ∧ ∀ k, k ∈ keys om ↔ is_Some (values om !! k).

(** The entries of a store in insertion order. *)
Definition entries (om : OrderedMap) : list (gostring * gostring) :=
  (λ k, (k, (OrderedMap_Get om k).1)) <$> keys om.

(** ** mergeJSON *)

Definition mergeStep (input output : OrderedMap)
    (acc : OrderedMap * list gostring) (key : gostring) : OrderedMap * list gostring :=
  let '(merged, untranslatedKeys) := acc in
  let inputValue := (OrderedMap_Get input key).1 in
  let merged := OrderedMap_Set merged key inputValue in
  let '(outputValue, exists_) := OrderedMap_Get output key in
  if negb exists_ || bool_decide (outputValue = inputValue)
  then (merged, untranslatedKeys ++ [key])
  else (OrderedMap_Set merged key outputValue, untranslatedKeys).

Definition mergeJSON (input output : OrderedMap) : OrderedMap * list gostring :=
  foldl (mergeStep input output) (NewOrderedMap, []) (keys input).

(** A key needs translation when the existing output has no entry for it or
    the entry's value is the source value. *)
Definition needsTranslation (input output : OrderedMap) (key : gostring) : Prop :=
  values output !! key = None ∨ values output !! key = values input !! key.

Global Instance needsTranslation_dec input output key :
  Decision (needsTranslation input output key).
Proof. unfold needsTranslation. apply _. Defined.

(** The value [mergeJSON] gives a key of the source. *)
Definition mergedValue (input output : OrderedMap) (key : gostring) : gostring :=
  if decide (needsTranslation input output key)
  then (OrderedMap_Get input key).1
  else (OrderedMap_Get output key).1.

(** ** Results, errors and effects *)

(** A Go [error] is modelled by its message; [fmt.Errorf("...: %v", err)]
    puts a prefix in front of it. *)
Abbreviation error := gostring (only parsing).

Definition Errorf (msg : gostring) (err : error) : error := msg ++ ": " ++ err.

(** What a call produces: a value, a returned [error], or a run-time panic
    that unwinds the whole program. *)
Inductive outcome (A : Type) : Type :=
  | Ok (a : A)
  | Err (e : error)
  | Panic (msg : gostring).
Arguments Ok {A} a.
Arguments Err {A} e.
Arguments Panic {A} msg.

(** One message of a chat-completion request and the request itself. *)
Record ChatCompletionMessage := mkMessage {
  Role : gostring;
  Content : gostring
}.

Record ChatCompletionRequest := mkRequest {
  Model : gostring;
  Messages : list ChatCompletionMessage
}.

(** The response, reduced to the message content of each choice. *)
Record ChatCompletionResponse := mkResponse {
  Choices : list gostring
}.

(** The file system as the program sees it: the regular files with their
    contents, and the paths at which the operating system fails an
    operation (any failure other than a missing file).  A write to such a
    path fails either when the file is opened, which leaves the file as it
    is, or behind that, when the file has been truncated and a part of the
    data has reached it; [torn] gives the number of bytes that do.
    Directories are not part of it. *)
Record FileSystem := mkFileSystem {
  files : gmap gostring gostring;
  denied : gset gostring;
  torn : gmap gostring nat
}.

(** Everything outside the process that the program reads or changes. *)
Record World := mkWorld {
  fs : FileSystem;
  environ : gmap gostring gostring;   (* the process environment *)
  sent : list ChatCompletionRequest;  (* requests sent so far, oldest first *)
  stdout : list gostring              (* lines printed by the program itself *)
}.

(** The translation service: its answer to a request may depend on the
    requests it has received before. *)
Definition Client : Type :=
  list ChatCompletionRequest → ChatCompletionRequest → outcome ChatCompletionResponse.

(** Effectful code: a function from a state to an outcome and the state
    after it.  An error or a panic skips the rest of the computation. *)
Definition State (S A : Type) : Type := S → outcome A * S.

Definition ret {S A} (a : A) : State S A := λ w, (Ok a, w).
Definition fail {S A} (e : error) : State S A := λ w, (Err e, w).
Definition panic {S A} (msg : gostring) : State S A := λ w, (Panic msg, w).
Definition bind {S A B} (m : State S A) (k : A → State S B) : State S B :=
  λ w, match m w with
       | (Ok a, w') => k a w'
       | (Err e, w') => (Err e, w')
       | (Panic msg, w') => (Panic msg, w')
       end.
(** [if err != nil { return fmt.Errorf("msg: %v", err) }] around a call. *)
Definition wrap {S A} (msg : gostring) (m : State S A) : State S A :=
  λ w, match m w with
       | (Err e, w') => (Err (Errorf msg e), w')
       | r => r
       end.
Definition lift {S A} (o : outcome A) : State S A := λ w, (o, w).

Notation "x <- m ;; k" := (bind m (λ x, k))
  (at level 100, m at next level, right associativity).

(** The program itself runs in the world. *)
Abbreviation M := (State World).

(** [client.CreateChatCompletion(ctx, request)]. *)
Definition CreateChatCompletion (client : Client)
    (request : ChatCompletionRequest) : M ChatCompletionResponse :=
  λ w, (client (sent w) request,
        {| fs := fs w; environ := environ w;
           sent := sent w ++ [request]; stdout := stdout w |}).

(** ** translateText and translateJSONValues *)

Definition newlinePlaceholder : gostring := "{{NEWLINE_PLACEHOLDER}}".

Definition newline : gostring := ["010"%char].

Definition cleanTranslation (translation : gostring) : gostring :=
  TrimSpace translation.

(** The first loop of [translateText]: the texts that are not blank and
    their indices. *)
Fixpoint nonEmpty (i : nat) (texts : list gostring) : list gostring * list nat :=
  match texts with
  | [] => ([], [])
  | text :: texts' =>
      let '(nonEmptyTexts, nonEmptyIndices) := nonEmpty (S i) texts' in
      if bool_decide (TrimSpace text ≠ [])
      then (text :: nonEmptyTexts, i :: nonEmptyIndices)
      else (nonEmptyTexts, nonEmptyIndices)
  end.

Definition systemPromptText : gostring :=
  "You are a professional translator specializing in localizing web content. Your task is to translate the given texts accurately while preserving all HTML structure and the special placeholder {{NEWLINE_PLACEHOLDER}}. Strictly maintain all HTML tags and the placeholder in their original form and position. Translate only the content between tags, not the tags themselves or the placeholder. Provide only the translated texts, each on a new line, maintaining the original order. Do not add any comments, explanations, or additional formatting.".

(** The line that separates the instructions from the content. *)
Definition contentMarker : gostring :=
  newline ++ "------------ The following is the content that needs to be translated ------------" ++ newline ++ newline.

Definition userPrompt (n : nat) (targetLanguage content : gostring) : gostring :=
  "Translate the following " ++ Itoa n ++ " texts to " ++ targetLanguage
  ++ ". Maintain the original order and preserve all HTML tags and the placeholder {{NEWLINE_PLACEHOLDER}} exactly as they appear. Do not translate the content inside HTML tags or the placeholder. Return each translated text on a new line, without any explanations, quotation marks, line numbers, or additional formatting."
  ++ contentMarker ++ content.

(** The request [translateText] builds for the non-blank texts. *)
Definition chatRequest (nonEmptyTexts : list gostring)
    (targetLanguage customPrompt model : gostring) : ChatCompletionRequest :=
  let systemPrompt :=
    if bool_decide (customPrompt ≠ []) then systemPromptText ++ " " ++ customPrompt
    else systemPromptText in
  {| Model := model;
     Messages := [ {| Role := "system"; Content := systemPrompt |};
                   {| Role := "user";
                      Content := userPrompt (length nonEmptyTexts) targetLanguage
                                   (Join nonEmptyTexts newline) |} ] |}.

(** The last loop of [translateText]:
    [result[nonEmptyIndices[i]] = cleanTranslation(translatedText)]. *)
Fixpoint putBack (result : list gostring) (nonEmptyIndices : list nat) (i : nat)
    (translatedTexts : list gostring) : outcome (list gostring) :=
  match translatedTexts with
  | [] => Ok result
  | translatedText :: rest =>
      match nonEmptyIndices !! i with
      | None => Panic ("runtime error: index out of range [" ++ Itoa i
                       ++ "] with length " ++ Itoa (length nonEmptyIndices))
      | Some j =>
          if bool_decide (j < length result)
          then putBack (<[j := cleanTranslation translatedText]> result)
                       nonEmptyIndices (S i) rest
          else Panic ("runtime error: index out of range [" ++ Itoa j
                      ++ "] with length " ++ Itoa (length result))
      end
  end.

Definition translateText (client : Client) (texts : list gostring)
    (targetLanguage customPrompt model : gostring) : M (list gostring) :=
  if bool_decide (length texts = 0) then ret []
  else
    let '(nonEmptyTexts, nonEmptyIndices) := nonEmpty 0 texts in
    if bool_decide (length nonEmptyTexts = 0) then ret texts
    else
      resp <- CreateChatCompletion client
               (chatRequest nonEmptyTexts targetLanguage customPrompt model) ;;
      match Choices resp !! 0 with
      | None => panic "runtime error: index out of range [0] with length 0"
      | Some content =>
          let translatedTexts := Split content newline in
          if bool_decide (length translatedTexts ≠ length nonEmptyTexts)
          then fail ("translation mismatch: got " ++ Itoa (length translatedTexts)
                     ++ " translations for " ++ Itoa (length nonEmptyTexts) ++ " texts")
          else
            let translatedTexts := cleanTranslation <$> translatedTexts in
            lift (putBack texts nonEmptyIndices 0 translatedTexts)
      end.

(** [for i, translatedValue := range translatedBatch { ... Set(batchKeys[i], ...) }] *)
Fixpoint storeBatch (translatedData : OrderedMap) (batchKeys : list gostring) (i : nat)
    (translatedBatch : list gostring) : outcome OrderedMap :=
  match translatedBatch with
  | [] => Ok translatedData
  | translatedValue :: rest =>
      let translatedValue := ReplaceAll translatedValue newlinePlaceholder newline in
      match batchKeys !! i with
      | None => Panic ("runtime error: index out of range [" ++ Itoa i
                       ++ "] with length " ++ Itoa (length batchKeys))
      | Some key => storeBatch (OrderedMap_Set translatedData key translatedValue)
                               batchKeys (S i) rest
      end
  end.

(** The loop over [data.keys]; its state is [translatedData], [batch] and
    [batchKeys]. *)
Fixpoint translateLoop (client : Client) (data : OrderedMap)
    (targetLanguage : gostring) (batchSize : Z) (customPrompt model : gostring)
    (keys : list gostring) (translatedData : OrderedMap)
    (batch batchKeys : list gostring) : M (OrderedMap * list gostring * list gostring) :=
  match keys with
  | [] => ret (translatedData, batch, batchKeys)
  | key :: keys' =>
      let value := (OrderedMap_Get data key).1 in
      let value := ReplaceAll value newline newlinePlaceholder in
      let batch := batch ++ [value] in
      let batchKeys := batchKeys ++ [key] in
      if bool_decide (Z.of_nat (length batch) = batchSize)
      then
        translatedBatch <- wrap "error translating batch"
          (translateText client batch targetLanguage customPrompt model) ;;
        translatedData <- lift (storeBatch translatedData batchKeys 0 translatedBatch) ;;
        translateLoop client data targetLanguage batchSize customPrompt model
                      keys' translatedData [] []
      else
        translateLoop client data targetLanguage batchSize customPrompt model
                      keys' translatedData batch batchKeys
  end.

Definition translateJSONValues (client : Client) (data : OrderedMap)
    (targetLanguage : gostring) (batchSize : Z) (customPrompt model : gostring)
    : M OrderedMap :=
  (* make([]string, 0, batchSize): a negative capacity panics.  The runtime
     refuses also a capacity beyond what it can address, and a capacity the
     machine cannot provide ends the process; such sizes, far above
     [maxBatchSize], are not told apart from the sizes below them. *)
  if bool_decide (batchSize < 0)%Z then panic "runtime error: makeslice: cap out of range"
  else
    st <- translateLoop client data targetLanguage batchSize customPrompt model
                        (keys data) NewOrderedMap [] [] ;;
    let '(translatedData, batch, batchKeys) := st in
    if bool_decide (0 < length batch)
    then
      translatedBatch <- wrap "error translating final batch"
        (translateText client batch targetLanguage customPrompt model) ;;
      lift (storeBatch translatedData batchKeys 0 translatedBatch)
    else ret translatedData.

(** ** encoding/json: reading *)

(** A JSON value.  A number keeps its literal. *)
#[warnings="-register-all"] Inductive JSON : Type :=
  | JNull
  | JBool (b : bool)
  | JNumber (literal : gostring)
  | JString (s : gostring)
  | JArray (elems : list JSON)
  | JObject (members : list (gostring * JSON)).

Definition dquote : ascii := "034"%char.
Definition backslash : ascii := "092"%char.

Definition isSpace (c : ascii) : bool :=
  match c with
  | " "%char | "009"%char | "013"%char | "010"%char => true
  | _ => false
  end.

Fixpoint skipSpace (s : gostring) : gostring :=
  match s with
  | c :: s' => if isSpace c then skipSpace s' else s
  | [] => []
  end.

Definition isDigit (c : ascii) : bool :=
  (48 <=? N_of_ascii c)%N && (N_of_ascii c <=? 57)%N.

Definition hexValue (c : ascii) : option N :=
  let b := N_of_ascii c in
  if (48 <=? b)%N && (b <=? 57)%N then Some (b - 48)%N
  else if (97 <=? b)%N && (b <=? 102)%N then Some (b - 87)%N
  else if (65 <=? b)%N && (b <=? 70)%N then Some (b - 55)%N
  else None.

(** [getu4] behind the [\u]: the four hex digits as a code unit. *)
Definition getu4 (s : gostring) : option (N * gostring) :=
  match s with
  | h1 :: h2 :: h3 :: h4 :: rest =>
      match hexValue h1, hexValue h2, hexValue h3, hexValue h4 with
      | Some a, Some b, Some c, Some d => Some (a * 4096 + b * 256 + c * 16 + d, rest)%N
      | _, _, _, _ => None
      end
  | _ => None
  end.

(** [utf16.DecodeRune] of a surrogate pair, [RuneError] if it is none. *)
Definition utf16_DecodeRune (r1 r2 : N) : N :=
  if ((0xD800 <=? r1) && (r1 <? 0xDC00) && (0xDC00 <=? r2) && (r2 <? 0xE000))%N
  then ((r1 - 0xD800) * 1024 + (r2 - 0xDC00) + 0x10000)%N
  else RuneError.

Definition simpleEscape (c : ascii) : option ascii :=
  match c with
  | "034"%char => Some "034"%char
  | "092"%char => Some "092"%char
  | "/"%char => Some "/"%char
  | "b"%char => Some "008"%char
  | "f"%char => Some "012"%char
  | "n"%char => Some "010"%char
  | "r"%char => Some "013"%char
  | "t"%char => Some "009"%char
  | _ => None
  end.

(** A string literal behind its opening quote: the string it denotes
    ([unquote]) and the input behind the closing quote.  Invalid UTF-8 and
    lone surrogates become U+FFFD; a control character, a bad escape or the
    end of the input is a syntax error. *)
Fixpoint scanString (fuel : nat) (s : gostring) : option (gostring * gostring) :=
  match fuel, s with
  | S fuel, c :: s' =>
    let more (out : gostring) (rest : gostring) :=
      match scanString fuel rest with
      | Some (str, rest') => Some (out ++ str, rest')
      | None => None
      end in
    if Ascii.eqb c dquote then Some ([], s')
    else if Ascii.eqb c backslash then
      match s' with
      | [] => None
      | e :: s'' =>
        if Ascii.eqb e "u" then
          match getu4 s'' with
          | None => None
          | Some (rr, s3) =>
            if ((0xD800 <=? rr) && (rr <? 0xE000))%N then
              match s3 with
              | b1 :: u1 :: s4 =>
                match (if Ascii.eqb b1 backslash && Ascii.eqb u1 "u"
                       then getu4 s4 else None) with
                | Some (rr1, s5) =>
                    if bool_decide (utf16_DecodeRune rr rr1 ≠ RuneError)
                    then more (EncodeRune (utf16_DecodeRune rr rr1)) s5
                    else more (EncodeRune RuneError) s3
                | None => more (EncodeRune RuneError) s3
                end
              | _ => more (EncodeRune RuneError) s3
              end
            else more (EncodeRune rr) s3
          end
        else match simpleEscape e with
             | Some ch => more [ch] s''
             | None => None
             end
      end
    else if (N_of_ascii c <? 0x20)%N then None
    else if (N_of_ascii c <? 0x80)%N then more [c] s'
    else let '(rr, size) := DecodeRune s in more (EncodeRune rr) (drop size s)
  | _, _ => None
  end.

Fixpoint digits (s : gostring) : gostring * gostring :=
  match s with
  | c :: s' => if isDigit c then let '(ds, rest) := digits s' in (c :: ds, rest)
               else ([], s)
  | [] => ([], [])
  end.

(** A number literal: an optional minus sign, then a zero or a non-zero
    digit with further digits, then optionally a point with one digit or
    more, then optionally an exponent with an optional sign and one digit
    or more. *)
Definition scanNumber (s : gostring) : option (gostring * gostring) :=
  let exponent (lit rest : gostring) :=
    match rest with
    | e :: r1 =>
      if Ascii.eqb e "e" || Ascii.eqb e "E" then
        let '(sign, r2) :=
          match r1 with
          | c :: r => if Ascii.eqb c "+" || Ascii.eqb c "-" then ([c], r) else ([], r1)
          | [] => ([], r1)
          end in
        let '(ds, r3) := digits r2 in
        if bool_decide (ds = []) then None else Some (lit ++ e :: sign ++ ds, r3)
      else Some (lit, rest)
    | [] => Some (lit, rest)
    end in
  let fraction (lit rest : gostring) :=
    match rest with
    | c :: r1 =>
      if Ascii.eqb c "." then
        let '(ds, r2) := digits r1 in
        if bool_decide (ds = []) then None else exponent (lit ++ c :: ds) r2
      else exponent lit rest
    | [] => exponent lit rest
    end in
  let '(sign, s1) :=
    match s with
    | c :: r => if Ascii.eqb c "-" then ([c], r) else ([], s)
    | [] => ([], s)
    end in
  match s1 with
  | c :: r =>
    if Ascii.eqb c "0" then fraction (sign ++ [c]) r
    else if isDigit c then let '(ds, r') := digits r in fraction (sign ++ c :: ds) r'
    else None
  | [] => None
  end.

(** One complete JSON value at the front of [s] (which does not start with
    white space) and the input behind it; [None] for a syntax error. *)
Fixpoint scanValue (fuel : nat) (s : gostring) : option (JSON * gostring) :=
  match fuel, s with
  | S fuel, c :: s' =>
    if Ascii.eqb c dquote then
      match scanString (S (length s')) s' with
      | Some (str, rest) => Some (JString str, rest)
      | None => None
      end
    else if Ascii.eqb c "[" then
      match skipSpace s' with
      | c' :: rest =>
        if Ascii.eqb c' "]" then Some (JArray [], rest)
        else match scanElems fuel (c' :: rest) with
             | Some (vs, rest') => Some (JArray vs, rest')
             | None => None
             end
      | [] => None
      end
    else if Ascii.eqb c "{" then
      match skipSpace s' with
      | c' :: rest =>
        if Ascii.eqb c' "}" then Some (JObject [], rest)
        else match scanMembers fuel (c' :: rest) with
             | Some (ms, rest') => Some (JObject ms, rest')
             | None => None
             end
      | [] => None
      end
    else if HasPrefix s "true" then Some (JBool true, drop 4 s)
    else if HasPrefix s "false" then Some (JBool false, drop 5 s)
    else if HasPrefix s "null" then Some (JNull, drop 4 s)
    else match scanNumber s with
         | Some (lit, rest) => Some (JNumber lit, rest)
         | None => None
         end
  | _, _ => None
  end
with scanElems (fuel : nat) (s : gostring) : option (list JSON * gostring) :=
  match fuel with
  | S fuel =>
    match scanValue fuel s with
    | Some (v, rest) =>
      match skipSpace rest with
      | c :: rest' =>
        if Ascii.eqb c "," then
          match scanElems fuel (skipSpace rest') with
          | Some (vs, rest'') => Some (v :: vs, rest'')
          | None => None
          end
        else if Ascii.eqb c "]" then Some ([v], rest')
        else None
      | [] => None
      end
    | None => None
    end
  | 0 => None
  end
with scanMembers (fuel : nat) (s : gostring) : option (list (gostring * JSON) * gostring) :=
  match fuel, s with
  | S fuel, q :: s' =>
    if Ascii.eqb q dquote then
      match scanString (S (length s')) s' with
      | Some (key, rest) =>
        match skipSpace rest with
        | c :: rest' =>
          if Ascii.eqb c ":" then
            match scanValue fuel (skipSpace rest') with
            | Some (v, rest'') =>
              match skipSpace rest'' with
              | d :: rest3 =>
                if Ascii.eqb d "," then
                  match scanMembers fuel (skipSpace rest3) with
                  | Some (ms, rest4) => Some ((key, v) :: ms, rest4)
                  | None => None
                  end
                else if Ascii.eqb d "}" then Some ([(key, v)], rest3)
                else None
              | [] => None
              end
            | None => None
            end
          else None
        | [] => None
        end
      | None => None
      end
    else None
  | _, _ => None
  end.

(** The states of the token interface of [json.Decoder]. *)
Inductive tokenState_t : Type :=
  | tokenTopValue | tokenArrayStart | tokenArrayValue | tokenArrayComma
  | tokenObjectStart | tokenObjectKey | tokenObjectColon | tokenObjectValue
  | tokenObjectComma.

Global Instance tokenState_eq_dec : EqDecision tokenState_t.
Proof. solve_decision. Defined.

(** A [json.Decoder]: the input not yet consumed and the token state. *)
Record Decoder := mkDecoder {
  buf : gostring;
  tokenState : tokenState_t;
  tokenStack : list tokenState_t
}.

Definition NewDecoder (r : gostring) : Decoder :=
  {| buf := r; tokenState := tokenTopValue; tokenStack := [] |}.

(** A [json.Token]: a delimiter or a basic value. *)
Inductive Token : Type :=
  | Delim (c : ascii)
  | Value (v : JSON).

Definition errEOF : error := "EOF".

(** A [*json.SyntaxError] of the scanner; its message, which names the
    offending byte, is not reproduced. *)
Definition errSyntax : error := "invalid JSON syntax".

(** [dec.peek()]: the next byte that is no white space. *)
Definition peek : State Decoder ascii :=
  λ dec, match skipSpace (buf dec) with
         | [] => (Err errEOF,
                  {| buf := []; tokenState := tokenState dec; tokenStack := tokenStack dec |})
         | c :: rest => (Ok c,
                  {| buf := c :: rest; tokenState := tokenState dec;
                     tokenStack := tokenStack dec |})
         end.

(** [dec.scanp++] *)
Definition advance : State Decoder unit :=
  λ dec, (Ok tt, {| buf := drop 1 (buf dec); tokenState := tokenState dec;
                    tokenStack := tokenStack dec |}).

Definition getState : State Decoder tokenState_t := λ dec, (Ok (tokenState dec), dec).

Definition setState (st : tokenState_t) : State Decoder unit :=
  λ dec, (Ok tt, {| buf := buf dec; tokenState := st; tokenStack := tokenStack dec |}).

(** [dec.tokenStack = append(dec.tokenStack, dec.tokenState); dec.tokenState = st] *)
Definition pushState (st : tokenState_t) : State Decoder unit :=
  λ dec, (Ok tt, {| buf := buf dec; tokenState := st;
                    tokenStack := tokenStack dec ++ [tokenState dec] |}).

(** [dec.tokenState = dec.tokenStack[len-1]; dec.tokenStack = dec.tokenStack[:len-1]] *)
Definition popState : State Decoder unit :=
  λ dec, match last (tokenStack dec) with
         | Some st => (Ok tt, {| buf := buf dec; tokenState := st;
                                 tokenStack := take (length (tokenStack dec) - 1)
                                                    (tokenStack dec) |})
         | None => (Panic "runtime error: index out of range [-1]", dec)
         end.

Definition tokenValueAllowed (st : tokenState_t) : bool :=
  match st with
  | tokenTopValue | tokenArrayStart | tokenArrayValue | tokenObjectValue => true
  | _ => false
  end.

Definition tokenValueEnd : State Decoder unit :=
  st <- getState ;;
  match st with
  | tokenArrayStart | tokenArrayValue => setState tokenArrayComma
  | tokenObjectValue => setState tokenObjectComma
  | _ => ret tt
  end.

Definition tokenPrepareForDecode : State Decoder unit :=
  st <- getState ;;
  match st with
  | tokenArrayComma =>
      c <- peek ;;
      if Ascii.eqb c "," then (_ <- advance ;; setState tokenArrayValue)
      else fail "expected comma after array element"
  | tokenObjectColon =>
      c <- peek ;;
      if Ascii.eqb c ":" then (_ <- advance ;; setState tokenObjectValue)
      else fail "expected colon after object key"
  | _ => ret tt
  end.

(** [dec.readValue()] with the scan of the value it delimits. *)
Definition readValue : State Decoder JSON :=
  λ dec, match skipSpace (buf dec) with
         | [] => (Err errEOF, dec)
         | s => match scanValue (2 * length s + 2) s with
                | Some (v, rest) =>
                    (Ok v, {| buf := rest; tokenState := tokenState dec;
                              tokenStack := tokenStack dec |})
                | None => (Err errSyntax, dec)
                end
         end.

(** The name [UnmarshalTypeError] gives a JSON value. *)
Definition valueKind (v : JSON) : gostring :=
  match v with
  | JNull => "null" | JBool _ => "bool" | JNumber _ => "number"
  | JString _ => "string" | JArray _ => "array" | JObject _ => "object"
  end.

(** [dec.Decode(&value)] for [var value string]: [null] leaves the zero
    value, any other value that is no string is an [UnmarshalTypeError]. *)
Definition Decode_string : State Decoder gostring :=
  _ <- tokenPrepareForDecode ;;
  st <- getState ;;
  if negb (tokenValueAllowed st) then fail "not at beginning of value"
  else
    v <- readValue ;;
    _ <- tokenValueEnd ;;
    match v with
    | JString s => ret s
    | JNull => ret []
    | _ => fail ("json: cannot unmarshal " ++ valueKind v ++ " into Go value of type string")
    end.

(** The value of a string of digits, and the value of the digits of an
    exponent as [strconv] reads them: it grows no further once it has
    reached 10000. *)
Definition digitsValue (ds : gostring) : Z :=
  foldl (λ n c, 10 * n + (Z.of_N (N_of_ascii c) - 48))%Z 0%Z ds.

Definition exponentValue (ds : gostring) : Z :=
  foldl (λ e c, if bool_decide (e < 10000)%Z
                then (10 * e + (Z.of_N (N_of_ascii c) - 48))%Z else e) 0%Z ds.

(** [strconv.ParseFloat(lit, 64)] returns a range error for a number
    literal exactly when its value rounds to an infinity: when its
    magnitude is at least 2^1024 - 2^970, which is the largest [float64]
    and half a unit in its last place. *)
Definition outOfRange (lit : gostring) : bool :=
  let s := match lit with
           | c :: r => if Ascii.eqb c "-" then r else lit
           | [] => lit
           end in
  let '(int, s1) := digits s in
  let '(frac, s2) := match s1 with
                     | c :: r => if Ascii.eqb c "." then digits r else ([], s1)
                     | [] => ([], s1)
                     end in
  let e := match s2 with
           | _ :: c :: r =>
               if Ascii.eqb c "-" then (- exponentValue r)%Z
               else if Ascii.eqb c "+" then exponentValue r
               else exponentValue (c :: r)
           | _ => 0%Z
           end in
  let m := digitsValue (int ++ frac) in
  let e10 := (e - Z.of_nat (length frac))%Z in
  let limit := (2 ^ 1024 - 2 ^ 970)%Z in
  if (0 <=? e10)%Z then (limit <=? m * 10 ^ e10)%Z
  else (limit * 10 ^ (- e10) <=? m)%Z.

(** [dec.Decode(&x)] for [var x any].  A number becomes a [float64], and
    a literal beyond the range of [float64] is an [UnmarshalTypeError]
    that names it. *)
Definition Decode_any : State Decoder JSON :=
  _ <- tokenPrepareForDecode ;;
  st <- getState ;;
  if negb (tokenValueAllowed st) then fail "not at beginning of value"
  else
    v <- readValue ;;
    _ <- tokenValueEnd ;;
    match v with
    | JNumber lit =>
        if outOfRange lit
        then fail ("json: cannot unmarshal number " ++ lit
                   ++ " into Go value of type float64")
        else ret v
    | _ => ret v
    end.

Definition hexDigit (n : N) : ascii :=
  nth (N.to_nat n) ("0123456789abcdef" : gostring) "0"%char.

(** [quoteChar(c)]: the byte between single quotes, written as
    [strconv.Quote] writes the rune of that number, but for the two
    quotes. *)
Definition quoteChar (c : ascii) : gostring :=
  let n := N_of_ascii c in
  let hex2 : gostring := [hexDigit (N.shiftr n 4); hexDigit (N.land n 0xF)] in
  let body : gostring :=
    if Ascii.eqb c "'" then [backslash; c]
    else if Ascii.eqb c dquote then [c]
    else if Ascii.eqb c backslash then [backslash; backslash]
    else if ((0x20 <=? n) && (n <=? 0x7E))%N then [c]
    else if ((0xA1 <=? n) && negb (n =? 0xAD))%N then EncodeRune n
    else if (n =? 7)%N then [backslash; "a"%char]
    else if (n =? 8)%N then [backslash; "b"%char]
    else if (n =? 12)%N then [backslash; "f"%char]
    else if (n =? 10)%N then [backslash; "n"%char]
    else if (n =? 13)%N then [backslash; "r"%char]
    else if (n =? 9)%N then [backslash; "t"%char]
    else if (n =? 11)%N then [backslash; "v"%char]
    else if ((n <? 0x20) || (n =? 0x7F))%N then backslash :: "x" ++ hex2
    else backslash :: "u00" ++ hex2 in
  "'" ++ body ++ "'".

Definition tokenError (c : ascii) : State Decoder Token :=
  st <- getState ;;
  let context : gostring :=
    match st with
    | tokenTopValue | tokenArrayStart | tokenArrayValue | tokenObjectValue =>
        " looking for beginning of value"
    | tokenArrayComma => " after array element"
    | tokenObjectKey => " looking for beginning of object key string"
    | tokenObjectStart => []
    | tokenObjectColon => " after object key"
    | tokenObjectComma => " after object key:value pair"
    end in
  fail ("invalid character " ++ quoteChar c ++ context).

(** [dec.Token()].  The loop skips one colon or comma at most: behind it
    the state allows neither. *)
Fixpoint Token_loop (fuel : nat) : State Decoder Token :=
  match fuel with
  | 0 => fail errEOF
  | S fuel =>
    c <- peek ;;
    st <- getState ;;
    if Ascii.eqb c "[" then
      if tokenValueAllowed st
      then (_ <- advance ;; _ <- pushState tokenArrayStart ;; ret (Delim c))
      else tokenError c
    else if Ascii.eqb c "]" then
      if bool_decide (st = tokenArrayStart ∨ st = tokenArrayComma)
      then (_ <- advance ;; _ <- popState ;; _ <- tokenValueEnd ;; ret (Delim c))
      else tokenError c
    else if Ascii.eqb c "{" then
      if tokenValueAllowed st
      then (_ <- advance ;; _ <- pushState tokenObjectStart ;; ret (Delim c))
      else tokenError c
    else if Ascii.eqb c "}" then
      if bool_decide (st = tokenObjectStart ∨ st = tokenObjectComma)
      then (_ <- advance ;; _ <- popState ;; _ <- tokenValueEnd ;; ret (Delim c))
      else tokenError c
    else if Ascii.eqb c ":" then
      if bool_decide (st = tokenObjectColon)
      then (_ <- advance ;; _ <- setState tokenObjectValue ;; Token_loop fuel)
      else tokenError c
    else if Ascii.eqb c "," then
      if bool_decide (st = tokenArrayComma)
      then (_ <- advance ;; _ <- setState tokenArrayValue ;; Token_loop fuel)
      else if bool_decide (st = tokenObjectComma)
      then (_ <- advance ;; _ <- setState tokenObjectKey ;; Token_loop fuel)
      else tokenError c
    else if Ascii.eqb c dquote && bool_decide (st = tokenObjectStart ∨ st = tokenObjectKey)
    then
      (* the key of an object member, decoded as a top-level string *)
      _ <- setState tokenTopValue ;;
      λ dec, match Decode_string dec with
             | (Ok x, dec') => (Ok (Value (JString x)),
                                {| buf := buf dec'; tokenState := tokenObjectColon;
                                   tokenStack := tokenStack dec' |})
             | (Err e, dec') => (Err e, {| buf := buf dec'; tokenState := st;
                                           tokenStack := tokenStack dec' |})
             | (Panic m, dec') => (Panic m, dec')
             end
    else if tokenValueAllowed st then (x <- Decode_any ;; ret (Value x))
    else tokenError c
  end.

Definition Token_ : State Decoder Token := λ dec, Token_loop (S (length (buf dec))) dec.

(** [dec.More()] *)
Definition More : State Decoder bool :=
  λ dec, match peek dec with
         | (Ok c, dec') => (Ok (negb (Ascii.eqb c "]") && negb (Ascii.eqb c "}")), dec')
         | (_, dec') => (Ok false, dec')
         end.

(** ** encoding/json: writing *)

(** [safeSet]: the ASCII bytes written as they are when HTML escaping is off. *)
Definition safeSet (c : ascii) : bool :=
  (0x20 <=? N_of_ascii c)%N && (N_of_ascii c <? 0x80)%N
  && negb (Ascii.eqb c dquote) && negb (Ascii.eqb c backslash).

(** [htmlSafeSet]: as [safeSet], without the angle brackets and the ampersand. *)
Definition htmlSafeSet (c : ascii) : bool :=
  safeSet c && negb (Ascii.eqb c "<") && negb (Ascii.eqb c ">") && negb (Ascii.eqb c "&").

(** The escape of an ASCII byte that is not written as it is. *)
Definition escapeByte (c : ascii) : gostring :=
  if Ascii.eqb c backslash || Ascii.eqb c dquote then [backslash; c]
  else if Ascii.eqb c "008" then [backslash; "b"%char]
  else if Ascii.eqb c "012" then [backslash; "f"%char]
  else if Ascii.eqb c "010" then [backslash; "n"%char]
  else if Ascii.eqb c "013" then [backslash; "r"%char]
  else if Ascii.eqb c "009" then [backslash; "t"%char]
  else [backslash; "u"%char; "0"%char; "0"%char;
        hexDigit (N.shiftr (N_of_ascii c) 4); hexDigit (N.land (N_of_ascii c) 0xF)].

(** The body of [appendString]: the bytes between the quotes. *)
Fixpoint appendString (fuel : nat) (src : gostring) (escapeHTML : bool) : gostring :=
  match fuel, src with
  | S fuel, c :: src' =>
    if (N_of_ascii c <? 0x80)%N then
      (if htmlSafeSet c || (negb escapeHTML && safeSet c) then [c] else escapeByte c)
      ++ appendString fuel src' escapeHTML
    else
      let '(r, size) := DecodeRune src in
      if bool_decide (r = RuneError ∧ size = 1)
      then backslash :: "ufffd" ++ appendString fuel (drop size src) escapeHTML
      else if bool_decide (r = 0x2028%N ∨ r = 0x2029%N)
      then backslash :: "u202" ++ [hexDigit (N.land r 0xF)]
           ++ appendString fuel (drop size src) escapeHTML
      else take size src ++ appendString fuel (drop size src) escapeHTML
  | _, _ => []
  end.

(** [encoder.Encode(v)] for a string [v]: the quoted string and a newline. *)
Definition Encode (v : gostring) (escapeHTML : bool) : gostring :=
  dquote :: appendString (length v) v escapeHTML ++ [dquote] ++ newline.

(** [encodeJSON(v)]; every [v] the program passes is a string, for which
    [Encode] cannot fail. *)
Definition encodeJSON (v : gostring) : outcome gostring :=
  Ok (TrimSpace (Encode v false)).

(** ** The operating system *)

(** What [os.Open] finds. *)
Inductive opened : Type :=
  | FileContent (content : gostring)
  | ErrNotExist                        (* [os.IsNotExist(err)] holds *)
  | ErrOther (err : error).

Definition os_Open (name : gostring) : State World opened :=
  λ w, (Ok (if bool_decide (name ∈ denied (fs w))
            then ErrOther ("open " ++ name ++ ": permission denied")
            else match files (fs w) !! name with
                 | Some content => FileContent content
                 | None => ErrNotExist
                 end), w).

(** [os.MkdirAll(path, 0755)].  It creates directories only, of which the
    model keeps no account: no regular file changes, whether it fails or
    not. *)
Definition os_MkdirAll (path : gostring) : State World unit :=
  λ w, if bool_decide (path ∈ denied (fs w))
       then (Err ("mkdir " ++ path ++ ": permission denied"), w)
       else (Ok tt, w).

(** The world with the file [name] holding [data]. *)
Definition withFile (w : World) (name data : gostring) : World :=
  {| fs := {| files := <[name := data]> (files (fs w)); denied := denied (fs w);
              torn := torn (fs w) |};
     environ := environ w; sent := sent w; stdout := stdout w |}.

(** [os.WriteFile(name, data, 0644)]: it opens the file, which creates or
    truncates it, writes the data and closes the file.  It is not atomic:
    a failure behind the opening leaves the file with the bytes that were
    written and without its earlier content. *)
Definition os_WriteFile (name data : gostring) : State World unit :=
  λ w, if bool_decide (name ∈ denied (fs w))
       then match torn (fs w) !! name with
            | None => (Err ("open " ++ name ++ ": permission denied"), w)
            | Some n => (Err ("write " ++ name ++ ": no space left on device"),
                         withFile w name (take n data))
            end
       else (Ok tt, withFile w name data).

(** [os.Getenv(key)] *)
Definition os_Getenv (key : gostring) : State World gostring :=
  λ w, (Ok (default [] (environ w !! key)), w).

(** [fmt.Printf] of one line. *)
Definition Printf (line : gostring) : State World unit :=
  λ w, (Ok tt, {| fs := fs w; environ := environ w; sent := sent w;
                  stdout := stdout w ++ [line] |}).

(** ** readJSONFile and writeJSONFile *)

(** The dynamic type a failed [key.(string)] reports. *)
Definition dynamicType (t : Token) : gostring :=
  match t with
  | Delim _ => "json.Delim"
  | Value (JBool _) => "bool"
  | Value JNull => "nil"
  | Value (JString _) => "string"
  | Value (JNumber _) => "float64"
  | Value (JArray _) => "[]interface {}"
  | Value (JObject _) => "map[string]interface {}"
  end.

(** The [for decoder.More()] loop.  Every round consumes input, so the
    fuel [readJSONFile] gives is never used up. *)
Fixpoint readLoop (fuel : nat) (orderedMap : OrderedMap) : State Decoder OrderedMap :=
  match fuel with
  | 0 => panic "unreachable"
  | S fuel =>
    more <- More ;;
    if more : bool then
      key <- wrap "error reading JSON key" Token_ ;;
      value <- wrap "error reading JSON value" Decode_string ;;
      match key with
      | Value (JString k) => readLoop fuel (OrderedMap_Set orderedMap k value)
      | _ => panic ("interface conversion: json.Token is " ++ dynamicType key
                    ++ ", not string")
      end
    else ret orderedMap
  end.

(** The part of [readJSONFile] behind [json.NewDecoder(file)]. *)
Definition decodeDocument (content : gostring) : outcome OrderedMap :=
  fst ((_ <- wrap "error reading JSON start" Token_ ;;
        orderedMap <- readLoop (S (length content)) NewOrderedMap ;;
        _ <- wrap "error reading JSON end" Token_ ;;
        ret orderedMap) (NewDecoder content)).

Definition readJSONFile (filename : gostring) : M OrderedMap :=
  file <- os_Open filename ;;
  match file with
  | ErrNotExist => ret NewOrderedMap
  | ErrOther err => fail err
  | FileContent content => lift (decodeDocument content)
  end.

(** The loop of [writeJSONFile] over [data.keys], from index [i] on; [n] is
    [len(data.keys)]. *)
Fixpoint writeEntries (data : OrderedMap) (n i : nat) (keys : list gostring)
    : outcome gostring :=
  match keys with
  | [] => Ok []
  | key :: keys' =>
    let value := (OrderedMap_Get data key).1 in
    match encodeJSON key with
    | Err e => Err (Errorf "error encoding key" e)
    | Panic m => Panic m
    | Ok keyJSON =>
      match encodeJSON value with
      | Err e => Err (Errorf "error encoding value" e)
      | Panic m => Panic m
      | Ok valueJSON =>
        match writeEntries data n (S i) keys' with
        | Ok rest =>
            Ok ("  " ++ keyJSON ++ ": " ++ valueJSON
                ++ (if bool_decide (Z.of_nat i < Z.of_nat n - 1)%Z then "," else [])
                ++ newline ++ rest)
        | r => r
        end
      end
    end
  end.

(** The text [writeJSONFile] puts into its buffer. *)
Definition renderJSON (data : OrderedMap) : outcome gostring :=
  match writeEntries data (length (keys data)) 0 (keys data) with
  | Ok body => Ok ("{" ++ newline ++ body ++ "}" ++ newline)
  | r => r
  end.

(** The external functions [translateJSON] and [writeJSONFile] call. *)
Class Platform := {
  (** [filepath.Dir] and [filepath.Join] *)
  filepath_Dir : gostring → gostring;
  filepath_Join : gostring → gostring → gostring;
  (** [godotenv.Load(envFile)]: it reads the file and gives the process
      environment with the variables of the file added, or fails. *)
  godotenv_Load : FileSystem → gmap gostring gostring → gostring
                  → error + gmap gostring gostring;
  (** [openai.NewClientWithConfig] for an API key and a base URL. *)
  NewClientWithConfig : gostring → gostring → Client;
  (** [display.English.Languages().Name(language.Make(code))] *)
  Code2Lang : gostring → gostring
}.

Section Pipeline.
Context `{Platform}.

Definition writeJSONFile (filename : gostring) (data : OrderedMap) : M unit :=
  _ <- wrap "error creating output directory" (os_MkdirAll (filepath_Dir filename)) ;;
  text <- lift (renderJSON data) ;;
  _ <- wrap "error writing to file" (os_WriteFile filename text) ;;
  ret tt.

(** The flags of the command line, as [c.String] and [c.Int] give them. *)
Record Context := mkContext {
  flag_input : gostring;
  flag_language : gostring;
  flag_batchSize : Z;
  flag_env : gostring;
  flag_output : gostring;
  flag_filename : gostring;
  flag_model : gostring
}.

(** [godotenv.Load(envFile)] as an effect on the process environment. *)
Definition loadEnv (envFile : gostring) : M unit :=
  λ w, match godotenv_Load (fs w) (environ w) envFile with
       | inl err => (Err err, w)
       | inr env => (Ok tt, {| fs := fs w; environ := env; sent := sent w;
                               stdout := stdout w |})
       end.

(** [for _, key := range untranslatedKeys { ... toTranslate.Set(key, value) }] *)
Definition collect (mergedJSON : OrderedMap) (untranslatedKeys : list gostring)
    : OrderedMap :=
  foldl (λ toTranslate key,
           let '(value, exists_) := OrderedMap_Get mergedJSON key in
           if exists_ : bool then OrderedMap_Set toTranslate key value else toTranslate)
        NewOrderedMap untranslatedKeys.

(** [for _, key := range translatedData.keys { ... mergedJSON.Set(key, value) }] *)
Definition mergeBack (mergedJSON translatedData : OrderedMap) : OrderedMap :=
  foldl (λ mergedJSON key,
           let '(value, exists_) := OrderedMap_Get translatedData key in
           if exists_ : bool then OrderedMap_Set mergedJSON key value else mergedJSON)
        mergedJSON (keys translatedData).

Definition outputPath (c : Context) : gostring :=
  let outputDir := if bool_decide (flag_output c = [])
                   then filepath_Dir (flag_input c) else flag_output c in
  let outFilename := if bool_decide (flag_filename c ≠ [])
                     then flag_filename c else flag_language c in
  filepath_Join outputDir (outFilename ++ ".json").

Definition translateJSON (c : Context) : M unit :=
  let inputFile := flag_input c in
  let languageCode := flag_language c in
  let batchSize := flag_batchSize c in
  let model := flag_model c in
  let outputFile := outputPath c in
  _ <- wrap "error loading .env file" (loadEnv (flag_env c)) ;;
  apiKey <- os_Getenv "OPENAI_API_KEY" ;;
  if bool_decide (apiKey = []) then fail "OPENAI_API_KEY not found in .env file"
  else
    customPrompt <- os_Getenv "CUSTOM_PROMPT" ;;
    apiEndpoint <- os_Getenv "OPENAI_API_ENDPOINT" ;;
    let client := NewClientWithConfig apiKey
                    (if bool_decide (apiEndpoint ≠ []) then apiEndpoint
                     else "https://api.openai.com/v1") in
    inputJSON <- wrap "error reading input file" (readJSONFile inputFile) ;;
    outputJSON <- wrap "error reading output file" (readJSONFile outputFile) ;;
    let '(mergedJSON, untranslatedKeys) := mergeJSON inputJSON outputJSON in
    let targetLanguage := Code2Lang languageCode in
    mergedJSON <-
      (if bool_decide (0 < length untranslatedKeys) then
         let toTranslate := collect mergedJSON untranslatedKeys in
         translatedData <- wrap "error translating JSON values"
           (translateJSONValues client toTranslate targetLanguage batchSize
                                customPrompt model) ;;
         ret (mergeBack mergedJSON translatedData)
       else ret mergedJSON) ;;
    _ <- wrap "error writing output file" (writeJSONFile outputFile mergedJSON) ;;
    _ <- Printf ("Translation complete. Output saved to " ++ outputFile) ;;
    ret tt.

End Pipeline.

(** The bytes that occur in the encoding of a white-space rune. *)
Definition spaceByte (c : ascii) : Prop := c ∈ concat spaces.

(** ** Notions the properties are stated with *)

(** The newline-protected form of a value and the restored form of a
    translation, as [translateJSONValues] computes them. *)
Abbreviation protect v := (ReplaceAll v newline newlinePlaceholder).
Abbreviation restore t := (ReplaceAll t newlinePlaceholder newline).

(** A text is blank when trimming leaves nothing of it. *)
Definition blank (text : gostring) : Prop := TrimSpace text = [].

Global Instance blank_dec text : Decision (blank text).
Proof. unfold blank. apply _. Defined.

(** The texts with the translations put at the places of the texts that
    are not blank, in order. *)
Fixpoint fillIn (texts translated : list gostring) : list gostring :=
  match texts with
  | [] => []
  | text :: texts' =>
      if decide (blank text) then text :: fillIn texts' translated
      else match translated with
           | t :: translated' => t :: fillIn texts' translated'
           | [] => text :: fillIn texts' []
           end
  end.

(** The world after one more request. *)
Definition addSent (w : World) (request : ChatCompletionRequest) : World :=
  {| fs := fs w; environ := environ w; sent := sent w ++ [request]; stdout := stdout w |}.

(** The answers of the client to the requests [new], sent one after the
    other after the requests [hist]. *)
Fixpoint answers (client : Client) (hist new : list ChatCompletionRequest)
    : list (outcome ChatCompletionResponse) :=
  match new with
  | [] => []
  | request :: new' => client hist request :: answers client (hist ++ [request]) new'
  end.

(** Setting the entries [kvs] one after the other. *)
Definition storeAll (om : OrderedMap) (kvs : list (gostring * gostring)) : OrderedMap :=
  foldl (λ om kv, OrderedMap_Set om kv.1 kv.2) om kvs.

(** The message of the mismatch error of [translateText]. *)
Definition mismatch (got want : nat) : error :=
  "translation mismatch: got " ++ Itoa got ++ " translations for " ++ Itoa want ++ " texts".

(** ** Worlds and clients for the examples *)

(** A client that answers every request with the same content. *)
Definition constClient (content : gostring) : Client :=
  λ _ _, Ok {| Choices := [content] |}.

(** A client whose every call fails. *)
Definition failingClient (err : error) : Client := λ _ _, Err err.

(** A world with the given files, nothing else. *)
Definition worldWith (fileList : list (gostring * gostring)) : World :=
  {| fs := {| files := list_to_map fileList; denied := ∅; torn := ∅ |};
     environ := ∅; sent := []; stdout := [] |}.

(** The store with the given entries, set one after the other. *)
Definition storeOf (kvs : list (gostring * gostring)) : OrderedMap :=
  storeAll NewOrderedMap kvs.

(** ** What a run does to the world *)

Definition isOk {A} (o : outcome A) : Prop := ∃ a, o = Ok a.
Definition isErr {A} (o : outcome A) : Prop := ∃ e, o = Err e.

(** The answers a computation got, judged by its outcome: a computation
    that returns a value got a response to every call; one that panics got
    no error from a call. *)
Definition audit {A B} (r : outcome A) (got : list (outcome B)) : Prop :=
  match r with
  | Ok _ => Forall isOk got
  | Panic _ => Forall (λ o, ¬ isErr o) got
  | Err _ => True
  end.

(** A request of [translateText] for texts that satisfy [Q]. *)
Definition requestOf (Q : gostring → Prop) (targetLanguage customPrompt model : gostring)
    (request : ChatCompletionRequest) : Prop :=
  ∃ texts, request = chatRequest texts targetLanguage customPrompt model
           ∧ texts ≠ [] ∧ Forall Q texts.

(** [w'] comes from [w] by calls of the translation service only, each a
    request of [translateText] for texts that satisfy [Q]; [r] is the
    outcome of the computation that made the calls. *)
Definition callsOnly {A} (client : Client) (Q : gostring → Prop)
    (targetLanguage customPrompt model : gostring)
    (w w' : World) (r : outcome A) : Prop :=
  fs w' = fs w ∧ environ w' = environ w ∧ stdout w' = stdout w
  ∧ ∃ new, sent w' = sent w ++ new
           ∧ Forall (requestOf Q targetLanguage customPrompt model) new
           ∧ audit r (answers client (sent w) new).

(** The protected value of a key of [data]. *)
Definition protectedValue (data : OrderedMap) (key : gostring) : gostring :=
  protect (OrderedMap_Get data key).1.

(** A value that consists of white-space runes only. *)
Definition whiteSpaceOnly (v : gostring) : Prop :=
  ∃ ws, Forall (λ w, w ∈ spaces) ws ∧ v = concat ws.

(** What becomes of a text that the translation service returns as it is:
    a blank text is not sent, any other comes back trimmed. *)
Definition roundTrip (text : gostring) : gostring :=
  if decide (blank text) then text else cleanTranslation text.

(** An identity translation: the service answers a request of
    [translateText] with the texts of the request, one per line. *)
Definition IdentityTranslation (client : Client)
    (targetLanguage customPrompt model : gostring) : Prop :=
  ∀ hist texts, texts ≠ [] →
    client hist (chatRequest texts targetLanguage customPrompt model)
    = Ok {| Choices := [Join texts newline] |}.

(** The content of a prompt: what stands behind the marker line. *)
Definition afterMarker (prompt : gostring) : gostring :=
  match Index prompt contentMarker with
  | Some i => drop (i + length contentMarker) prompt
  | None => []
  end.

(** A stub that returns the content of the user message. *)
Definition identityStub : Client :=
  λ _ request,
    match Messages request with
    | [_; user] => Ok {| Choices := [afterMarker (Content user)] |}
    | _ => Err "unexpected request"
    end.

(** The client [translateJSON] creates in the environment [env]. *)
Definition clientOf `{Platform} (env : gmap gostring gostring) : Client :=
  NewClientWithConfig (default [] (env !! ("OPENAI_API_KEY" : gostring)))
    (if bool_decide (default [] (env !! ("OPENAI_API_ENDPOINT" : gostring)) ≠ [])
     then default [] (env !! ("OPENAI_API_ENDPOINT" : gostring))
     else "https://api.openai.com/v1").

(** A platform for the examples: paths with slashes, a [.env] file that
    defines the API key whenever it exists, and the given client. *)
Definition stubPlatform (client : Client) : Platform := {|
  filepath_Dir := λ path,
    match Index (reverse path) "/" with
    | Some i => reverse (drop (S i) (reverse path))
    | None => "."
    end;
  filepath_Join := λ dir file, dir ++ "/" ++ file;
  godotenv_Load := λ fs env file,
    match files fs !! file with
    | Some _ => inr (<[("OPENAI_API_KEY" : gostring) := ("sk-test" : gostring)]> env)
    | None => inl ("open " ++ file ++ ": no such file or directory")
    end;
  NewClientWithConfig := λ _ _, client;
  Code2Lang := λ _, "French"
|}.

(** The flags of [translator -i locales/en.json -l fr]. *)
Definition exampleContext : Context :=
  {| flag_input := "locales/en.json"; flag_language := "fr"; flag_batchSize := 100;
     flag_env := ".env"; flag_output := ""; flag_filename := "";
     flag_model := "gpt-4o-mini" |}.

(** A string between quotes. *)
Definition quoted (s : gostring) : gostring := dquote :: s ++ [dquote].

(** Documents and worlds of the examples. *)
Definition exampleInput : gostring :=
  "{" ++ quoted "greeting" ++ ": " ++ quoted "Hello" ++ ", "
      ++ quoted "brand" ++ ": " ++ quoted "OK" ++ "}".

Definition exampleOutput : gostring :=
  "{" ++ quoted "greeting" ++ ": " ++ quoted "Bonjour" ++ "}".

Definition exampleWorld : World :=
  worldWith [(".env" : gostring, "OPENAI_API_KEY=sk-test" : gostring);
             ("locales/en.json" : gostring, exampleInput)].

(** The same world without the input file, and with the output of an
    earlier run. *)
Definition worldWithoutInput : World :=
  worldWith [(".env" : gostring, "OPENAI_API_KEY=sk-test" : gostring);
             ("locales/fr.json" : gostring, exampleOutput)].

(** ** Flat documents *)

(** The members of a flat document, read directly from the text behind the
    opening brace: a string literal, a colon, a string literal, and then a
    comma with further members or the closing brace, with any white space
    between them. *)
Fixpoint parseMembers (fuel : nat) (s : gostring) : option (list (gostring * gostring)) :=
  match fuel, s with
  | S fuel, q :: s1 =>
    if Ascii.eqb q dquote then
      match scanString (S (length s1)) s1 with
      | Some (key, r1) =>
        match skipSpace r1 with
        | c :: r2 =>
          if Ascii.eqb c ":" then
            match skipSpace r2 with
            | q' :: s2 =>
              if Ascii.eqb q' dquote then
                match scanString (S (length s2)) s2 with
                | Some (value, r3) =>
                  match skipSpace r3 with
                  | d :: r4 =>
                    if Ascii.eqb d "," then
                      match parseMembers fuel (skipSpace r4) with
                      | Some kvs => Some ((key, value) :: kvs)
                      | None => None
                      end
                    else if Ascii.eqb d "}" then Some [(key, value)]
                    else None
                  | [] => None
                  end
                | None => None
                end
              else None
            | [] => None
            end
          else None
        | [] => None
        end
      | None => None
      end
    else None
  | _, _ => None
  end.

(** The entries of a flat string-valued document: of a text that is a JSON
    object whose every value is a string, [None] for a text that does not
    start with such an object.  What follows the closing brace is not
    looked at, as [readJSONFile] does not look at it either. *)
Definition parseFlat (text : gostring) : option (list (gostring * gostring)) :=
  match skipSpace text with
  | c :: s =>
    if Ascii.eqb c "{" then
      match skipSpace s with
      | c' :: s' => if Ascii.eqb c' "}" then Some [] else parseMembers (length s) (c' :: s')
      | [] => None
      end
    else None
  | [] => None
  end.

(** Where the decoder stands before a member: behind the opening brace, or
    before the comma that follows a member. *)
Definition beforeMember (dec : Decoder) (s : gostring) : Prop :=
  (tokenState dec = tokenObjectStart ∧ skipSpace (buf dec) = s)
  ∨ (tokenState dec = tokenObjectComma
     ∧ ∃ r, skipSpace (buf dec) = ","%char :: r ∧ skipSpace r = s).

(** ** The format of the output file *)

(** A string as the JSON string literal the encoder writes for it when it
    does not escape HTML. *)
Definition quoteJSON (s : gostring) : gostring :=
  quoted (appendString (length s) s false).

(** The lines of the members: two spaces, the key, a colon and a space, the
    value, and a comma behind every member but the last. *)
Fixpoint memberLines (kvs : list (gostring * gostring)) : gostring :=
  match kvs with
  | [] => []
  | kv :: kvs' =>
      "  " ++ quoteJSON kv.1 ++ ": " ++ quoteJSON kv.2
      ++ (if bool_decide (kvs' = []) then [] else ",") ++ newline ++ memberLines kvs'
  end.

(** The document with the given members: an opening brace on a line of its
    own, the member lines, a closing brace and a newline. *)
Definition document (kvs : list (gostring * gostring)) : gostring :=
  "{" ++ newline ++ memberLines kvs ++ "}" ++ newline.

(** ** Text in UTF-8 *)

(** A text that is a sequence of encoded runes. *)
Inductive encoded : gostring → Prop :=
  | encoded_nil : encoded []
  | encoded_rune r s : encoded s → encoded (EncodeRune r ++ s).

(** What [scanString] gives when it has read [out] and goes on. *)
Definition scanMore (out : gostring) (r : option (gostring * gostring))
    : option (gostring * gostring) :=
  match r with
  | Some (str, rest) => Some (out ++ str, rest)
  | None => None
  end.

(** A document with markup and an escaped newline in its values, and its
    members. *)
Definition markupDocument : gostring :=
  "{" ++ quoted "title" ++ " : " ++ quoted "<b>Tom & Jerry</b>" ++ ","
      ++ quoted "note" ++ ":" ++ quoted ("two" ++ [backslash] ++ "nlines") ++ " }".

Definition markupMembers : list (gostring * gostring) :=
  [("title" : gostring, "<b>Tom & Jerry</b>" : gostring);
   ("note" : gostring, "two" ++ newline ++ "lines")].

(** A document that gives the key [a] twice. *)
Definition duplicateDocument : gostring :=
  "{" ++ quoted "a" ++ ":" ++ quoted "1" ++ "," ++ quoted "a" ++ ":" ++ quoted "2" ++ "}".

(** Documents whose top level is an array. *)
Definition arrayOfNumber : gostring := "[1]".
Definition arrayOfNumberAndString : gostring := "[1," ++ quoted "x" ++ "]".
Definition arrayOfStrings : gostring := "[" ++ quoted "a" ++ "," ++ quoted "b" ++ "]".

(** An array of strings, two for every entry, without white space. *)
Fixpoint arrayItems (kvs : list (gostring * gostring)) : gostring :=
  match kvs with
  | [] => []
  | kv :: kvs' =>
      quoteJSON kv.1 ++ "," ++ quoteJSON kv.2
      ++ (if bool_decide (kvs' = []) then [] else ",") ++ arrayItems kvs'
  end.

Definition arrayDocument (kvs : list (gostring * gostring)) : gostring :=
  "[" ++ arrayItems kvs ++ "]".

(** Where the decoder stands before two items of an array: behind the
    opening bracket, or before the comma that follows an item. *)
Definition beforeItems (dec : Decoder) (s : gostring) : Prop :=
  (tokenState dec = tokenArrayStart ∧ buf dec = s)
  ∨ (tokenState dec = tokenArrayComma ∧ buf dec = "," ++ s).

(** ** The lines of the output file *)

(** The line of the entry with index [i] of [n]: the comma is left out
    behind the last. *)
Definition memberLine (n i : nat) (kv : gostring * gostring) : gostring :=
  "  " ++ quoteJSON kv.1 ++ ": " ++ quoteJSON kv.2
  ++ (if bool_decide (S i < n) then "," else []).

(** ** Objects with values of any kind *)

(** The members of a JSON object, read from the text behind the opening
    brace as [parseMembers] reads them, but with a value of any kind. *)
Fixpoint objectMembers (fuel : nat) (s : gostring) : option (list (gostring * JSON)) :=
  match fuel, s with
  | S fuel, q :: s1 =>
    if Ascii.eqb q dquote then
      match scanString (S (length s1)) s1 with
      | Some (key, r1) =>
        match skipSpace r1 with
        | c :: r2 =>
          if Ascii.eqb c ":" then
            match skipSpace r2 with
            | [] => None
            | s2 =>
              match scanValue (2 * length s2 + 2) s2 with
              | Some (value, r3) =>
                match skipSpace r3 with
                | d :: r4 =>
                  if Ascii.eqb d "," then
                    match objectMembers fuel (skipSpace r4) with
                    | Some ms => Some ((key, value) :: ms)
                    | None => None
                    end
                  else if Ascii.eqb d "}" then Some [(key, value)]
                  else None
                | [] => None
                end
              | None => None
              end
            end
          else None
        | [] => None
        end
      | None => None
      end
    else None
  | _, _ => None
  end.

(** The members of a text that starts with a JSON object. *)
Definition parseObject (text : gostring) : option (list (gostring * JSON)) :=
  match skipSpace text with
  | c :: s =>
    if Ascii.eqb c "{" then
      match skipSpace s with
      | c' :: s' => if Ascii.eqb c' "}" then Some [] else objectMembers (length s) (c' :: s')
      | [] => None
      end
    else None
  | [] => None
  end.

(** What [Decode] into a [string] makes of a value. *)
Definition unmarshalString (v : JSON) : outcome gostring :=
  match v with
  | JString s => Ok s
  | JNull => Ok []
  | _ => Err ("json: cannot unmarshal " ++ valueKind v ++ " into Go value of type string")
  end.

(** Setting the members one after the other, up to the first whose value
    is no string. *)
Fixpoint setMembers (om : OrderedMap) (members : list (gostring * JSON))
    : outcome OrderedMap :=
  match members with
  | [] => Ok om
  | (key, v) :: members' =>
      match unmarshalString v with
      | Ok value => setMembers (OrderedMap_Set om key value) members'
      | Err e => Err (Errorf "error reading JSON value" e)
      | Panic msg => Panic msg
      end
  end.

(** An object with a [null] and a number among its values. *)
Definition mixedDocument : gostring :=
  "{" ++ quoted "a" ++ ": null, " ++ quoted "b" ++ ": 1}".

(** ** Batches *)

(** A list cut into consecutive runs of [n] elements; the last run is
    shorter when [n] does not divide the length.  With [n = 0] no run is
    ever full, and the list is one run. *)
Fixpoint chunksFuel {A} (fuel n : nat) (l : list A) : list (list A) :=
  match fuel, l with
  | S fuel, _ :: _ =>
      if bool_decide (n = 0) then [l] else take n l :: chunksFuel fuel n (drop n l)
  | _, _ => []
  end.

Definition chunks {A} (n : nat) (l : list A) : list (list A) :=
  chunksFuel (length l) n l.

(** The batches translated one after the other: every batch is a call of
    [translateText] for the protected values of its keys, whose results are
    stored under these keys; an error names a batch of [batchSize] keys a
    batch and a shorter one the final batch. *)
Fixpoint translateBatches (client : Client) (data : OrderedMap)
    (targetLanguage : gostring) (batchSize : Z) (customPrompt model : gostring)
    (batches : list (list gostring)) (translatedData : OrderedMap) : M OrderedMap :=
  match batches with
  | [] => ret translatedData
  | batchKeys :: batches' =>
      translatedBatch <-
        wrap (if bool_decide (Z.of_nat (length batchKeys) = batchSize)
              then "error translating batch" else "error translating final batch")
          (translateText client (protectedValue data <$> batchKeys)
                         targetLanguage customPrompt model) ;;
      translatedData <- lift (storeBatch translatedData batchKeys 0 translatedBatch) ;;
      translateBatches client data targetLanguage batchSize customPrompt model
                       batches' translatedData
  end.

(** The batch sizes the batching is stated for.  For these sizes
    [make([]string, 0, batchSize)] passes the range check of the runtime
    and asks for 256 MiB at most, 16 bytes a string. *)
Definition maxBatchSize : Z := 2 ^ 24.

(** A client whose response has no choice. *)
Definition emptyClient : Client := λ _ _, Ok {| Choices := [] |}.

(** The world of the examples with an output file that holds a
    translation of [greeting] only, and one that holds a translation of
    every key, in another order and with a key the source does not have. *)
Definition partlyTranslatedWorld : World :=
  worldWith [(".env" : gostring, "OPENAI_API_KEY=sk-test" : gostring);
             ("locales/en.json" : gostring, exampleInput);
             ("locales/fr.json" : gostring, exampleOutput)].

Definition translatedWorld : World :=
  worldWith [(".env" : gostring, "OPENAI_API_KEY=sk-test" : gostring);
             ("locales/en.json" : gostring, exampleInput);
             ("locales/fr.json" : gostring,
              "{" ++ quoted "old" ++ ": " ++ quoted "Vieux" ++ ", "
                  ++ quoted "brand" ++ ": " ++ quoted "D'accord" ++ ", "
                  ++ quoted "greeting" ++ ": " ++ quoted "Bonjour" ++ "}")].

(** The world behind the batches of texts [batches], translated one after
    the other from the world [w] on by calls of [translateText]; there is
    none when a call does not return its texts translated. *)
Fixpoint afterBatches (client : Client) (targetLanguage customPrompt model : gostring)
    (batches : list (list gostring)) (w : World) : option World :=
  match batches with
  | [] => Some w
  | texts :: batches' =>
      match translateText client texts targetLanguage customPrompt model w with
      | (Ok _, w1) => afterBatches client targetLanguage customPrompt model batches' w1
      | _ => None
      end
  end.

(** The batches of texts a run has to translate for the stores it has read:
    the protected values of the keys the merge marks, in batches of
    [batchSize]. *)
Definition batchesOf (inputJSON outputJSON : OrderedMap) (batchSize : Z)
    : list (list gostring) :=
  let toTranslate := collect (mergeJSON inputJSON outputJSON).1
                             (mergeJSON inputJSON outputJSON).2 in
  (λ batchKeys : list gostring, protectedValue toTranslate <$> batchKeys)
    <$> chunks (Z.to_nat batchSize) (keys toTranslate).

(** * Properties *)

(** ** OrderedMap *)

Lemma store_ok_New : store_ok NewOrderedMap.
Proof.
  split; simpl; [constructor|].
  intros k. rewrite lookup_empty, elem_of_nil. split; [done|]. by intros [? ?].
Qed.

Lemma store_ok_Set om key value :
  store_ok om → store_ok (OrderedMap_Set om key value).
Proof.
  intros [Hnd Hdom]. unfold OrderedMap_Set. split; simpl.
  - case_bool_decide as Hk; [done|].
    apply NoDup_app. split_and!; [done| |apply NoDup_singleton].
    intros k Hin ->%list_elem_of_singleton. apply Hk, Hdom, Hin.
  - intros k. destruct (decide (k = key)) as [->|Hne].
    + rewrite lookup_insert_eq. split; [eauto|intros _].
      case_bool_decide as Hk; [by apply Hdom|].
      apply elem_of_app. right. by apply list_elem_of_singleton.
    + rewrite lookup_insert_ne by done.
      case_bool_decide as Hk; [apply Hdom|].
      rewrite elem_of_app, list_elem_of_singleton, Hdom. tauto.
Qed.

Lemma keys_Set_old om key value :
  is_Some (values om !! key) → keys (OrderedMap_Set om key value) = keys om.
Proof. intros H. unfold OrderedMap_Set; simpl. by rewrite bool_decide_eq_true_2. Qed.

Lemma keys_Set_new om key value :
  values om !! key = None → keys (OrderedMap_Set om key value) = keys om ++ [key].
Proof.
  intros H. unfold OrderedMap_Set; simpl. rewrite bool_decide_eq_false_2; [done|].
  rewrite H. by intros [? ?].
Qed.

Lemma values_Set om key value :
  values (OrderedMap_Set om key value) = <[key := value]> (values om).
Proof. done. Qed.


(** ** mergeJSON *)

Lemma mergeStep_spec input output merged untranslatedKeys key :
  is_Some (values input !! key) →
  values merged !! key = None →
  let r := mergeStep input output (merged, untranslatedKeys) key in
  keys r.1 = keys merged ++ [key]
  ∧ values r.1 = <[key := mergedValue input output key]> (values merged)
  ∧ r.2 = untranslatedKeys ++ filter (needsTranslation input output) [key].
Proof.
  intros [v Hv] Hfresh.
  assert (Hnew : ∀ x, keys (OrderedMap_Set merged key x) = keys merged ++ [key])
    by (intros; by apply keys_Set_new).
  unfold mergeStep, mergedValue, OrderedMap_Get.
  rewrite Hv, filter_cons, filter_nil.
  destruct (values output !! key) as [ov|] eqn:Hov; cbn [default from_option fst snd]; unfold id.
  - rewrite (bool_decide_eq_true_2 (is_Some (Some ov))) by eauto.
    cbn [negb orb]. case_bool_decide as Heq.
    + subst ov. rewrite !decide_True by (right; congruence).
      cbn [fst snd]. by rewrite Hnew.
    + rewrite !decide_False by (intros [?|?]; congruence).
      cbn [fst snd]. rewrite app_nil_r.
      split_and!; [|by rewrite !values_Set, insert_insert_eq|done].
      rewrite keys_Set_old; [by rewrite Hnew|].
      rewrite values_Set, lookup_insert_eq. eauto.
  - rewrite (bool_decide_eq_false_2 (is_Some None)) by (by intros [? ?]).
    rewrite !decide_True by (by left). cbn [negb orb fst snd]. by rewrite Hnew.
Qed.

Lemma merge_fold input output ks merged untranslatedKeys :
  NoDup ks →
  (∀ k, k ∈ ks → is_Some (values input !! k)) →
  (∀ k, k ∈ ks → values merged !! k = None) →
  let r := foldl (mergeStep input output) (merged, untranslatedKeys) ks in
  keys r.1 = keys merged ++ ks
  ∧ (∀ k, values r.1 !! k =
          if decide (k ∈ ks) then Some (mergedValue input output k)
          else values merged !! k)
  ∧ r.2 = untranslatedKeys ++ filter (needsTranslation input output) ks.
Proof.
  revert merged untranslatedKeys.
  induction ks as [|key ks IH]; intros merged untranslatedKeys Hnd Hin Hfresh; cbn [foldl fst snd].
  - rewrite filter_nil, !app_nil_r. split_and!; [done| |done].
    intros k. rewrite decide_False; [done|]. apply not_elem_of_nil.
  - apply NoDup_cons in Hnd as [Hkey Hnd].
    destruct (mergeStep_spec input output merged untranslatedKeys key)
      as (Hk & Hv & Hu).
    { apply Hin. left. }
    { apply Hfresh. left. }
    destruct (mergeStep input output (merged, untranslatedKeys) key)
      as [merged1 untranslated1] eqn:Hstep.
    simpl in Hk, Hv, Hu.
    destruct (IH merged1 untranslated1) as (IHk & IHv & IHu); [done| | |].
    { intros k Hk'. apply Hin. by right. }
    { intros k Hk'. rewrite Hv, lookup_insert_ne; [apply Hfresh; by right|].
      intros ->. done. }
    split_and!.
    + rewrite IHk, Hk. by rewrite <- app_assoc.
    + intros k. rewrite IHv, Hv.
      destruct (decide (k = key)) as [->|Hne].
      * rewrite (decide_False (P := key ∈ ks)) by done.
        rewrite lookup_insert_eq. rewrite decide_True; [done|left].
      * rewrite lookup_insert_ne by done.
        destruct (decide (k ∈ ks)) as [Hk'|Hk'].
        -- rewrite decide_True; [done|by right].
        -- rewrite decide_False; [done|].
           rewrite elem_of_cons. intros [?|?]; done.
    + rewrite IHu, Hu. rewrite <- app_assoc. f_equal.
      by rewrite <- filter_app.
Qed.

(** C1.  For every source store and every existing-output store, [mergeJSON]
    goes through the keys in the source's insertion order and marks a key
    as needing translation exactly when the existing store has no entry for
    it or the entry's value equals the source value; the merged value is
    then the source value, and otherwise the existing value, the key being
    left unmarked.  The merged store has the key sequence of the source;
    keys only the existing store has are dropped. *)
Theorem mergeJSON_correct (input output : OrderedMap) :
  store_ok input →
  let merged := fst (mergeJSON input output) in
  let untranslatedKeys := snd (mergeJSON input output) in
  keys merged = keys input
  ∧ store_ok merged
  ∧ untranslatedKeys = filter (needsTranslation input output) (keys input)
  ∧ (∀ k v, values input !! k = Some v →
       (needsTranslation input output k →
          k ∈ untranslatedKeys ∧ values merged !! k = Some v)
       ∧ (¬ needsTranslation input output k →
          (k ∉ untranslatedKeys) ∧ values merged !! k = values output !! k))
  ∧ (∀ k, values input !! k = None → values merged !! k = None).
Proof.
  intros [Hnd Hdom]. unfold mergeJSON.
  destruct (merge_fold input output (keys input) NewOrderedMap [])
    as (Hk & Hv & Hu); [done|by intros k ?%Hdom|done|].
  simpl in *. split_and!; [done| |done| |].
  - split; [by rewrite Hk|]. intros k. rewrite Hk, Hv.
    destruct (decide (k ∈ keys input)) as [Hin|Hin].
    + split; eauto.
    + rewrite lookup_empty. split; [done|]. by intros [? ?].
  - intros k v Hkv.
    assert (k ∈ keys input) as Hin by (apply Hdom; eauto).
    rewrite Hu, Hv, decide_True by done. unfold mergedValue, OrderedMap_Get.
    split; intros Hneeds.
    + rewrite decide_True by done. simpl. rewrite Hkv.
      split; [|done]. by apply list_elem_of_filter.
    + rewrite decide_False by done. simpl.
      split; [rewrite list_elem_of_filter; tauto|].
      destruct (values output !! k) eqn:Ho; [done|].
      destruct Hneeds. by left.
  - intros k Hnone. rewrite Hv, decide_False, lookup_empty; [done|].
    rewrite Hdom, Hnone. by intros [? ?].
Qed.

(** ** Strings *)

Lemma HasPrefix_spec (s p : gostring) : HasPrefix s p = true ↔ ∃ r, s = p ++ r.
Proof.
  revert s. induction p as [|c p IH]; intros [|d s]; simpl.
  - split; eauto.
  - split; eauto.
  - split; [done|]. by intros [r ?].
  - rewrite andb_true_iff, Ascii.eqb_eq, IH. split.
    + intros [-> [r ->]]. eauto.
    + intros [r [= -> ->]]. eauto.
Qed.

Lemma HasPrefix_app (p r : gostring) : HasPrefix (p ++ r) p = true.
Proof. apply HasPrefix_spec. eauto. Qed.

Lemma HasPrefix_nil (s : gostring) : HasPrefix s [] = true.
Proof. by destruct s. Qed.

Lemma HasPrefix_length (s p : gostring) : HasPrefix s p = true → length p ≤ length s.
Proof. intros [r ->]%HasPrefix_spec. rewrite length_app. lia. Qed.

Lemma Index_here (s sub : gostring) : HasPrefix s sub = true → Index s sub = Some 0.
Proof. intros H. destruct s; cbn [Index]; by rewrite H. Qed.

Lemma Index_cons (c : ascii) (s sub : gostring) :
  HasPrefix (c :: s) sub = false → Index (c :: s) sub = S <$> Index s sub.
Proof. intros H. cbn [Index]. by rewrite H. Qed.

Lemma Index_nil (sub : gostring) : sub ≠ [] → Index [] sub = None.
Proof. by destruct sub. Qed.

Lemma Index_bound (s sub : gostring) m :
  Index s sub = Some m → m + length sub ≤ length s.
Proof.
  revert m. induction s as [|c s IH]; intros m; cbn [Index].
  - destruct (HasPrefix [] sub) eqn:E; [|done].
    intros [= <-]. apply HasPrefix_length in E. simpl in *. lia.
  - destruct (HasPrefix (c :: s) sub) eqn:E.
    + intros [= <-]. apply HasPrefix_length in E. simpl in *. lia.
    + destruct (Index s sub) as [j|]; [|done]. intros [= <-].
      specialize (IH _ eq_refl). simpl. lia.
Qed.

(** Scanning a string for the occurrences of a non-empty pattern, from the
    left and without overlap: either the pattern is in front, or one byte is. *)
Lemma scan_ind (old : gostring) (Q : gostring → Prop) :
  old ≠ [] →
  Q [] →
  (∀ s, Q s → Q (old ++ s)) →
  (∀ c s, HasPrefix (c :: s) old = false → Q s → Q (c :: s)) →
  ∀ s, Q s.
Proof.
  intros Hold Hnil Hhit Hmiss s.
  induction s as [s IH] using (induction_ltof1 _ length). unfold ltof in IH.
  destruct s as [|c s]; [done|].
  destruct (HasPrefix (c :: s) old) eqn:E.
  - apply HasPrefix_spec in E as [r E]. rewrite E. apply Hhit, IH.
    rewrite E, length_app. destruct old; [done|simpl; lia].
  - apply Hmiss; [done|]. apply IH. simpl. lia.
Qed.

Lemma replaceLoop_fuel (old new : gostring) n m (s : gostring) :
  old ≠ [] → length s ≤ n → length s ≤ m →
  replaceLoop n s old new = replaceLoop m s old new.
Proof.
  intros Hold. revert m s. induction n as [|n IH]; intros m s Hn Hm.
  - destruct s; [|simpl in Hn; lia]. destruct m; cbn [replaceLoop]; [done|].
    by rewrite Index_nil.
  - destruct m as [|m].
    + destruct s; [|simpl in Hm; lia]. cbn [replaceLoop]. by rewrite Index_nil.
    + cbn [replaceLoop]. destruct (Index s old) as [j|] eqn:E; [|done].
      apply Index_bound in E. do 2 f_equal. apply IH.
      * rewrite length_drop. destruct old; [done|simpl in *; lia].
      * rewrite length_drop. destruct old; [done|simpl in *; lia].
Qed.

Lemma ReplaceAll_unfold (s old new : gostring) :
  old ≠ [] →
  ReplaceAll s old new =
    match Index s old with
    | Some j => take j s ++ new ++ ReplaceAll (drop (j + length old) s) old new
    | None => s
    end.
Proof.
  intros Hold. unfold ReplaceAll. destruct old as [|o old]; [done|].
  destruct s as [|c s].
  - by rewrite Index_nil.
  - cbn [length replaceLoop]. destruct (Index (c :: s) (o :: old)) as [j|] eqn:E; [|done].
    do 2 f_equal. apply Index_bound in E. apply replaceLoop_fuel; [done| |done].
    rewrite length_drop. simpl in *. lia.
Qed.

Lemma ReplaceAll_nil (old new : gostring) : old ≠ [] → ReplaceAll [] old new = [].
Proof. intros H. rewrite ReplaceAll_unfold by done. by rewrite Index_nil. Qed.

Lemma ReplaceAll_hit (s old new : gostring) :
  old ≠ [] → ReplaceAll (old ++ s) old new = new ++ ReplaceAll s old new.
Proof.
  intros H. rewrite ReplaceAll_unfold by done.
  rewrite Index_here by apply HasPrefix_app.
  simpl. by rewrite drop_app_length.
Qed.

Lemma ReplaceAll_miss (c : ascii) (s old new : gostring) :
  old ≠ [] → HasPrefix (c :: s) old = false →
  ReplaceAll (c :: s) old new = c :: ReplaceAll s old new.
Proof.
  intros H E. rewrite (ReplaceAll_unfold (c :: s)), (ReplaceAll_unfold s) by done.
  rewrite Index_cons by done. by destruct (Index s old).
Qed.

Lemma genSplit_fuel (sep : gostring) n m (s : gostring) :
  sep ≠ [] → length s ≤ n → length s ≤ m →
  genSplit n s sep = genSplit m s sep.
Proof.
  intros Hsep. revert m s. induction n as [|n IH]; intros m s Hn Hm.
  - destruct s; [|simpl in Hn; lia]. destruct m; cbn [genSplit]; [done|].
    by rewrite Index_nil.
  - destruct m as [|m].
    + destruct s; [|simpl in Hm; lia]. cbn [genSplit]. by rewrite Index_nil.
    + cbn [genSplit]. destruct (Index s sep) as [j|] eqn:E; [|done].
      apply Index_bound in E. f_equal. apply IH.
      * rewrite length_drop. destruct sep; [done|simpl in *; lia].
      * rewrite length_drop. destruct sep; [done|simpl in *; lia].
Qed.

Lemma Split_unfold (s sep : gostring) :
  sep ≠ [] →
  Split s sep =
    match Index s sep with
    | Some m => take m s :: Split (drop (m + length sep) s) sep
    | None => [s]
    end.
Proof.
  intros Hsep. unfold Split. destruct sep as [|o sep]; [done|].
  destruct s as [|c s].
  - by rewrite Index_nil.
  - cbn [length genSplit]. destruct (Index (c :: s) (o :: sep)) as [j|] eqn:E; [|done].
    f_equal. apply Index_bound in E. apply genSplit_fuel; [done| |done].
    rewrite length_drop. simpl in *. lia.
Qed.

Lemma Split_hit (s sep : gostring) :
  sep ≠ [] → Split (sep ++ s) sep = [] :: Split s sep.
Proof.
  intros H. rewrite Split_unfold by done.
  rewrite Index_here by apply HasPrefix_app.
  simpl. by rewrite drop_app_length.
Qed.

Lemma Split_miss (c : ascii) (s sep : gostring) :
  sep ≠ [] → HasPrefix (c :: s) sep = false →
  Split (c :: s) sep = (c :: hd [] (Split s sep)) :: tl (Split s sep).
Proof.
  intros H E. rewrite (Split_unfold (c :: s)), (Split_unfold s) by done.
  rewrite Index_cons by done. by destruct (Index s sep).
Qed.

Lemma HasPrefix_char_ne (c d : ascii) (s : gostring) :
  c ≠ d → HasPrefix (c :: s) [d] = false.
Proof.
  intros H. simpl. apply andb_false_iff. left. by apply Ascii.eqb_neq.
Qed.

(** Cutting at a one-byte separator. *)
Lemma Split_one (d : ascii) (t : gostring) : d ∉ t → Split t [d] = [t].
Proof.
  induction t as [|c t IH]; intros Hd.
  - by rewrite Split_unfold.
  - apply not_elem_of_cons in Hd as [Hc Ht].
    rewrite Split_miss, IH by (done || by apply HasPrefix_char_ne). done.
Qed.

Lemma Split_first (d : ascii) (t rest : gostring) :
  d ∉ t → Split (t ++ d :: rest) [d] = t :: Split rest [d].
Proof.
  induction t as [|c t IH]; intros Hd.
  - apply (Split_hit rest [d]). done.
  - apply not_elem_of_cons in Hd as [Hc Ht].
    rewrite <- app_comm_cons, Split_miss, IH by (done || by apply HasPrefix_char_ne).
    done.
Qed.

Lemma Join_cons (t : gostring) (ts : list gostring) (sep : gostring) :
  ts ≠ [] → Join (t :: ts) sep = t ++ sep ++ Join ts sep.
Proof. by destruct ts. Qed.

Lemma Split_Join (d : ascii) (ts : list gostring) :
  ts ≠ [] → Forall (λ t, d ∉ t) ts → Split (Join ts [d]) [d] = ts.
Proof.
  induction ts as [|t ts IH]; [done|]. intros _ Hts.
  apply Forall_cons in Hts as [Ht Hts].
  destruct (decide (ts = [])) as [->|Hne].
  - simpl. by apply Split_one.
  - rewrite Join_cons by done. simpl app.
    rewrite Split_first by done. by rewrite IH.
Qed.

(** Protecting the newlines of a value and restoring them. *)

Lemma newlinePlaceholder_ne : newlinePlaceholder ≠ [].
Proof. done. Qed.

Lemma protect_cons (c : ascii) (v : gostring) :
  ReplaceAll (c :: v) newline newlinePlaceholder =
  (if Ascii.eqb c "010" then newlinePlaceholder else [c])
  ++ ReplaceAll v newline newlinePlaceholder.
Proof.
  destruct (Ascii.eqb_spec c "010") as [->|Hne].
  - apply (ReplaceAll_hit v newline). done.
  - rewrite ReplaceAll_miss; [done..|]. by apply HasPrefix_char_ne.
Qed.

Lemma protect_nil : ReplaceAll [] newline newlinePlaceholder = [].
Proof. by apply ReplaceAll_nil. Qed.

Lemma protect_no_newline (v : gostring) :
  "010"%char ∉ ReplaceAll v newline newlinePlaceholder.
Proof.
  induction v as [|c v IH].
  - rewrite protect_nil. apply not_elem_of_nil.
  - rewrite protect_cons. destruct (Ascii.eqb_spec c "010") as [->|Hne].
    + rewrite elem_of_app. intros [H|H]; [|done].
      vm_compute in H. by repeat (apply elem_of_cons in H as [?|H]; [done|]);
        apply elem_of_nil in H.
    + rewrite elem_of_app, list_elem_of_singleton. intros [?|?]; done.
Qed.

Lemma protect_id (v : gostring) :
  "010"%char ∉ v → ReplaceAll v newline newlinePlaceholder = v.
Proof.
  induction v as [|c v IH]; intros Hv.
  - apply protect_nil.
  - apply not_elem_of_cons in Hv as [Hc Hv]. rewrite protect_cons, IH by done.
    by rewrite (proj2 (Ascii.eqb_neq _ _)).
Qed.

(** The placeholder has no border: no proper suffix of it is a prefix. *)
Lemma placeholder_unbordered (a b : gostring) :
  newlinePlaceholder = a ++ b → a ≠ [] → b ≠ [] → HasPrefix newlinePlaceholder b = false.
Proof.
  intros E Ha Hb. vm_compute in E.
  destruct a as [|? a]; [done|]. clear Ha.
  repeat (injection E as <- E;
          destruct a as [|? a]; [simpl in E; subst b; vm_compute; reflexivity|]).
  injection E as <- E. destruct a; [|done]. simpl in E. by subst b.
Qed.

Lemma HasPrefix_comparable (s p q : gostring) :
  HasPrefix s p = true → HasPrefix s q = true →
  HasPrefix p q = true ∨ HasPrefix q p = true.
Proof.
  revert p q. induction s as [|c s IH]; intros [|x p] [|y q] Hp Hq;
    try done; try (by left); try (by right).
  simpl in Hp, Hq. apply andb_true_iff in Hp as [->%Ascii.eqb_eq Hp].
  apply andb_true_iff in Hq as [->%Ascii.eqb_eq Hq].
  destruct (IH _ _ Hp Hq) as [H|H]; [left|right];
    simpl; apply andb_true_iff; (split; [apply Ascii.eqb_refl|done]).
Qed.

Lemma HasPrefix_protect (Q v : gostring) :
  "010"%char ∉ Q →
  HasPrefix (ReplaceAll v newline newlinePlaceholder) Q = true →
  HasPrefix v Q = true
  ∨ ∃ a b, Q = a ++ b ∧ b ≠ [] ∧ HasPrefix v (a ++ newline) = true
           ∧ (HasPrefix newlinePlaceholder b = true ∨ HasPrefix b newlinePlaceholder = true).
Proof.
  revert v. induction Q as [|q Q IH]; intros v Hnl H.
  - left. apply HasPrefix_nil.
  - apply not_elem_of_cons in Hnl as [Hq Hnl].
    destruct v as [|c v]; [by rewrite protect_nil in H|].
    rewrite protect_cons in H. destruct (Ascii.eqb_spec c "010") as [->|Hne].
    + right. exists [], (q :: Q). split_and!; [done..| |].
      * simpl. by rewrite HasPrefix_nil.
      * eapply HasPrefix_comparable; [apply HasPrefix_app|done].
    + simpl in H. apply andb_true_iff in H as [Hc H]. apply Ascii.eqb_eq in Hc as ->.
      destruct (IH v Hnl H) as [Hv|(a & b & -> & Hb & Hv & Hor)].
      * left. simpl. by rewrite Ascii.eqb_refl.
      * right. exists (q :: a), b. split_and!; [done..| |done].
        simpl. by rewrite Ascii.eqb_refl.
Qed.

Lemma placeholder_no_newline : "010"%char ∉ newlinePlaceholder.
Proof.
  intros H. vm_compute in H.
  by repeat (apply elem_of_cons in H as [?|H]; [done|]); apply elem_of_nil in H.
Qed.

Lemma HasPrefix_protect_placeholder (v : gostring) :
  HasPrefix (ReplaceAll v newline newlinePlaceholder) newlinePlaceholder = true →
  HasPrefix v newlinePlaceholder = true ∨ HasPrefix v newline = true.
Proof.
  intros H. apply HasPrefix_protect in H; [|apply placeholder_no_newline].
  destruct H as [H|(a & b & E & Hb & Hv & Hor)]; [by left|].
  destruct a as [|x a]; [by right|].
  destruct Hor as [Hor|Hor].
  - by rewrite (placeholder_unbordered (x :: a) b) in Hor.
  - apply HasPrefix_length in Hor. apply (f_equal length) in E.
    rewrite length_app in E. cbn [length] in E. lia.
Qed.

Lemma Index_None_cons (c : ascii) (s sub : gostring) :
  Index (c :: s) sub = None ↔ HasPrefix (c :: s) sub = false ∧ Index s sub = None.
Proof.
  cbn [Index]. destruct (HasPrefix (c :: s) sub).
  - split; [done|]. by intros [? _].
  - destruct (Index s sub); simpl; split; try done. by intros [_ ?].
Qed.

(** A value that does not contain the placeholder survives protection and
    restoration. *)
Lemma unprotect_protect (v : gostring) :
  Index v newlinePlaceholder = None →
  ReplaceAll (ReplaceAll v newline newlinePlaceholder) newlinePlaceholder newline = v.
Proof.
  induction v as [|c v IH]; intros Hv.
  - rewrite protect_nil. by apply ReplaceAll_nil.
  - apply Index_None_cons in Hv as [Hc Hv].
    destruct (Ascii.eqb_spec c "010") as [->|Hne].
    + rewrite (ReplaceAll_hit v newline) by done.
      rewrite ReplaceAll_hit by done. by rewrite IH.
    + destruct (HasPrefix (ReplaceAll (c :: v) newline newlinePlaceholder)
                  newlinePlaceholder) eqn:E.
      * apply HasPrefix_protect_placeholder in E as [E|E]; [congruence|].
        apply HasPrefix_spec in E as [r E]. by injection E as -> _.
      * rewrite protect_cons in E |- *.
        rewrite (proj2 (Ascii.eqb_neq _ _)) in E |- * by done.
        simpl app in *. rewrite ReplaceAll_miss by done. by rewrite IH.
Qed.

(** Restoring leaves no placeholder behind. *)
Lemma HasPrefix_unprotect (Q x : gostring) :
  "010"%char ∉ Q →
  HasPrefix (ReplaceAll x newlinePlaceholder newline) Q = true →
  HasPrefix x Q = true.
Proof.
  revert x. induction Q as [|q Q IH]; intros x Hnl H; [apply HasPrefix_nil|].
  apply not_elem_of_cons in Hnl as [Hq Hnl].
  destruct x as [|c x]; [by rewrite ReplaceAll_nil in H|].
  destruct (HasPrefix (c :: x) newlinePlaceholder) eqn:E.
  - apply HasPrefix_spec in E as [r E]. rewrite E in H.
    rewrite ReplaceAll_hit in H by done.
    apply HasPrefix_spec in H as [r' H]. by injection H as <- _.
  - rewrite ReplaceAll_miss in H by done. simpl in H |- *.
    apply andb_true_iff in H as [-> H]. simpl. by apply IH.
Qed.

Lemma unprotect_no_placeholder (x : gostring) :
  Index (ReplaceAll x newlinePlaceholder newline) newlinePlaceholder = None.
Proof.
  revert x. apply (scan_ind newlinePlaceholder); [done|..].
  - by rewrite ReplaceAll_nil.
  - intros s IH. rewrite ReplaceAll_hit by done.
    apply (Index_None_cons "010"). split; [done|apply IH].
  - intros c s E IH. rewrite ReplaceAll_miss by done.
    apply Index_None_cons. split; [|done].
    destruct (HasPrefix (c :: ReplaceAll s newlinePlaceholder newline)
                newlinePlaceholder) eqn:E'; [|done].
    rewrite <- (ReplaceAll_miss c s newlinePlaceholder newline) in E' by done.
    apply HasPrefix_unprotect in E'; [congruence|apply placeholder_no_newline].
Qed.

(** ** TrimSpace *)


Lemma spaces_bytes (w : gostring) : w ∈ spaces → Forall spaceByte w.
Proof.
  intros Hw. apply Forall_forall. intros c Hc.
  apply list_elem_of_In, in_concat. exists w.
  split; by apply list_elem_of_In.
Qed.

Lemma spaces_nonempty (w : gostring) : w ∈ spaces → 0 < length w.
Proof.
  intros Hw. destruct w; [|simpl; lia]. exfalso.
  vm_compute in Hw.
  by repeat (apply elem_of_cons in Hw as [?|Hw]; [done|]); apply elem_of_nil in Hw.
Qed.

Lemma find_prefix_Some (s w : gostring) :
  find (HasPrefix s) spaces = Some w → w ∈ spaces ∧ ∃ r, s = w ++ r.
Proof.
  intros [Hin Hp]%find_some. split; [by apply list_elem_of_In|].
  by apply HasPrefix_spec.
Qed.

Lemma find_suffix_Some (s w : gostring) :
  find (HasSuffix s) spaces = Some w → w ∈ spaces ∧ ∃ r, s = r ++ w.
Proof.
  intros [Hin Hp]%find_some. split; [by apply list_elem_of_In|].
  apply HasPrefix_spec in Hp as [r Hr]. exists (reverse r).
  apply (inj reverse). by rewrite reverse_app, reverse_involutive.
Qed.

Lemma find_prefix_None (s : gostring) :
  find (HasPrefix s) spaces = None ↔ ∀ w, w ∈ spaces → HasPrefix s w = false.
Proof.
  split.
  - intros H w Hw. apply (find_none _ _ H). by apply list_elem_of_In.
  - intros H. destruct (find _ _) as [w|] eqn:E; [|done].
    apply find_some in E as [Hin Hp]. rewrite H in Hp; [done|].
    by apply list_elem_of_In.
Qed.

Lemma find_suffix_None (s : gostring) :
  find (HasSuffix s) spaces = None ↔ ∀ w, w ∈ spaces → HasSuffix s w = false.
Proof.
  split.
  - intros H w Hw. apply (find_none _ _ H). by apply list_elem_of_In.
  - intros H. destruct (find _ _) as [w|] eqn:E; [|done].
    apply find_some in E as [Hin Hp]. rewrite H in Hp; [done|].
    by apply list_elem_of_In.
Qed.

Lemma trimLeft_done fuel (s : gostring) :
  find (HasPrefix s) spaces = None → trimLeft fuel s = s.
Proof. intros H. destruct fuel; cbn [trimLeft]; [done|]. by rewrite H. Qed.

Lemma trimRight_done fuel (s : gostring) :
  find (HasSuffix s) spaces = None → trimRight fuel s = s.
Proof. intros H. destruct fuel; cbn [trimRight]; [done|]. by rewrite H. Qed.

Lemma trimLeft_split fuel (s : gostring) :
  ∃ pre, s = pre ++ trimLeft fuel s ∧ Forall spaceByte pre.
Proof.
  revert s. induction fuel as [|fuel IH]; intros s; cbn [trimLeft].
  - by exists [].
  - destruct (find (HasPrefix s) spaces) as [w|] eqn:E; [|by exists []].
    apply find_prefix_Some in E as [Hw [r ->]].
    rewrite drop_app_length. destruct (IH r) as (pre & Hr & Hpre).
    exists (w ++ pre). split.
    + rewrite <- app_assoc. by f_equal.
    + apply Forall_app. split; [by apply spaces_bytes|done].
Qed.

Lemma trimRight_split fuel (s : gostring) :
  ∃ suf, s = trimRight fuel s ++ suf ∧ Forall spaceByte suf.
Proof.
  revert s. induction fuel as [|fuel IH]; intros s; cbn [trimRight].
  - exists []. by rewrite app_nil_r.
  - destruct (find (HasSuffix s) spaces) as [w|] eqn:E;
      [|exists []; by rewrite app_nil_r].
    apply find_suffix_Some in E as [Hw [r ->]].
    rewrite length_app, Nat.add_sub, take_app_length.
    destruct (IH r) as (suf & Hr & Hsuf).
    exists (suf ++ w). split.
    + rewrite app_assoc. by f_equal.
    + apply Forall_app. split; [done|by apply spaces_bytes].
Qed.

Lemma trimLeft_result fuel (s : gostring) :
  length s ≤ fuel → find (HasPrefix (trimLeft fuel s)) spaces = None.
Proof.
  revert s. induction fuel as [|fuel IH]; intros s Hlen; cbn [trimLeft].
  - destruct s; [|simpl in Hlen; lia]. apply find_prefix_None.
    intros w Hw. apply spaces_nonempty in Hw. by destruct w; [simpl in Hw; lia|].
  - destruct (find (HasPrefix s) spaces) as [w|] eqn:E; [|done].
    apply find_prefix_Some in E as [Hw [r ->]].
    rewrite drop_app_length. apply IH. apply spaces_nonempty in Hw.
    rewrite length_app in Hlen. lia.
Qed.

Lemma HasSuffix_nil_l (w : gostring) : 0 < length w → HasSuffix [] w = false.
Proof.
  intros Hw. unfold HasSuffix. destruct (reverse w) eqn:E; [|done].
  apply (f_equal length) in E. rewrite length_reverse in E. simpl in E. lia.
Qed.

Lemma trimRight_result fuel (s : gostring) :
  length s ≤ fuel → find (HasSuffix (trimRight fuel s)) spaces = None.
Proof.
  revert s. induction fuel as [|fuel IH]; intros s Hlen; cbn [trimRight].
  - destruct s; [|simpl in Hlen; lia]. apply find_suffix_None.
    intros w Hw. by apply HasSuffix_nil_l, spaces_nonempty.
  - destruct (find (HasSuffix s) spaces) as [w|] eqn:E; [|done].
    apply find_suffix_Some in E as [Hw [r ->]].
    rewrite length_app, Nat.add_sub, take_app_length.
    apply IH. apply spaces_nonempty in Hw.
    rewrite length_app in Hlen. lia.
Qed.

(** Trimming twice is trimming once. *)
Lemma TrimSpace_idemp (s : gostring) : TrimSpace (TrimSpace s) = TrimSpace s.
Proof.
  unfold TrimSpace at 2. cbv zeta.
  set (l := trimLeft (length s) s).
  assert (Hl : find (HasPrefix l) spaces = None) by by apply trimLeft_result.
  set (t := trimRight (length l) l).
  assert (Ht : find (HasSuffix t) spaces = None) by by apply trimRight_result.
  destruct (trimRight_split (length l) l) as (suf & Hsuf & _). fold t in Hsuf.
  assert (Ht' : find (HasPrefix t) spaces = None).
  { apply find_prefix_None. intros w Hw.
    destruct (HasPrefix t w) eqn:E; [|done].
    apply HasPrefix_spec in E as [r E].
    rewrite <- (proj1 (find_prefix_None l) Hl w Hw).
    symmetry. apply HasPrefix_spec. exists (r ++ suf).
    by rewrite Hsuf, E, <- app_assoc. }
  unfold TrimSpace. cbv zeta.
  rewrite (trimLeft_done _ t Ht'). by rewrite (trimRight_done _ t Ht).
Qed.

(** A blank text consists of white-space bytes only. *)
Lemma TrimSpace_nil_bytes (s : gostring) : TrimSpace s = [] → Forall spaceByte s.
Proof.
  unfold TrimSpace. cbv zeta. intros H.
  destruct (trimLeft_split (length s) s) as (pre & Hs & Hpre).
  destruct (trimRight_split (length (trimLeft (length s) s)) (trimLeft (length s) s))
    as (suf & Hl & Hsuf).
  rewrite H in Hl. rewrite Hs, Hl. apply Forall_app. split; [done|].
  by apply Forall_app.
Qed.

Lemma TrimSpace_nil : TrimSpace [] = [].
Proof. done. Qed.

Lemma spaces_prefix_free (w w' : gostring) :
  w ∈ spaces → w' ∈ spaces → HasPrefix w w' = true → w = w'.
Proof.
  intros Hw Hw'.
  assert (forallb (λ a, forallb (λ b, implb (HasPrefix a b) (bool_decide (a = b))) spaces)
            spaces = true) as Hall by (vm_compute; reflexivity).
  rewrite forallb_forall in Hall. apply list_elem_of_In in Hw, Hw'.
  specialize (Hall w Hw). rewrite forallb_forall in Hall.
  specialize (Hall w' Hw'). intros Hp. rewrite Hp in Hall.
  by apply bool_decide_eq_true in Hall.
Qed.

(** A text made of white-space runes only is blank. *)
Lemma TrimSpace_spaces (ws : list gostring) :
  Forall (λ w, w ∈ spaces) ws → TrimSpace (concat ws) = [].
Proof.
  intros Hws.
  assert (∀ fuel, length ws ≤ fuel → trimLeft fuel (concat ws) = []) as Hleft.
  { intros fuel. revert ws Hws. induction fuel as [|fuel IH]; intros ws Hws Hlen.
    - destruct ws; [done|simpl in Hlen; lia].
    - destruct ws as [|w ws]; [done|]. apply Forall_cons in Hws as [Hw Hws].
      cbn [trimLeft concat].
      destruct (find (HasPrefix (w ++ concat ws)) spaces) as [w'|] eqn:E.
      + apply find_prefix_Some in E as [Hw' [r E]].
        assert (w = w') as <-.
        { destruct (HasPrefix_comparable (w ++ concat ws) w w') as [H|H].
          - apply HasPrefix_app.
          - apply HasPrefix_spec. eauto.
          - by apply spaces_prefix_free.
          - symmetry. by apply spaces_prefix_free. }
        rewrite drop_app_length. apply IH; [done|simpl in Hlen; lia].
      + apply find_prefix_None with (w := w) in E; [|done].
        by rewrite HasPrefix_app in E. }
  unfold TrimSpace. cbv zeta. rewrite Hleft; [done|].
  clear Hleft. induction Hws as [|w ws Hw Hws IH]; simpl; [lia|].
  apply spaces_nonempty in Hw. rewrite length_app. lia.
Qed.

(** ** translateText *)

Lemma nonEmpty_fst i texts :
  (nonEmpty i texts).1 = filter (λ t, ¬ blank t) texts.
Proof.
  revert i. induction texts as [|t texts IH]; intros i; [done|].
  cbn [nonEmpty]. specialize (IH (S i)).
  destruct (nonEmpty (S i) texts) as [ne ix]. simpl in IH.
  rewrite filter_cons. unfold blank at 1.
  case_bool_decide; destruct (decide _); simpl; try done; by f_equal.
Qed.

Lemma nonEmpty_length i texts :
  length (nonEmpty i texts).2 = length (nonEmpty i texts).1.
Proof.
  revert i. induction texts as [|t texts IH]; intros i; [done|].
  cbn [nonEmpty]. specialize (IH (S i)).
  destruct (nonEmpty (S i) texts) as [ne ix]. simpl in IH.
  case_bool_decide; simpl; by f_equal.
Qed.


Lemma putBack_fillIn (pre texts : list gostring) (ix0 : list nat) translated :
  length translated = length (nonEmpty (length pre) texts).1 →
  putBack (pre ++ texts) (ix0 ++ (nonEmpty (length pre) texts).2) (length ix0) translated
  = Ok (pre ++ fillIn texts (cleanTranslation <$> translated)).
Proof.
  revert pre ix0 translated.
  induction texts as [|t texts IH]; intros pre ix0 tr Hlen.
  - destruct tr; [|done]. done.
  - cbn [nonEmpty fillIn] in *.
    pose proof (IH (pre ++ [t])) as IH1.
    rewrite length_app, Nat.add_1_r in IH1. cbn [length] in IH1.
    destruct (nonEmpty (S (length pre)) texts) as [ne ix] eqn:E.
    unfold blank. case_bool_decide as Hb; destruct (decide _) as [Hb'|Hb']; try done;
      cbn [fst snd] in *.
    + destruct tr as [|x tr]; [done|]. simpl in Hlen. injection Hlen as Hlen.
      cbn [putBack snd fmap list_fmap].
      rewrite lookup_app_r, Nat.sub_diag by done. cbn [lookup list_lookup].
      rewrite bool_decide_eq_true_2 by (rewrite length_app; simpl; lia).
      rewrite insert_app_r_alt, Nat.sub_diag by done. cbn [insert list_insert].
      specialize (IH (pre ++ [cleanTranslation x]) (ix0 ++ [length pre]) tr).
      rewrite !length_app, !Nat.add_1_r in IH. cbn [length] in IH.
      rewrite E in IH. rewrite <- !app_assoc in IH. simpl in IH.
      rewrite IH by done. done.
    + simpl in Hlen. specialize (IH1 ix0 tr). rewrite <- app_assoc in IH1.
      simpl in IH1. rewrite IH1 by done. by rewrite <- app_assoc.
Qed.

Lemma fillIn_clean texts lines :
  fillIn texts (cleanTranslation <$> (cleanTranslation <$> lines))
  = fillIn texts (cleanTranslation <$> lines).
Proof.
  f_equal. rewrite <- list_fmap_compose. apply list_fmap_ext.
  intros _ x _. apply TrimSpace_idemp.
Qed.

(** What [translateText] does, in one equation: no call when no text is
    left after the blank ones are taken out; otherwise one request, and the
    answer decides. *)
Lemma translateText_eq client texts targetLanguage customPrompt model w :
  let nonEmptyTexts := filter (λ t, ¬ blank t) texts in
  let request := chatRequest nonEmptyTexts targetLanguage customPrompt model in
  translateText client texts targetLanguage customPrompt model w =
    if decide (nonEmptyTexts = []) then (Ok texts, w)
    else
      (match client (sent w) request with
       | Ok resp =>
           match Choices resp with
           | content :: _ =>
               let lines := Split content newline in
               if decide (length lines = length nonEmptyTexts)
               then Ok (fillIn texts (cleanTranslation <$> lines))
               else Err (mismatch (length lines) (length nonEmptyTexts))
           | [] => Panic "runtime error: index out of range [0] with length 0"
           end
       | Err e => Err e
       | Panic msg => Panic msg
       end, addSent w request).
Proof.
  cbv zeta. unfold translateText.
  case_bool_decide as Hnil.
  { destruct texts; [|done]. done. }
  pose proof (nonEmpty_fst 0 texts) as Hfst.
  pose proof (nonEmpty_length 0 texts) as Hlen.
  pose proof (putBack_fillIn [] texts []) as Hput. simpl in Hput.
  destruct (nonEmpty 0 texts) as [ne ix]. simpl in Hfst, Hlen, Hput. subst ne.
  set (ne := filter (λ t, ¬ blank t) texts) in *.
  case_bool_decide as Hne.
  { rewrite decide_True; [done|]. by apply nil_length_inv. }
  rewrite decide_False by (intros E; by rewrite E in Hne).
  unfold bind, CreateChatCompletion, addSent.
  destruct (client (sent w) _) as [resp|e|msg]; [|done..].
  destruct (Choices resp) as [|content choices]; [done|]. cbn [lookup list_lookup].
  destruct (decide (length (Split content newline) = length ne)) as [Heq|Hneq].
  - rewrite bool_decide_eq_false_2 by (by intros ?).
    unfold lift. rewrite Hput by (by rewrite length_fmap).
    by rewrite fillIn_clean.
  - by rewrite bool_decide_eq_true_2.
Qed.



(** ** storeBatch *)

Lemma storeBatch_storeAll translatedData batchKeys i translatedBatch :
  i + length translatedBatch ≤ length batchKeys →
  storeBatch translatedData batchKeys i translatedBatch =
  Ok (storeAll translatedData
        (zip (drop i batchKeys) ((λ t, restore t) <$> translatedBatch))).
Proof.
  revert translatedData i.
  induction translatedBatch as [|t tb IH]; intros td i Hlen.
  - simpl. by destruct (drop i batchKeys).
  - cbn [storeBatch length] in *.
    destruct (batchKeys !! i) as [key|] eqn:E;
      [|apply lookup_ge_None in E; lia].
    rewrite IH by lia. rewrite (drop_S _ key i) by done. done.
Qed.

Lemma storeAll_app om kvs kvs' :
  storeAll om (kvs ++ kvs') = storeAll (storeAll om kvs) kvs'.
Proof. apply foldl_app. Qed.

Lemma storeAll_ok om kvs : store_ok om → store_ok (storeAll om kvs).
Proof.
  revert om. induction kvs as [|kv kvs IH]; intros om Hok; [done|].
  apply IH. by apply store_ok_Set.
Qed.

Lemma storeAll_lookup_notin om kvs k :
  k ∉ kvs.*1 → values (storeAll om kvs) !! k = values om !! k.
Proof.
  revert om. induction kvs as [|[k' v'] kvs IH]; intros om Hk; [done|].
  simpl in Hk. apply not_elem_of_cons in Hk as [Hne Hk].
  cbn [storeAll foldl]. fold (storeAll (OrderedMap_Set om k' v') kvs).
  rewrite IH by done. simpl. by rewrite lookup_insert_ne.
Qed.

Lemma storeAll_lookup om (ks vs : list gostring) j k v :
  NoDup ks → ks !! j = Some k → vs !! j = Some v →
  values (storeAll om (zip ks vs)) !! k = Some v.
Proof.
  revert om vs j. induction ks as [|k' ks IH]; intros om vs j Hnd Hk Hv; [done|].
  apply NoDup_cons in Hnd as [Hk' Hnd].
  destruct vs as [|v' vs]; [done|].
  cbn [zip zip_with storeAll foldl]. fold (storeAll (OrderedMap_Set om k' v') (zip ks vs)).
  destruct j as [|j].
  - injection Hk as ->. injection Hv as ->.
    rewrite storeAll_lookup_notin.
    + simpl. by rewrite lookup_insert_eq.
    + intros Hin. apply Hk'. apply list_elem_of_fmap in Hin as [[a b] [-> Hin]].
      by apply elem_of_zip_l in Hin.
  - by apply (IH _ vs j).
Qed.

Lemma storeAll_keys om (ks vs : list gostring) :
  store_ok om → NoDup ks → (∀ k, k ∈ ks → k ∉ keys om) → length ks ≤ length vs →
  keys (storeAll om (zip ks vs)) = keys om ++ ks.
Proof.
  revert om vs. induction ks as [|k ks IH]; intros om vs Hok Hnd Hfresh Hlen.
  - by rewrite app_nil_r.
  - destruct vs as [|v vs]; [simpl in Hlen; lia|].
    apply NoDup_cons in Hnd as [Hk Hnd].
    cbn [zip zip_with storeAll foldl]. fold (storeAll (OrderedMap_Set om k v) (zip ks vs)).
    assert (values om !! k = None) as Hnone.
    { destruct Hok as [_ Hdom]. destruct (values om !! k) eqn:E; [|done].
      exfalso. apply (Hfresh k); [left|]. apply Hdom. eauto. }
    rewrite IH.
    + rewrite keys_Set_new by done. by rewrite <- app_assoc.
    + by apply store_ok_Set.
    + done.
    + intros k0 Hk0. rewrite keys_Set_new by done.
      rewrite elem_of_app, list_elem_of_singleton. intros [H | ->]; [|done].
      apply (Hfresh k0); [by right|done].
    + simpl in Hlen. lia.
Qed.




Lemma store_ok_storeOf kvs : store_ok (storeOf kvs).
Proof. apply storeAll_ok, store_ok_New. Qed.

Lemma mergeJSON_correct_witness :
  keys (mergeJSON (storeOf [("a" : gostring, "Hello" : gostring); ("b" : gostring, "X" : gostring)])
                  (storeOf [("a" : gostring, "Bonjour" : gostring); ("z" : gostring, "Z" : gostring)])).1
    = ["a" : gostring; "b" : gostring]
  ∧ (mergeJSON (storeOf [("a" : gostring, "Hello" : gostring); ("b" : gostring, "X" : gostring)])
               (storeOf [("a" : gostring, "Bonjour" : gostring); ("z" : gostring, "Z" : gostring)])).2
    = ["b" : gostring].
Proof.
  destruct (mergeJSON_correct
              (storeOf [("a" : gostring, "Hello" : gostring); ("b" : gostring, "X" : gostring)])
              (storeOf [("a" : gostring, "Bonjour" : gostring); ("z" : gostring, "Z" : gostring)]))
    as (Hk & _ & Hu & _).
  - apply store_ok_storeOf.
  - split; [exact Hk|]. rewrite Hu. vm_compute. reflexivity.
Defined.

Lemma answers_app client hist new new' :
  answers client hist (new ++ new') =
  answers client hist new ++ answers client (hist ++ new) new'.
Proof.
  revert hist. induction new as [|req new IH]; intros hist; simpl.
  - by rewrite app_nil_r.
  - rewrite IH. by rewrite <- app_assoc.
Qed.

Lemma isOk_not_isErr {A} (o : outcome A) : isOk o → ¬ isErr o.
Proof. intros [a ->] [e ?]. done. Qed.

Section Calls.
Context (client : Client) (Q : gostring → Prop)
        (targetLanguage customPrompt model : gostring).

Local Abbreviation callsOnly := (callsOnly client Q targetLanguage customPrompt model).

Lemma callsOnly_refl {C} (w : World) (r : outcome C) : callsOnly w w r.
Proof.
  split_and!; [done..|]. exists []. rewrite app_nil_r. split_and!; [done..|].
  destruct r; simpl; constructor.
Qed.

Lemma callsOnly_trans {C D} (w w1 w2 : World) (a : C) (r : outcome D) :
  callsOnly w w1 (Ok a) → callsOnly w1 w2 r → callsOnly w w2 r.
Proof.
  intros (Hf1 & He1 & Ho1 & new1 & Hs1 & Hq1 & Ha1) (Hf2 & He2 & Ho2 & new2 & Hs2 & Hq2 & Ha2).
  split_and!; [congruence..|]. exists (new1 ++ new2). split_and!.
  - by rewrite Hs2, Hs1, app_assoc.
  - by apply Forall_app.
  - rewrite answers_app, <- Hs1. simpl in Ha1.
    destruct r; simpl in *; [by apply Forall_app| done |].
    apply Forall_app. split; [|done].
    eapply Forall_impl; [done|]. apply isOk_not_isErr.
Qed.

(** An error may be replaced by another error, and behind a computation
    that returned a value any outcome may follow that makes no call. *)
Lemma callsOnly_err {C D} (w w' : World) (e e' : error) :
  callsOnly w w' (Err e : outcome C) → callsOnly w w' (Err e' : outcome D).
Proof. intros (? & ? & ? & new & ? & ? & _). split_and!; [done..|]. by exists new. Qed.

Lemma callsOnly_then {C D} (w w' : World) (a : C) (r : outcome D) :
  callsOnly w w' (Ok a) → callsOnly w w' r.
Proof. intros H. eapply callsOnly_trans; [done|apply callsOnly_refl]. Qed.

Lemma callsOnly_panic {C D} (w w' : World) (m m' : gostring) :
  callsOnly w w' (Panic m : outcome C) → callsOnly w w' (Panic m' : outcome D).
Proof. intros (? & ? & ? & new & ? & ? & ?). split_and!; [done..|]. by exists new. Qed.

End Calls.

Lemma filter_nonblank_Forall (Q : gostring → Prop) texts :
  Forall Q texts → Forall (λ t, ¬ blank t ∧ Q t) (filter (λ t, ¬ blank t) texts).
Proof.
  intros H. apply Forall_forall. intros t [Hb Ht]%list_elem_of_filter.
  split; [done|]. by apply (proj1 (Forall_forall _ _) H).
Qed.

(** [translateText] changes the world by at most one call, for the texts
    of the batch that are not blank. *)
Lemma translateText_calls client (Q : gostring → Prop) texts targetLanguage customPrompt
    model w :
  Forall Q texts →
  callsOnly client (λ t, ¬ blank t ∧ Q t) targetLanguage customPrompt model
    w (translateText client texts targetLanguage customPrompt model w).2
      (translateText client texts targetLanguage customPrompt model w).1.
Proof.
  intros HQ. rewrite translateText_eq. cbv zeta.
  destruct (decide _) as [Hnil|Hne]; [apply callsOnly_refl|].
  cbn [fst snd]. split_and!; [done..|].
  eexists [_]. split_and!; [done| |].
  - constructor; [|constructor]. eexists. split_and!; [done..|].
    by apply filter_nonblank_Forall.
  - simpl. destruct (client (sent w) _) as [resp|e|m] eqn:E; simpl.
    + destruct (Choices resp); [|destruct (decide _)]; simpl; try done;
        repeat constructor; try (by eexists); by intros [? ?].
    + done.
    + repeat constructor. by intros [? ?].
Qed.

(** The result of a successful [translateText] has a place for every text,
    and a blank text stands unchanged at its place. *)
Lemma translateText_blank client texts targetLanguage customPrompt model w res w' :
  translateText client texts targetLanguage customPrompt model w = (Ok res, w') →
  Forall2 (λ t r, blank t → r = t) texts res.
Proof.
  rewrite translateText_eq. cbv zeta. intros H.
  assert (∃ tr, res = fillIn texts tr) as [tr ->].
  { destruct (decide _).
    - injection H as <- _. exists []. clear. induction texts as [|t texts IH]; [done|].
      simpl. destruct (decide _); by f_equal.
    - destruct (client (sent w) _) as [resp| |]; [|done..].
      destruct (Choices resp); [done|]. destruct (decide _); [|done].
      injection H as <- _. eauto. }
  clear. revert tr. induction texts as [|t texts IH]; intros tr; [constructor|].
  simpl. destruct (decide _); [|destruct tr]; constructor; done || by apply IH.
Qed.

(** ** translateJSONValues *)

Section TranslateLoop.
Context (client : Client) (data : OrderedMap) (targetLanguage : gostring)
        (batchSize : Z) (customPrompt model : gostring).
(** [Q] holds for every text of a batch; [R] relates a text to its place
    in the result of [translateText]. *)
Context (Q : gostring → Prop) (R : gostring → gostring → Prop).
Hypothesis HQ : ∀ key, Q (protectedValue data key).
Hypothesis HR : ∀ texts w res w',
  Forall Q texts →
  translateText client texts targetLanguage customPrompt model w = (Ok res, w') →
  Forall2 R texts res.

Local Abbreviation calls := (callsOnly client (λ t, ¬ blank t ∧ Q t)
                               targetLanguage customPrompt model).

(** One batch: [translateText], then [storeBatch]. *)
Lemma batch_spec msg translatedData batch batchKeys w :
  Forall Q batch → length batch = length batchKeys →
  let m := (translatedBatch <- wrap msg
              (translateText client batch targetLanguage customPrompt model) ;;
            lift (storeBatch translatedData batchKeys 0 translatedBatch)) in
  calls w (m w).2 (m w).1
  ∧ ∀ translatedData', (m w).1 = Ok translatedData' →
      ∃ res, Forall2 R batch res
             ∧ translatedData' = storeAll translatedData
                                   (zip batchKeys ((λ t, restore t) <$> res)).
Proof.
  intros Hbatch Hlen. cbv zeta. unfold bind, wrap, lift.
  pose proof (translateText_calls client Q batch targetLanguage customPrompt model w Hbatch)
    as Hcalls.
  destruct (translateText client batch targetLanguage customPrompt model w)
    as [[tb|e|m] w1] eqn:Ett; cbn [fst snd] in *.
  - pose proof (HR _ _ _ _ Hbatch Ett) as Hres.
    rewrite storeBatch_storeAll
      by (apply Forall2_length in Hres; simpl; lia).
    rewrite drop_0. split; [by eapply callsOnly_then|].
    intros td' [= <-]. eauto.
  - split; [by eapply callsOnly_err|done].
  - split; [by eapply callsOnly_panic|done].
Qed.

Lemma translateLoop_spec ks translatedData batch batchKeys w r w' :
  Forall Q batch → length batch = length batchKeys →
  translateLoop client data targetLanguage batchSize customPrompt model
                ks translatedData batch batchKeys w = (r, w') →
  calls w w' r
  ∧ ∀ translatedData' batch' batchKeys',
      r = Ok (translatedData', batch', batchKeys') →
      ∃ doneKeys doneTexts res,
        batchKeys ++ ks = doneKeys ++ batchKeys'
        ∧ batch ++ (protectedValue data <$> ks) = doneTexts ++ batch'
        ∧ length doneKeys = length doneTexts
        ∧ Forall2 R doneTexts res
        ∧ translatedData' = storeAll translatedData
                              (zip doneKeys ((λ t, restore t) <$> res))
        ∧ length batch' = length batchKeys'
        ∧ Forall Q batch'.
Proof.
  revert translatedData batch batchKeys w r w'.
  induction ks as [|key ks IH]; intros td batch bk w r w' Hbatch Hlen Hrun.
  - injection Hrun as <- <-. split; [apply callsOnly_refl|].
    intros td' batch' bk' [= <- <- <-].
    exists [], [], []. rewrite !app_nil_r. split_and!; done || constructor.
  - cbn [translateLoop] in Hrun. fold (protectedValue data key) in Hrun.
    set (batch1 := batch ++ [protectedValue data key]) in *.
    set (bk1 := bk ++ [key]) in *.
    assert (Forall Q batch1) as Hbatch1.
    { apply Forall_app. split; [done|]. constructor; [apply HQ|constructor]. }
    assert (length batch1 = length bk1) as Hlen1.
    { unfold batch1, bk1. rewrite !length_app. simpl. lia. }
    case_bool_decide as Hfull.
    + unfold bind, wrap, lift in Hrun.
      pose proof (translateText_calls client Q batch1 targetLanguage customPrompt model
                    w Hbatch1) as Hcalls.
      destruct (translateText client batch1 targetLanguage customPrompt model w)
        as [[tb|e|m] w1] eqn:Ett; cbn [fst snd] in *.
      * pose proof (HR _ _ _ _ Hbatch1 Ett) as Hres1.
        rewrite storeBatch_storeAll in Hrun
          by (apply Forall2_length in Hres1; simpl; lia).
        rewrite drop_0 in Hrun.
        destruct (IH _ [] [] w1 _ _ ltac:(constructor) eq_refl Hrun) as [Hcalls2 Hok2].
        split; [by eapply callsOnly_trans|].
        intros td' batch' bk' ->.
        destruct (Hok2 _ _ _ eq_refl)
          as (dk & dt & res & Hk & Ht & Hl & Hres & -> & Hl' & HQ').
        exists (bk1 ++ dk), (batch1 ++ dt), (tb ++ res).
        simpl in Hk, Ht. split_and!; [| | |by apply Forall2_app| |done..].
        -- unfold bk1. rewrite <- !app_assoc. by rewrite <- Hk.
        -- unfold batch1. rewrite <- !app_assoc. by rewrite <- Ht.
        -- rewrite !length_app. lia.
        -- rewrite fmap_app, zip_with_app, storeAll_app; [done|].
           rewrite length_fmap. apply Forall2_length in Hres1. lia.
      * injection Hrun as <- <-. split; [by eapply callsOnly_err|done].
      * injection Hrun as <- <-. split; [by eapply callsOnly_panic|done].
    + destruct (IH _ _ _ _ _ _ Hbatch1 Hlen1 Hrun) as [Hcalls Hok].
      split; [done|]. intros td' batch' bk' ->.
      destruct (Hok _ _ _ eq_refl) as (dk & dt & res & Hk & Ht & Hrest).
      exists dk, dt, res. split_and!; [| |apply Hrest..].
      * rewrite <- Hk. unfold bk1. by rewrite <- app_assoc.
      * rewrite <- Ht. unfold batch1. by rewrite <- app_assoc.
Qed.

(** [translateJSONValues]: the world changes by calls only, and a store
    that is returned has the keys of [data] set in order, each to the
    restored result of its protected value. *)
Lemma translateJSONValues_spec w r w' :
  translateJSONValues client data targetLanguage batchSize customPrompt model w = (r, w') →
  calls w w' r
  ∧ ∀ out, r = Ok out →
      ∃ res, Forall2 R (protectedValue data <$> keys data) res
             ∧ out = storeAll NewOrderedMap
                       (zip (keys data) ((λ t, restore t) <$> res)).
Proof.
  unfold translateJSONValues. case_bool_decide as Hneg.
  { intros [= <- <-]. split; [apply callsOnly_refl|done]. }
  unfold bind at 1.
  destruct (translateLoop client data targetLanguage batchSize customPrompt model
              (keys data) NewOrderedMap [] [] w) as [[[[td batch] bk]|e|m] w1] eqn:Eloop.
  - destruct (translateLoop_spec _ _ _ _ _ _ _ ltac:(constructor) eq_refl Eloop)
      as [Hcalls Hok].
    destruct (Hok _ _ _ eq_refl) as (dk & dt & res & Hk & Ht & Hl & Hres & -> & Hl' & HQ').
    simpl in Hk, Ht. case_bool_decide as Hrest.
    + intros Hrun.
      destruct (batch_spec "error translating final batch"
                  (storeAll NewOrderedMap (zip dk ((λ t, restore t) <$> res)))
                  batch bk w1 HQ' Hl') as [Hcalls2 Hok2].
      cbv zeta in Hcalls2, Hok2. rewrite Hrun in Hcalls2, Hok2. cbn [fst snd] in *.
      split; [by eapply callsOnly_trans|].
      intros out ->. destruct (Hok2 _ eq_refl) as (res2 & Hres2 & ->).
      exists (res ++ res2). split.
      * rewrite Ht. by apply Forall2_app.
      * rewrite Hk, fmap_app, zip_with_app, storeAll_app; [done|].
        rewrite length_fmap. apply Forall2_length in Hres. lia.
    + intros [= <- <-]. split; [by eapply callsOnly_then|].
      intros out [= <-]. exists res.
      assert (batch = []) as -> by (destruct batch; [done|simpl in Hrest; lia]).
      assert (bk = []) as -> by (by destruct bk).
      rewrite !app_nil_r in *. by subst.
  - intros [= <- <-].
    destruct (translateLoop_spec _ _ _ _ _ _ _ ltac:(constructor) eq_refl Eloop) as [Hcalls _].
    split; [by eapply callsOnly_err|done].
  - intros [= <- <-].
    destruct (translateLoop_spec _ _ _ _ _ _ _ ltac:(constructor) eq_refl Eloop) as [Hcalls _].
    split; [by eapply callsOnly_panic|done].
Qed.

End TranslateLoop.

Section Entries.
Context (client : Client) (data : OrderedMap) (targetLanguage : gostring)
        (batchSize : Z) (customPrompt model : gostring).
Context (Q : gostring → Prop) (R : gostring → gostring → Prop).
Hypothesis HQ : ∀ key, Q (protectedValue data key).
Hypothesis HR : ∀ texts w res w',
  Forall Q texts →
  translateText client texts targetLanguage customPrompt model w = (Ok res, w') →
  Forall2 R texts res.
Hypothesis Hdata : store_ok data.

(** The store [translateJSONValues] returns, key by key. *)
Lemma translateJSONValues_entries w out w' :
  translateJSONValues client data targetLanguage batchSize customPrompt model w = (Ok out, w') →
  keys out = keys data
  ∧ store_ok out
  ∧ ∀ k v, values data !! k = Some v →
      ∃ r, R (protect v) r ∧ values out !! k = Some (restore r).
Proof.
  intros Hrun.
  destruct (translateJSONValues_spec client data targetLanguage batchSize customPrompt
              model Q R HQ HR _ _ _ Hrun) as [_ Hok].
  destruct (Hok _ eq_refl) as (res & Hres & ->). destruct Hdata as [Hnd Hdom].
  assert (length res = length (keys data)) as Hlen
    by (apply Forall2_length in Hres; by rewrite length_fmap in Hres).
  split_and!.
  - rewrite storeAll_keys; [done|apply store_ok_New|done|..].
    + intros k _. apply not_elem_of_nil.
    + rewrite length_fmap. lia.
  - apply storeAll_ok, store_ok_New.
  - intros k v Hkv.
    assert (k ∈ keys data) as Hin by (apply Hdom; eauto).
    apply list_elem_of_lookup in Hin as [j Hj].
    assert ((protectedValue data <$> keys data) !! j = Some (protect v)) as Ht.
    { rewrite list_lookup_fmap, Hj. simpl. unfold protectedValue, OrderedMap_Get.
      by rewrite Hkv. }
    destruct (Forall2_lookup_l _ _ _ _ _ Hres Ht) as (r & Hr & HRr).
    exists r. split; [done|].
    apply (storeAll_lookup _ _ _ j); [done..|]. by rewrite list_lookup_fmap, Hr.
Qed.

End Entries.

(** ** Blank values *)

Lemma not_spaceByte_brace : ¬ spaceByte "{".
Proof.
  unfold spaceByte. intros H. apply list_elem_of_In in H. vm_compute in H.
  repeat (destruct H as [H|H]; [discriminate H|]). done.
Qed.

Lemma Index_Some_split (s sub : gostring) i :
  Index s sub = Some i → ∃ a b, s = a ++ sub ++ b.
Proof.
  revert i. induction s as [|c s IH]; intros i; cbn [Index].
  - destruct (HasPrefix [] sub) eqn:E; [|done]. intros _.
    apply HasPrefix_spec in E as [r E]. by exists [], r.
  - destruct (HasPrefix (c :: s) sub) eqn:E.
    + intros _. apply HasPrefix_spec in E as [r E]. by exists [], r.
    + destruct (Index s sub) as [j|] eqn:Ej; [|done]. intros _.
      destruct (IH _ eq_refl) as (a & b & ->). by exists (c :: a), b.
Qed.

Lemma Index_None_elem (s sub : gostring) (c : ascii) :
  c ∈ sub → c ∉ s → Index s sub = None.
Proof.
  intros Hc Hs. destruct (Index s sub) as [i|] eqn:E; [|done].
  apply Index_Some_split in E as (a & b & ->). exfalso. apply Hs.
  rewrite !elem_of_app. auto.
Qed.

Lemma brace_in_placeholder : "{"%char ∈ newlinePlaceholder.
Proof. left. Qed.

Lemma elem_of_protect (c : ascii) (v : gostring) :
  c ∈ v → c ≠ "010"%char → c ∈ protect v.
Proof.
  intros Hc Hne. induction v as [|d v IH]; [by apply elem_of_nil in Hc|].
  rewrite protect_cons. apply elem_of_cons in Hc as [<-|Hc].
  - rewrite (proj2 (Ascii.eqb_neq _ _)) by done. left.
  - apply elem_of_app. right. by apply IH.
Qed.

Lemma newline_in_protect (v : gostring) :
  "010"%char ∈ v → "{"%char ∈ protect v.
Proof.
  induction v as [|d v IH]; intros Hc; [by apply elem_of_nil in Hc|].
  rewrite protect_cons. destruct (Ascii.eqb_spec d "010") as [->|Hne].
  - apply elem_of_app. left. apply brace_in_placeholder.
  - apply elem_of_cons in Hc as [?|Hc]; [done|].
    apply elem_of_app. right. by apply IH.
Qed.

(** A value whose protected form is blank has no newline and no
    placeholder: protecting and restoring leave it as it is. *)
Lemma blank_protect (v : gostring) :
  blank (protect v) → protect v = v ∧ restore v = v.
Proof.
  intros Hb. apply TrimSpace_nil_bytes in Hb.
  assert ("{"%char ∉ protect v) as Hbrace.
  { intros Hin. apply (proj1 (Forall_forall _ _) Hb) in Hin.
    by apply not_spaceByte_brace. }
  assert ("010"%char ∉ v) as Hnl by (intros ?; by apply Hbrace, newline_in_protect).
  rewrite protect_id in * by done. split; [done|].
  rewrite ReplaceAll_unfold by done.
  by rewrite (Index_None_elem v _ "{" brace_in_placeholder Hbrace).
Qed.

Lemma whiteSpaceOnly_blank (v : gostring) :
  whiteSpaceOnly v → "010"%char ∉ v → blank (protect v).
Proof.
  intros (ws & Hws & ->) Hnl. rewrite protect_id by done. by apply TrimSpace_spaces.
Qed.

(** X16.  A value of white space without a newline is never part of a request,
    and stands unchanged under its key in the store that is returned. *)
Theorem blank_passthrough client data targetLanguage batchSize customPrompt model
    w r w' k v :
  store_ok data →
  values data !! k = Some v →
  whiteSpaceOnly v → "010"%char ∉ v →
  translateJSONValues client data targetLanguage batchSize customPrompt model w = (r, w') →
  (∃ new, sent w' = sent w ++ new
          ∧ Forall (requestOf (λ t, ¬ blank t ∧ ∃ x, t = protect x)
                      targetLanguage customPrompt model) new)
  ∧ ∀ out, r = Ok out → keys out = keys data ∧ values out !! k = Some v.
Proof.
  intros Hdata Hkv Hws Hnl Hrun.
  pose proof (whiteSpaceOnly_blank v Hws Hnl) as Hb.
  assert (HQ : ∀ key, (λ t, ∃ x, t = protect x) (protectedValue data key))
    by (intros; by eexists).
  pose proof (λ texts w res w' (_ : Forall (λ t, ∃ x, t = protect x) texts),
              translateText_blank client texts targetLanguage customPrompt model w res w')
    as HR.
  split.
  - destruct (translateJSONValues_spec _ _ _ _ _ _ _ _ HQ HR _ _ _ Hrun)
      as [(_ & _ & _ & new & Hs & Hreq & _) _]. eauto.
  - intros out ->.
    destruct (translateJSONValues_entries _ _ _ _ _ _ _ _ HQ HR Hdata _ _ _ Hrun)
      as (Hk & _ & Hv).
    split; [done|]. destruct (Hv k v Hkv) as (res & Hres & ->).
    rewrite (Hres Hb). f_equal. apply blank_protect in Hb as [-> ->]. done.
Qed.

(** ** The identity translation *)

Lemma Itoa_no_newline n : "010"%char ∉ Itoa n.
Proof.
  unfold Itoa. generalize (Nat.to_uint n). intros d.
  induction d; simpl; rewrite ?not_elem_of_cons; try (split; [done|]); try done.
  apply not_elem_of_nil.
Qed.

Lemma Index_first (c : ascii) (h m p : gostring) :
  c ∉ h → Index (h ++ (c :: m) ++ p) (c :: m) = Some (length h).
Proof.
  induction h as [|x h IH]; intros Hc.
  - apply Index_here, HasPrefix_spec. by exists p.
  - apply not_elem_of_cons in Hc as [Hx Hc].
    rewrite <- app_comm_cons, Index_cons, IH; [done..|].
    simpl. apply andb_false_iff. left. apply Ascii.eqb_neq. congruence.
Qed.

(** A literal does not contain the byte. *)
Ltac not_in_literal :=
  let H := fresh in
  intros H; apply list_elem_of_In in H; vm_compute in H;
  repeat (destruct H as [H|H]; [discriminate H|]); exact H.

Lemma afterMarker_userPrompt n targetLanguage content :
  "010"%char ∉ targetLanguage →
  afterMarker (userPrompt n targetLanguage content) = content.
Proof.
  intros Hlang. unfold afterMarker, userPrompt.
  rewrite !(app_assoc _ _ (contentMarker ++ content)).
  rewrite (app_assoc _ contentMarker content).
  change contentMarker with ("010"%char :: tl contentMarker) at 1 2.
  rewrite <- (app_assoc _ _ content).
  rewrite Index_first.
  - change ("010"%char :: tl contentMarker) with contentMarker.
    rewrite <- app_assoc. by rewrite <- drop_drop, !drop_app_length.
  - rewrite !not_elem_of_app. split_and!;
      try not_in_literal; try done.
    apply Itoa_no_newline.
Qed.

Lemma identityStub_identity targetLanguage customPrompt model :
  "010"%char ∉ targetLanguage →
  IdentityTranslation identityStub targetLanguage customPrompt model.
Proof.
  intros Hlang hist texts Hne. unfold identityStub, chatRequest. cbn [Messages Content].
  by rewrite afterMarker_userPrompt.
Qed.

Lemma fillIn_filter (f : gostring → gostring) texts :
  fillIn texts (f <$> filter (λ t, ¬ blank t) texts)
  = (λ t, if decide (blank t) then t else f t) <$> texts.
Proof.
  induction texts as [|t texts IH]; [done|].
  cbn [fillIn]. rewrite filter_cons, fmap_cons.
  destruct (decide (blank t)) as [Hb|Hb].
  - rewrite decide_False by tauto. by rewrite IH.
  - rewrite decide_True by done. rewrite fmap_cons. by rewrite IH.
Qed.

Lemma filter_nil_Forall {A} (P : A → Prop) `{∀ x, Decision (P x)} (l : list A) :
  filter P l = [] → Forall (λ x, ¬ P x) l.
Proof.
  induction l as [|x l IH]; [constructor|]. rewrite filter_cons.
  destruct (decide (P x)); [done|]. intros Hl. constructor; [done|by apply IH].
Qed.

Lemma roundTrip_blank texts :
  Forall (λ t, ¬ ¬ blank t) texts → roundTrip <$> texts = texts.
Proof.
  induction 1 as [|t texts Ht _ IH]; [done|].
  rewrite fmap_cons, IH. f_equal. unfold roundTrip.
  rewrite decide_True; [done|]. by apply dec_stable.
Qed.

(** With an identity translation, every text without a newline comes back
    trimmed, or untouched when it is blank. *)
Lemma translateText_identity client texts targetLanguage customPrompt model w :
  IdentityTranslation client targetLanguage customPrompt model →
  Forall (λ t, "010"%char ∉ t) texts →
  (translateText client texts targetLanguage customPrompt model w).1
  = Ok (roundTrip <$> texts).
Proof.
  intros Hid Hnl. rewrite translateText_eq. cbv zeta.
  destruct (decide _) as [Hnil|Hne]; cbn [fst].
  - apply filter_nil_Forall in Hnil. by rewrite roundTrip_blank.
  - rewrite Hid by done. cbn [Choices].
    rewrite (Split_Join "010") by
      (done || (apply Forall_forall; intros t [_ Ht]%list_elem_of_filter;
                by apply (proj1 (Forall_forall _ _) Hnl))).
    rewrite decide_True by done. f_equal. apply fillIn_filter.
Qed.

Section Identity.
Context (client : Client) (data : OrderedMap) (targetLanguage : gostring)
        (batchSize : Z) (customPrompt model : gostring).
Hypothesis Hid : IdentityTranslation client targetLanguage customPrompt model.

Lemma translateText_identity_R texts w res w' :
  Forall (λ t, "010"%char ∉ t) texts →
  translateText client texts targetLanguage customPrompt model w = (Ok res, w') →
  Forall2 (λ t r, r = roundTrip t) texts res.
Proof.
  intros Hnl Hrun.
  pose proof (translateText_identity client texts targetLanguage customPrompt model w
                Hid Hnl) as H.
  rewrite Hrun in H. injection H as ->.
  apply Forall2_fmap_r, Forall_Forall2_diag, Forall_forall. done.
Qed.

Lemma protectedValue_no_newline key : "010"%char ∉ protectedValue data key.
Proof. apply protect_no_newline. Qed.

Lemma translateLoop_identity_total ks translatedData batch batchKeys w :
  Forall (λ t, "010"%char ∉ t) batch → length batch = length batchKeys →
  ∃ x w', translateLoop client data targetLanguage batchSize customPrompt model
            ks translatedData batch batchKeys w = (Ok x, w').
Proof.
  revert translatedData batch batchKeys w.
  induction ks as [|key ks IH]; intros td batch bk w Hnl Hlen; [by eexists _, _|].
  cbn [translateLoop]. fold (protectedValue data key).
  assert (Forall (λ t, "010"%char ∉ t) (batch ++ [protectedValue data key])) as Hnl1.
  { apply Forall_app. split; [done|].
    constructor; [apply protectedValue_no_newline|constructor]. }
  assert (length (batch ++ [protectedValue data key]) = length (bk ++ [key])) as Hlen1
    by (rewrite !length_app; simpl; lia).
  case_bool_decide as Hfull; [|by apply IH].
  unfold bind, wrap, lift.
  pose proof (translateText_identity client _ targetLanguage customPrompt model w
                Hid Hnl1) as H.
  destruct (translateText client _ targetLanguage customPrompt model w) as [o w1].
  simpl in H. subst o.
  rewrite storeBatch_storeAll by (rewrite length_fmap; simpl; lia).
  by apply IH.
Qed.

(** With an identity translation [translateJSONValues] returns a store
    with the keys of [data], each value protected, passed through
    [roundTrip] and restored. *)
Lemma translateJSONValues_identity w :
  store_ok data → (0 ≤ batchSize)%Z →
  ∃ out w',
    translateJSONValues client data targetLanguage batchSize customPrompt model w
    = (Ok out, w')
    ∧ keys out = keys data
    ∧ (∀ k v, values data !! k = Some v →
         values out !! k = Some (restore (roundTrip (protect v))))
    ∧ ∃ new, sent w' = sent w ++ new
             ∧ Forall (requestOf (λ t, ¬ blank t ∧ "010"%char ∉ t)
                         targetLanguage customPrompt model) new.
Proof.
  intros Hdata Hbs.
  assert (∃ out w', translateJSONValues client data targetLanguage batchSize
                      customPrompt model w = (Ok out, w')) as (out & w' & Hrun).
  { unfold translateJSONValues. rewrite bool_decide_eq_false_2 by lia.
    unfold bind at 1.
    destruct (translateLoop_identity_total (keys data) NewOrderedMap [] [] w)
      as ([[td batch] bk] & w1 & Hloop); [constructor|done|].
    rewrite Hloop.
    destruct (translateLoop_spec client data targetLanguage batchSize customPrompt model
                (λ t, "010"%char ∉ t) (λ t r, r = roundTrip t)
                protectedValue_no_newline translateText_identity_R
                _ _ _ _ _ _ _ ltac:(constructor) eq_refl Hloop) as [_ Hok].
    destruct (Hok _ _ _ eq_refl) as (_ & _ & _ & _ & _ & _ & _ & _ & Hl & Hnl).
    case_bool_decide; [|by eexists _, _].
    unfold bind, wrap, lift.
    pose proof (translateText_identity client batch targetLanguage customPrompt model w1
                  Hid Hnl) as Hfinal.
    destruct (translateText client batch targetLanguage customPrompt model w1) as [o w2].
    simpl in Hfinal. subst o.
    rewrite storeBatch_storeAll by (rewrite length_fmap; simpl; lia).
    by eexists _, _. }
  exists out, w'. split; [done|].
  destruct (translateJSONValues_entries client data targetLanguage batchSize customPrompt
              model (λ t, "010"%char ∉ t) (λ t r, r = roundTrip t)
              protectedValue_no_newline translateText_identity_R Hdata _ _ _ Hrun)
    as (Hk & _ & Hv).
  split_and!; [done| |].
  - intros k v Hkv. by destruct (Hv k v Hkv) as (r & -> & ->).
  - destruct (translateJSONValues_spec client data targetLanguage batchSize customPrompt
                model (λ t, "010"%char ∉ t) (λ t r, r = roundTrip t)
                protectedValue_no_newline translateText_identity_R _ _ _ Hrun)
      as [(_ & _ & _ & new & Hs & Hreq & _) _]. eauto.
Qed.

End Identity.

Lemma roundTrip_stable (t : gostring) : cleanTranslation t = t → roundTrip t = t.
Proof. intros H. unfold roundTrip. by destruct (decide _). Qed.

(** C7, as amended.  With an identity translation, a value that does not
    contain the placeholder token and whose newline-protected form has no
    leading or trailing white space is returned as it is, every newline at
    its place: the texts sent are the protected values, which contain no
    newline, and every placeholder of a result is replaced by a newline
    before it is stored. *)
Theorem newline_protection client data targetLanguage batchSize customPrompt model w k v :
  IdentityTranslation client targetLanguage customPrompt model →
  store_ok data → (0 ≤ batchSize)%Z →
  values data !! k = Some v →
  Index v newlinePlaceholder = None →
  cleanTranslation (protect v) = protect v →
  ∃ out w',
    translateJSONValues client data targetLanguage batchSize customPrompt model w
    = (Ok out, w')
    ∧ keys out = keys data
    ∧ values out !! k = Some v
    ∧ ∃ new, sent w' = sent w ++ new
             ∧ Forall (requestOf (λ t, ¬ blank t ∧ "010"%char ∉ t)
                         targetLanguage customPrompt model) new.
Proof.
  intros Hid Hdata Hbs Hkv Hph Htrim.
  destruct (translateJSONValues_identity client data targetLanguage batchSize customPrompt
              model Hid w Hdata Hbs) as (out & w' & Hrun & Hk & Hv & Hsent).
  exists out, w'. split_and!; [done..| |done].
  rewrite (Hv k v Hkv), roundTrip_stable by done. f_equal. by apply unprotect_protect.
Qed.

Lemma newline_protection_witness :
  ∃ out w',
    translateJSONValues identityStub
      (storeOf [("title" : gostring, "a" ++ newline ++ "b")])
      "French" 100 "" "gpt-4o-mini" (worldWith []) = (Ok out, w')
    ∧ values out !! ("title" : gostring) = Some ("a" ++ newline ++ "b").
Proof.
  destruct (newline_protection identityStub
              (storeOf [("title" : gostring, "a" ++ newline ++ "b")])
              "French" 100 "" "gpt-4o-mini" (worldWith []) "title"
              ("a" ++ newline ++ "b")) as (out & w' & Hrun & _ & Hv & _).
  - apply identityStub_identity. not_in_literal.
  - apply store_ok_storeOf.
  - lia.
  - vm_compute. reflexivity.
  - vm_compute. reflexivity.
  - vm_compute. reflexivity.
  - exists out, w'. split; [exact Hrun|exact Hv].
Defined.

(** C7 fails as it is stated: with the identity stub the value [" \nb"]
    comes back as ["\nb"], the leading space being trimmed with the line,
    so that the newline is not at its place. *)
Lemma newline_protection_counterexample :
  ¬ (∀ client data targetLanguage batchSize customPrompt model w k v,
       IdentityTranslation client targetLanguage customPrompt model →
       store_ok data → (0 ≤ batchSize)%Z →
       values data !! k = Some v → "010"%char ∈ v →
       ∃ out w' v',
         translateJSONValues client data targetLanguage batchSize customPrompt model w
         = (Ok out, w')
         ∧ values out !! k = Some v'
         ∧ ∀ i, v !! i = Some "010"%char → v' !! i = Some "010"%char).
Proof.
  intros H.
  destruct (H identityStub (storeOf [("title" : gostring, " " ++ newline ++ "b")])
              "French" 100%Z "" "gpt-4o-mini" (worldWith []) "title"
              (" " ++ newline ++ "b")) as (out & w' & v' & Hrun & Hv & Hpos).
  - apply identityStub_identity. not_in_literal.
  - apply store_ok_storeOf.
  - lia.
  - vm_compute. reflexivity.
  - right. left.
  - vm_compute in Hrun. injection Hrun as Hout _. subst out.
    vm_compute in Hv. injection Hv as Hv. subst v'.
    specialize (Hpos 1 eq_refl). discriminate Hpos.
Qed.

(** ** The placeholder as a part of a value *)

Lemma protect_restore (x : gostring) : "010"%char ∉ x → protect (restore x) = x.
Proof.
  revert x.
  apply (scan_ind newlinePlaceholder (λ x, "010"%char ∉ x → protect (restore x) = x));
    [done|..].
  - intros ?. rewrite ReplaceAll_nil by done. apply protect_nil.
  - intros s IH Hnl. rewrite ReplaceAll_hit by done.
    rewrite (ReplaceAll_hit _ newline) by done. rewrite IH; [done|].
    intros ?. apply Hnl, elem_of_app. by right.
  - intros c s E IH Hnl. apply not_elem_of_cons in Hnl as [Hc Hnl].
    rewrite ReplaceAll_miss by done. rewrite protect_cons.
    rewrite (proj2 (Ascii.eqb_neq _ _)) by congruence. simpl. by rewrite IH.
Qed.

Lemma TrimSpace_no_newline (t : gostring) : "010"%char ∉ t → "010"%char ∉ TrimSpace t.
Proof.
  intros Hnl Hin. apply Hnl. unfold TrimSpace in Hin. cbv zeta in Hin.
  destruct (trimLeft_split (length t) t) as (pre & Ht & _).
  destruct (trimRight_split (length (trimLeft (length t) t)) (trimLeft (length t) t))
    as (suf & Hl & _).
  rewrite Ht, Hl, !elem_of_app. auto.
Qed.

Lemma contains_not_blank (v : gostring) :
  Contains v newlinePlaceholder = true → ¬ blank (protect v).
Proof.
  intros Hc Hb. apply bool_decide_eq_true in Hc as [i Hi].
  apply Index_Some_split in Hi as (a & b & ->).
  apply TrimSpace_nil_bytes in Hb.
  apply not_spaceByte_brace. apply (proj1 (Forall_forall _ _) Hb).
  apply elem_of_protect; [|done].
  rewrite !elem_of_app. right. left. apply brace_in_placeholder.
Qed.

(** C10.  With an identity translation, a value that contains the
    placeholder token is not preserved: every occurrence of the token in
    the text that comes back is replaced by a newline, so that the stored
    result contains no token and differs from the value; and the stored
    result is itself a value that is stored unchanged, so that two
    different values have the same result. *)
Theorem placeholder_collision client data targetLanguage batchSize customPrompt model
    w k v :
  IdentityTranslation client targetLanguage customPrompt model →
  store_ok data → (0 ≤ batchSize)%Z →
  values data !! k = Some v →
  Contains v newlinePlaceholder = true →
  ∃ out w' v',
    translateJSONValues client data targetLanguage batchSize customPrompt model w
    = (Ok out, w')
    ∧ values out !! k = Some v'
    ∧ v' = restore (cleanTranslation (protect v))
    ∧ Contains v' newlinePlaceholder = false
    ∧ v' ≠ v
    ∧ restore (roundTrip (protect v')) = v'.
Proof.
  intros Hid Hdata Hbs Hkv Hc.
  destruct (translateJSONValues_identity client data targetLanguage batchSize customPrompt
              model Hid w Hdata Hbs) as (out & w' & Hrun & _ & Hv & _).
  exists out, w', (restore (cleanTranslation (protect v))).
  assert (Contains (restore (cleanTranslation (protect v))) newlinePlaceholder = false)
    as Hnone.
  { apply bool_decide_eq_false. rewrite unprotect_no_placeholder. by intros [? ?]. }
  split_and!; [done| |done|done| |].
  - rewrite (Hv k v Hkv). unfold roundTrip.
    by rewrite decide_False by by apply contains_not_blank.
  - intros E. rewrite E in Hnone. congruence.
  - rewrite protect_restore by apply TrimSpace_no_newline, protect_no_newline.
    rewrite roundTrip_stable by apply TrimSpace_idemp. done.
Qed.

Lemma placeholder_collision_witness :
  ∃ out w',
    translateJSONValues identityStub
      (storeOf [("title" : gostring, "a{{NEWLINE_PLACEHOLDER}}b" : gostring)])
      "French" 100 "" "gpt-4o-mini" (worldWith []) = (Ok out, w')
    ∧ values out !! ("title" : gostring) = Some ("a" ++ newline ++ "b").
Proof.
  destruct (placeholder_collision identityStub
      (storeOf [("title" : gostring, "a{{NEWLINE_PLACEHOLDER}}b" : gostring)])
      "French" 100 "" "gpt-4o-mini" (worldWith []) "title" "a{{NEWLINE_PLACEHOLDER}}b")
    as (out & w' & v' & Hrun & Hv & Hv' & _).
  - apply identityStub_identity. not_in_literal.
  - apply store_ok_storeOf.
  - lia.
  - vm_compute. reflexivity.
  - vm_compute. reflexivity.
  - exists out, w'. split; [exact Hrun|]. rewrite Hv, Hv'. vm_compute. reflexivity.
Defined.

Lemma newline_not_blank (v : gostring) : "010"%char ∈ v → ¬ blank (protect v).
Proof.
  intros Hnl Hb. apply TrimSpace_nil_bytes in Hb.
  apply newline_in_protect in Hnl.
  apply (proj1 (Forall_forall _ _) Hb) in Hnl. by apply not_spaceByte_brace.
Qed.

(** [translateText] on one text that is not blank, answered with one line. *)
Lemma translateText_single client (t : gostring) targetLanguage customPrompt model w
    content choices :
  ¬ blank t →
  client (sent w) (chatRequest [t] targetLanguage customPrompt model)
    = Ok {| Choices := content :: choices |} →
  "010"%char ∉ content →
  translateText client [t] targetLanguage customPrompt model w
  = (Ok [cleanTranslation content],
     addSent w (chatRequest [t] targetLanguage customPrompt model)).
Proof.
  intros Ht Hclient Hline. rewrite translateText_eq. cbn zeta.
  assert (filter (λ t, ¬ blank t) [t] = [t]) as ->.
  { rewrite filter_cons_True by done. done. }
  rewrite decide_False by done. rewrite Hclient. cbn [Choices].
  pose proof (Split_one "010" content Hline) as Hs.
  change ["010"%char] with newline in Hs. rewrite Hs. cbn [length].
  rewrite decide_True by done. cbn [fmap list_fmap fillIn].
  by rewrite decide_False by done.
Qed.

(** C3 on the code.  A value of white space only that contains a newline
    is blank, but its protected form, in which every newline is the
    placeholder, is not, and it is sent: in a store of one entry it is the
    one text of the request, and what the service answers in one line is
    stored in the place of the value. *)
Theorem white_space_with_newline_is_sent client key (v : gostring) targetLanguage
    batchSize customPrompt model w content choices :
  whiteSpaceOnly v → "010"%char ∈ v → (0 ≤ batchSize)%Z →
  client (sent w) (chatRequest [protect v] targetLanguage customPrompt model)
    = Ok {| Choices := content :: choices |} →
  "010"%char ∉ content →
  blank v ∧ ¬ blank (protect v)
  ∧ translateJSONValues client (storeOf [(key, v)]) targetLanguage batchSize
                        customPrompt model w
    = (Ok (storeOf [(key, restore (cleanTranslation content))]),
       addSent w (chatRequest [protect v] targetLanguage customPrompt model)).
Proof.
  intros (ws & Hws & ->) Hnl Hsize Hclient Hline.
  split; [by apply TrimSpace_spaces|]. split; [by apply newline_not_blank|].
  set (v := concat ws) in *.
  pose proof (translateText_single client (protect v) targetLanguage customPrompt model w
                content choices (newline_not_blank v Hnl) Hclient Hline) as Htext.
  unfold translateJSONValues. rewrite bool_decide_false by lia.
  assert (keys (storeOf [(key, v)]) = [key]) as -> by done.
  cbn [translateLoop].
  assert ((OrderedMap_Get (storeOf [(key, v)]) key).1 = v) as ->.
  { unfold OrderedMap_Get, storeOf, storeAll. cbn. by rewrite lookup_insert_eq. }
  cbn [app length].
  destruct (bool_decide (Z.of_nat 1 = batchSize)).
  - unfold bind at 1. unfold bind at 1. unfold wrap. rewrite Htext.
    unfold bind at 1. done.
  - unfold bind at 1. cbn [ret]. rewrite bool_decide_true by (simpl; lia).
    unfold bind at 1. unfold wrap. rewrite Htext. done.
Qed.

Lemma white_space_with_newline_is_sent_witness :
  blank newline ∧ ¬ blank (protect newline)
  ∧ translateJSONValues (constClient "Nouvelle ligne")
    (storeOf [("sep" : gostring, newline)]) "French" 100 "" "gpt-4o-mini" (worldWith [])
  = (Ok (storeOf [("sep" : gostring, "Nouvelle ligne" : gostring)]),
     addSent (worldWith [])
       (chatRequest [newlinePlaceholder] "French" "" "gpt-4o-mini")).
Proof.
  apply (white_space_with_newline_is_sent (constClient "Nouvelle ligne") "sep" newline
           "French" 100 "" "gpt-4o-mini" (worldWith []) "Nouvelle ligne" []).
  - exists [newline]. split; [|done]. constructor; [|constructor].
    apply list_elem_of_In. vm_compute. tauto.
  - left.
  - lia.
  - reflexivity.
  - not_in_literal.
Defined.

(** ** The pipeline *)

Lemma readJSONFile_world filename w : (readJSONFile filename w).2 = w.
Proof.
  unfold readJSONFile, bind, os_Open, lift, ret, fail.
  destruct (bool_decide _); [done|]. by destruct (files (fs w) !! filename).
Qed.

Lemma readJSONFile_fs filename w w0 :
  fs w = fs w0 → (readJSONFile filename w).1 = (readJSONFile filename w0).1.
Proof.
  intros Hfs. unfold readJSONFile, bind, os_Open, lift, ret, fail. rewrite Hfs.
  destruct (bool_decide _); [done|]. by destruct (files (fs w0) !! filename).
Qed.

Section PipelineFacts.
Context `{Platform}.

(** The part of [translateJSON] between the merge and the write. *)
Lemma translate_step client mergedJSON (untranslatedKeys : list gostring)
    targetLanguage batchSize customPrompt model w :
  let m : M OrderedMap :=
    if bool_decide (0 < length untranslatedKeys) then
      (translatedData <- wrap "error translating JSON values"
         (translateJSONValues client (collect mergedJSON untranslatedKeys)
            targetLanguage batchSize customPrompt model) ;;
       ret (mergeBack mergedJSON translatedData))
    else ret mergedJSON in
  callsOnly client (λ t, ¬ blank t ∧ True) targetLanguage customPrompt model
    w (m w).2 (m w).1.
Proof.
  cbv zeta. case_bool_decide; [|apply callsOnly_refl].
  unfold bind, wrap, ret.
  destruct (translateJSONValues client _ targetLanguage batchSize customPrompt model w)
    as [r w1] eqn:Erun.
  destruct (translateJSONValues_spec client _ targetLanguage batchSize customPrompt model
              (λ _, True) (λ t r, blank t → r = t) (λ _, I)
              (λ texts w res w' _, translateText_blank client texts targetLanguage
                                     customPrompt model w res w')
              _ _ _ Erun) as [Hcalls _].
  destruct r; cbn [fst snd].
  - by eapply callsOnly_then.
  - by eapply callsOnly_err.
  - done.
Qed.

End PipelineFacts.

Section MissingInput.
Context `{Platform}.

Lemma renderJSON_empty : renderJSON NewOrderedMap = Ok ("{" ++ newline ++ "}" ++ newline).
Proof. reflexivity. Qed.

(** C4 on the code: with no file at the input path the run does not fail.
    [readJSONFile] gives the empty store for the input as it does for the
    output, nothing is translated, and the output file is written as the
    empty document, whatever it held before. *)
Theorem missing_input_accepted c w env' apiKey existing :
  godotenv_Load (fs w) (environ w) (flag_env c) = inr env' →
  env' !! ("OPENAI_API_KEY" : gostring) = Some apiKey → apiKey ≠ [] →
  files (fs w) !! flag_input c = None → flag_input c ∉ denied (fs w) →
  (readJSONFile (outputPath c) w).1 = Ok existing →
  outputPath c ∉ denied (fs w) → filepath_Dir (outputPath c) ∉ denied (fs w) →
  (readJSONFile (flag_input c) w).1 = Ok NewOrderedMap
  ∧ ∃ w', translateJSON c w = (Ok tt, w')
          ∧ fs w' = fs (withFile w (outputPath c) ("{" ++ newline ++ "}" ++ newline))
          ∧ sent w' = sent w.
Proof.
  intros Henv Hkey Hne Hmissing Hin Hexisting Hout Hdir.
  assert (∀ w0, fs w0 = fs w → readJSONFile (flag_input c) w0 = (Ok NewOrderedMap, w0))
    as Hread.
  { intros w0 Hfs. unfold readJSONFile, bind, os_Open, ret. rewrite Hfs.
    rewrite bool_decide_eq_false_2 by done. by rewrite Hmissing. }
  split; [by rewrite Hread|].
  unfold translateJSON. unfold bind at 1. unfold wrap at 1. unfold loadEnv.
  rewrite Henv.
  set (w1 := {| fs := fs w; environ := env'; sent := sent w; stdout := stdout w |}).
  unfold bind at 1. unfold os_Getenv at 1. cbn [environ w1]. rewrite Hkey.
  cbn [default from_option id]. rewrite bool_decide_eq_false_2 by done.
  unfold bind at 1. unfold os_Getenv at 1.
  unfold bind at 1. unfold os_Getenv at 1.
  unfold bind at 1. unfold wrap at 1. rewrite Hread by done.
  unfold bind at 1. unfold wrap at 1.
  pose proof (readJSONFile_world (outputPath c) w1) as Hw.
  pose proof (readJSONFile_fs (outputPath c) w1 w eq_refl) as Hr. rewrite Hexisting in Hr.
  destruct (readJSONFile (outputPath c) w1) as [rout wout]. simpl in Hw, Hr. subst.
  change (mergeJSON NewOrderedMap existing) with (NewOrderedMap, @nil gostring).
  cbn [length]. rewrite bool_decide_eq_false_2 by lia.
  unfold bind at 1. unfold ret at 1.
  unfold bind at 1. unfold wrap at 1.
  unfold writeJSONFile, bind, wrap, os_MkdirAll, os_WriteFile, lift, ret, Printf.
  cbn [fs w1]. rewrite !bool_decide_eq_false_2 by done.
  rewrite renderJSON_empty. eexists. split; [reflexivity|]. done.
Qed.

End MissingInput.

Lemma missing_input_accepted_witness :
  ∃ w', translateJSON (H := stubPlatform identityStub) exampleContext worldWithoutInput
        = (Ok tt, w')
        ∧ files (fs w') !! ("locales/fr.json" : gostring)
          = Some ("{" ++ newline ++ "}" ++ newline).
Proof.
  destruct (missing_input_accepted (H := stubPlatform identityStub) exampleContext
              worldWithoutInput
              (<[("OPENAI_API_KEY" : gostring) := ("sk-test" : gostring)]> ∅) "sk-test"
              (storeOf [("greeting" : gostring, "Bonjour" : gostring)]))
    as (_ & w' & Hrun & Hfs & _).
  - vm_compute. reflexivity.
  - vm_compute. reflexivity.
  - discriminate.
  - vm_compute. reflexivity.
  - vm_compute. intros Hin. discriminate Hin.
  - vm_compute. reflexivity.
  - vm_compute. intros Hin. discriminate Hin.
  - vm_compute. intros Hin. discriminate Hin.
  - exists w'. split; [exact Hrun|]. rewrite Hfs. reflexivity.
Defined.

(** ** Running the pipeline again *)


Lemma filter_ext_in {A} (P Q : A → Prop) `{∀ x, Decision (P x)} `{∀ x, Decision (Q x)}
    (l : list A) :
  (∀ x, x ∈ l → P x ↔ Q x) → filter P l = filter Q l.
Proof.
  induction l as [|x l IH]; intros Hl; [done|]. rewrite !filter_cons.
  rewrite IH by (intros y Hy; apply Hl; by right).
  destruct (Hl x) as [H1 H2]; [left|].
  destruct (decide (P x)), (decide (Q x)); tauto || done.
Qed.

Lemma Forall_filter_nil {A} (P : A → Prop) `{∀ x, Decision (P x)} (l : list A) :
  Forall (λ x, ¬ P x) l → filter P l = [].
Proof.
  induction 1 as [|x l Hx _ IH]; [done|]. by rewrite filter_cons_False.
Qed.

(** ** json.Decoder on a flat document *)

Lemma skipSpace_idemp (s : gostring) : skipSpace (skipSpace s) = skipSpace s.
Proof.
  induction s as [|c s IH]; [done|]. simpl.
  destruct (isSpace c) eqn:E; [done|]. simpl. by rewrite E.
Qed.

Lemma skipSpace_length (s : gostring) : length (skipSpace s) ≤ length s.
Proof.
  induction s as [|c s IH]; [done|]. simpl. destruct (isSpace c); simpl; lia.
Qed.

Lemma peek_at b st stk c r :
  skipSpace b = c :: r →
  peek (mkDecoder b st stk) = (Ok c, mkDecoder (c :: r) st stk).
Proof. intros H. unfold peek. cbn [buf]. by rewrite H. Qed.

Lemma scanString_length fuel (s str rest : gostring) :
  scanString fuel s = Some (str, rest) → length rest < length s.
Proof.
  revert s str rest. induction fuel as [|fuel IH]; intros s str rest; [done|].
  destruct s as [|c s]; [done|]. cbn [scanString].
  assert (∀ out r, (match scanString fuel r with
                    | Some (str0, rest') => Some (out ++ str0, rest')
                    | None => None
                    end) = Some (str, rest) → length rest < length r) as Hmore.
  { intros out r H. destruct (scanString fuel r) as [[str0 rest']|] eqn:E; [|done].
    injection H as _ <-. by eapply IH. }
  destruct (Ascii.eqb c dquote); [intros [= _ <-]; simpl; lia|].
  destruct (Ascii.eqb c backslash).
  - destruct s as [|e s]; [done|].
    destruct (Ascii.eqb e "u").
    + destruct (getu4 s) as [[rr s3]|] eqn:Eu; [|done].
      assert (length s3 < length s) as Hs3.
      { unfold getu4 in Eu. destruct s as [|h1 [|h2 [|h3 [|h4 r]]]]; try done.
        destruct (hexValue h1), (hexValue h2), (hexValue h3), (hexValue h4); try done.
        injection Eu as _ <-. simpl. lia. }
      destruct (_ && _)%bool.
      * destruct s3 as [|b1 [|u1 s4]].
        -- intros H%Hmore. simpl in *. lia.
        -- intros H%Hmore. simpl in *. lia.
        -- destruct (if (Ascii.eqb b1 backslash && Ascii.eqb u1 "u")%bool
                     then getu4 s4 else None) as [[rr1 s5]|] eqn:E1.
           ++ assert (length s5 < length s4) as Hs5.
              { destruct (_ && _)%bool; [|done].
                unfold getu4 in E1. destruct s4 as [|h1 [|h2 [|h3 [|h4 r]]]]; try done.
                destruct (hexValue h1), (hexValue h2), (hexValue h3), (hexValue h4);
                  try done.
                injection E1 as _ <-. simpl. lia. }
              destruct (bool_decide _); intros H%Hmore; simpl in *; lia.
           ++ intros H%Hmore. simpl in *. lia.
      * intros H%Hmore. simpl in *. lia.
    + destruct (simpleEscape e); [|done]. intros H%Hmore. simpl in *. lia.
  - destruct (_ <? _)%N; [done|]. destruct (_ <? _)%N.
    + intros H%Hmore. simpl in *. lia.
    + destruct (DecodeRune (c :: s)) as [rr size] eqn:Ed. intros H%Hmore.
      assert (0 < size) as Hsize.
      { unfold DecodeRune in Ed. repeat (match type of Ed with
          | context [match ?x with _ => _ end] => destruct x end);
          injection Ed as _ <-; lia. }
      rewrite length_drop in H. simpl in *. lia.
Qed.

Lemma Token_loop_eq fuel dec :
  Token_loop (S fuel) dec =
  (c <- peek ;;
    st <- getState ;;
    if Ascii.eqb c "[" then
      if tokenValueAllowed st
      then (_ <- advance ;; _ <- pushState tokenArrayStart ;; ret (Delim c))
      else tokenError c
    else if Ascii.eqb c "]" then
      if bool_decide (st = tokenArrayStart ∨ st = tokenArrayComma)
      then (_ <- advance ;; _ <- popState ;; _ <- tokenValueEnd ;; ret (Delim c))
      else tokenError c
    else if Ascii.eqb c "{" then
      if tokenValueAllowed st
      then (_ <- advance ;; _ <- pushState tokenObjectStart ;; ret (Delim c))
      else tokenError c
    else if Ascii.eqb c "}" then
      if bool_decide (st = tokenObjectStart ∨ st = tokenObjectComma)
      then (_ <- advance ;; _ <- popState ;; _ <- tokenValueEnd ;; ret (Delim c))
      else tokenError c
    else if Ascii.eqb c ":" then
      if bool_decide (st = tokenObjectColon)
      then (_ <- advance ;; _ <- setState tokenObjectValue ;; Token_loop fuel)
      else tokenError c
    else if Ascii.eqb c "," then
      if bool_decide (st = tokenArrayComma)
      then (_ <- advance ;; _ <- setState tokenArrayValue ;; Token_loop fuel)
      else if bool_decide (st = tokenObjectComma)
      then (_ <- advance ;; _ <- setState tokenObjectKey ;; Token_loop fuel)
      else tokenError c
    else if Ascii.eqb c dquote && bool_decide (st = tokenObjectStart ∨ st = tokenObjectKey)
    then
      _ <- setState tokenTopValue ;;
      λ dec, match Decode_string dec with
             | (Ok x, dec') => (Ok (Value (JString x)),
                                {| buf := buf dec'; tokenState := tokenObjectColon;
                                   tokenStack := tokenStack dec' |})
             | (Err e, dec') => (Err e, {| buf := buf dec'; tokenState := st;
                                           tokenStack := tokenStack dec' |})
             | (Panic m, dec') => (Panic m, dec')
             end
    else if tokenValueAllowed st then (x <- Decode_any ;; ret (Value x))
    else tokenError c) dec.
Proof. done. Qed.

(** The opening brace, where a value may start. *)
Lemma Token_open b s st stk :
  skipSpace b = "{"%char :: s → tokenValueAllowed st = true →
  Token_ (mkDecoder b st stk)
  = (Ok (Delim "{"), mkDecoder s tokenObjectStart (stk ++ [st])).
Proof.
  intros Hb Hst. unfold Token_. rewrite Token_loop_eq.
  unfold bind at 1. rewrite (peek_at _ _ _ _ _ Hb).
  cbn. by rewrite Hst.
Qed.

(** The closing brace, behind the opening one or behind a member. *)
Lemma Token_close b s st st0 stk :
  skipSpace b = "}"%char :: s → st = tokenObjectStart ∨ st = tokenObjectComma →
  tokenValueAllowed st0 = true → st0 ≠ tokenArrayStart → st0 ≠ tokenArrayValue →
  st0 ≠ tokenObjectValue →
  Token_ (mkDecoder b st (stk ++ [st0]))
  = (Ok (Delim "}"), mkDecoder s st0 stk).
Proof.
  intros Hb Hst H0 H1 H2 H3. unfold Token_. rewrite Token_loop_eq.
  unfold bind at 1. rewrite (peek_at _ _ _ _ _ Hb).
  cbn. rewrite bool_decide_true by done. cbn.
  unfold bind at 1. unfold popState. cbn [tokenStack]. rewrite last_snoc.
  rewrite length_app. cbn [length]. replace (length stk + 1 - 1) with (length stk) by lia.
  rewrite take_app_length. cbn.
  by destruct st0.
Qed.

(** A string literal where a value may start. *)
Lemma readValue_string b s1 str rest st stk :
  skipSpace b = dquote :: s1 →
  scanString (S (length s1)) s1 = Some (str, rest) →
  readValue (mkDecoder b st stk)
  = (Ok (JString str), mkDecoder rest st stk).
Proof.
  intros Hb Hs. unfold readValue. cbn [buf]. rewrite Hb.
  cbn [length Nat.mul Nat.add scanValue].
  change (Ascii.eqb dquote dquote) with true. cbn iota.
  by rewrite Hs.
Qed.

Lemma More_at b c r st stk :
  skipSpace b = c :: r →
  More (mkDecoder b st stk)
  = (Ok (negb (Ascii.eqb c "]") && negb (Ascii.eqb c "}")), mkDecoder (c :: r) st stk).
Proof. intros Hb. unfold More. by rewrite (peek_at _ _ _ _ _ Hb). Qed.

(** [dec.Decode(&value)] behind a key: the colon, then a string literal. *)
Lemma Decode_string_member b r s2 value rest stk :
  skipSpace b = ":"%char :: r → skipSpace r = dquote :: s2 →
  scanString (S (length s2)) s2 = Some (value, rest) →
  Decode_string (mkDecoder b tokenObjectColon stk)
  = (Ok value, mkDecoder rest tokenObjectComma stk).
Proof.
  intros Hb Hr Hs. unfold Decode_string, tokenPrepareForDecode.
  unfold bind at 1. unfold bind at 1. cbn [getState tokenState].
  unfold bind at 1. rewrite (peek_at _ _ _ _ _ Hb).
  cbn -[readValue skipSpace]. unfold bind at 1.
  rewrite (readValue_string _ _ _ _ _ _ Hr Hs). done.
Qed.

(** The key of a member, at the start of the object or behind a comma. *)
Lemma Token_key fuel b s1 key rest st stk :
  skipSpace b = dquote :: s1 → st = tokenObjectStart ∨ st = tokenObjectKey →
  scanString (S (length s1)) s1 = Some (key, rest) →
  Token_loop (S fuel) (mkDecoder b st stk)
  = (Ok (Value (JString key)), mkDecoder rest tokenObjectColon stk).
Proof.
  intros Hb Hst Hs. rewrite Token_loop_eq.
  unfold bind at 1. rewrite (peek_at _ _ _ _ _ Hb).
  unfold bind at 1. cbn [getState tokenState].
  change (Ascii.eqb dquote "[") with false. change (Ascii.eqb dquote "]") with false.
  change (Ascii.eqb dquote "{") with false. change (Ascii.eqb dquote "}") with false.
  change (Ascii.eqb dquote ":") with false. change (Ascii.eqb dquote ",") with false.
  change (Ascii.eqb dquote dquote) with true. cbn iota.
  rewrite bool_decide_true by done. cbn [andb].
  unfold bind at 1. cbn [setState buf tokenStack].
  unfold Decode_string, tokenPrepareForDecode.
  unfold bind at 1. unfold bind at 1. cbn [getState tokenState ret].
  unfold bind at 1. cbn [getState tokenState tokenValueAllowed negb].
  unfold bind at 1.
  assert (skipSpace (dquote :: s1) = dquote :: s1) as Hq by done.
  rewrite (readValue_string _ _ _ _ _ _ Hq Hs). done.
Qed.

Lemma Token_comma_key b r s1 key rest stk :
  skipSpace b = ","%char :: r → skipSpace r = dquote :: s1 →
  scanString (S (length s1)) s1 = Some (key, rest) →
  Token_ (mkDecoder b tokenObjectComma stk)
  = (Ok (Value (JString key)), mkDecoder rest tokenObjectColon stk).
Proof.
  intros Hb Hr Hs. unfold Token_. cbn [buf].
  assert (∃ n, length b = S n) as [n ->].
  { pose proof (skipSpace_length b) as Hl. rewrite Hb in Hl. cbn [length] in Hl.
    destruct (length b); [lia|by eexists]. }
  rewrite Token_loop_eq.
  unfold bind at 1. rewrite (peek_at _ _ _ _ _ Hb).
  unfold bind at 1. cbn [getState tokenState].
  cbn -[Token_loop bool_decide].
  rewrite bool_decide_false by done. rewrite bool_decide_true by done.
  cbn -[Token_loop].
  by eapply Token_key; [done|right|done].
Qed.

Lemma readLoop_eq fuel om dec :
  readLoop (S fuel) om dec =
  (more <- More ;;
    if more : bool then
      key <- wrap "error reading JSON key" Token_ ;;
      value <- wrap "error reading JSON value" Decode_string ;;
      match key with
      | Value (JString k) => readLoop fuel (OrderedMap_Set om k value)
      | _ => panic ("interface conversion: json.Token is " ++ dynamicType key
                    ++ ", not string")
      end
    else ret om) dec.
Proof. done. Qed.

Lemma skipSpace_cons_length (b : gostring) c r :
  skipSpace b = c :: r → length r < length b.
Proof. intros Hb. pose proof (skipSpace_length b) as Hl. rewrite Hb in Hl. simpl in Hl. lia. Qed.

(** The loop of [readJSONFile] over the members of a flat document: it
    sets every member in turn and stops before the closing brace. *)
Lemma readLoop_members fuelP :
  ∀ s kvs, parseMembers fuelP s = Some kvs →
  ∀ fuel dec om, length (buf dec) < fuel → beforeMember dec s →
  ∃ rest, readLoop fuel om dec
          = (Ok (storeAll om kvs),
             mkDecoder ("}"%char :: rest) tokenObjectComma (tokenStack dec)).
Proof.
  induction fuelP as [|fuelP IH]; intros s kvs Hp fuel dec om Hfuel Hdec; [done|].
  destruct s as [|q s1]; [done|]. cbn [parseMembers] in Hp.
  destruct (Ascii.eqb_spec q dquote) as [->|]; [|done].
  destruct (scanString (S (length s1)) s1) as [[key r1]|] eqn:Hkey; [|done].
  destruct (skipSpace r1) as [|c r2] eqn:Hr1; [done|].
  destruct (Ascii.eqb_spec c ":") as [->|]; [|done].
  destruct (skipSpace r2) as [|q' s2] eqn:Hr2; [done|].
  destruct (Ascii.eqb_spec q' dquote) as [->|]; [|done].
  destruct (scanString (S (length s2)) s2) as [[value r3]|] eqn:Hvalue; [|done].
  destruct (skipSpace r3) as [|d r4] eqn:Hr3; [done|].
  pose proof (scanString_length _ _ _ _ Hkey) as Hl1.
  pose proof (skipSpace_cons_length _ _ _ Hr1) as Hl2.
  pose proof (skipSpace_cons_length _ _ _ Hr2) as Hl3.
  pose proof (scanString_length _ _ _ _ Hvalue) as Hl4.
  pose proof (skipSpace_cons_length _ _ _ Hr3) as Hl5.
  destruct dec as [b st stk]. unfold beforeMember in Hdec.
  cbn [buf tokenState tokenStack] in *.
  (* the key and the value of the first member *)
  assert (length s1 < length b ∧
          ∀ fuel', (more <- More ;;
            if more : bool then
              key <- wrap "error reading JSON key" Token_ ;;
              value <- wrap "error reading JSON value" Decode_string ;;
              match key with
              | Value (JString k) => readLoop fuel' (OrderedMap_Set om k value)
              | _ => panic ("interface conversion: json.Token is " ++ dynamicType key
                            ++ ", not string")
              end
            else ret om) (mkDecoder b st stk)
          = readLoop fuel' (OrderedMap_Set om key value)
                     (mkDecoder r3 tokenObjectComma stk)) as [Hl0 Hstep].
  { destruct Hdec as [[-> Hb]|[-> (r & Hb & Hr)]].
    - split; [by apply skipSpace_cons_length in Hb|]. intros fuel'.
      unfold bind at 1. rewrite (More_at _ _ _ _ _ Hb).
      change (negb (Ascii.eqb dquote "]") && negb (Ascii.eqb dquote "}")) with true.
      cbn iota. unfold bind at 1. unfold wrap at 1. unfold Token_. cbn [buf].
      erewrite Token_key; [|done|by left|done].
      unfold bind at 1. unfold wrap at 1.
      by rewrite (Decode_string_member _ _ _ _ _ _ Hr1 Hr2 Hvalue).
    - split.
      { apply skipSpace_cons_length in Hb, Hr. lia. }
      intros fuel'.
      unfold bind at 1. rewrite (More_at _ _ _ _ _ Hb).
      change (negb (Ascii.eqb "," "]") && negb (Ascii.eqb "," "}")) with true.
      cbn iota. unfold bind at 1. unfold wrap at 1.
      assert (skipSpace (","%char :: r) = ","%char :: r) as Hc by done.
      rewrite (Token_comma_key _ _ _ _ _ _ Hc Hr Hkey).
      unfold bind at 1. unfold wrap at 1.
      by rewrite (Decode_string_member _ _ _ _ _ _ Hr1 Hr2 Hvalue). }
  destruct fuel as [|fuel]; [lia|]. rewrite readLoop_eq, Hstep.
  destruct (Ascii.eqb_spec d ",") as [->|].
  - destruct (parseMembers fuelP (skipSpace r4)) as [kvs'|] eqn:Hrest; [|done].
    injection Hp as <-.
    destruct (IH _ _ Hrest fuel (mkDecoder r3 tokenObjectComma stk)
                 (OrderedMap_Set om key value)) as [rest Hloop].
    + cbn [buf]. lia.
    + right. split; [done|]. by exists r4.
    + exists rest. by rewrite Hloop.
  - destruct (Ascii.eqb_spec d "}") as [->|]; [|done]. injection Hp as <-.
    exists r4. destruct fuel as [|fuel]; [lia|]. rewrite readLoop_eq.
    unfold bind at 1. rewrite (More_at _ _ _ _ _ Hr3). done.
Qed.

(** The decoder reads a flat document as the store of its members, set in
    the order of the text. *)
Lemma decodeDocument_flat text kvs :
  parseFlat text = Some kvs → decodeDocument text = Ok (storeOf kvs).
Proof.
  unfold parseFlat. intros Hp.
  destruct (skipSpace text) as [|c s] eqn:Htext; [done|].
  destruct (Ascii.eqb_spec c "{") as [->|]; [|done].
  destruct (skipSpace s) as [|c' s'] eqn:Hs; [done|].
  pose proof (skipSpace_cons_length _ _ _ Htext) as Hl.
  unfold decodeDocument, NewDecoder.
  unfold bind at 1. unfold wrap at 1.
  rewrite (Token_open _ _ _ _ Htext) by done. cbn [app].
  destruct (Ascii.eqb_spec c' "}") as [->|Hc'].
  - injection Hp as <-. unfold bind at 1. rewrite readLoop_eq.
    unfold bind at 1. rewrite (More_at _ _ _ _ _ Hs).
    cbn [Ascii.eqb Bool.eqb negb andb ret].
    unfold bind at 1. unfold wrap at 1.
    assert (skipSpace ("}"%char :: s') = "}"%char :: s') as Hc by done.
    by rewrite (Token_close _ _ _ tokenTopValue [] Hc) by (done || by left).
  - destruct (readLoop_members _ _ _ Hp (S (length text))
                (mkDecoder s tokenObjectStart [tokenTopValue]) NewOrderedMap)
      as [rest Hloop].
    + cbn [buf]. lia.
    + left. split; [done|exact Hs].
    + unfold bind at 1. rewrite Hloop.
      unfold bind at 1. unfold wrap at 1. cbn [tokenStack].
      assert (skipSpace ("}"%char :: rest) = "}"%char :: rest) as Hc by done.
      by rewrite (Token_close _ _ _ tokenTopValue [] Hc) by (done || by right).
Qed.

Lemma readJSONFile_flat filename text kvs w :
  files (fs w) !! filename = Some text → filename ∉ denied (fs w) →
  parseFlat text = Some kvs →
  readJSONFile filename w = (Ok (storeOf kvs), w).
Proof.
  intros Hfile Hdenied Hp. unfold readJSONFile, os_Open.
  unfold bind. rewrite bool_decide_false by done. rewrite Hfile.
  unfold lift. by rewrite (decodeDocument_flat _ _ Hp).
Qed.

(** ** writeJSONFile: the text it writes *)

Lemma find_prefix_char (c : ascii) (s : gostring) :
  ¬ spaceByte c → find (HasPrefix (c :: s)) spaces = None.
Proof.
  intros Hc. apply find_prefix_None. intros w Hw.
  destruct (HasPrefix (c :: s) w) eqn:E; [|done]. exfalso. apply Hc.
  apply HasPrefix_spec in E as [r E].
  pose proof (spaces_nonempty _ Hw) as Hl.
  destruct w as [|c' w]; [simpl in Hl; lia|]. injection E as -> _.
  unfold spaceByte. apply list_elem_of_In, in_concat. exists (c' :: w).
  split; [by apply list_elem_of_In|by left].
Qed.

Lemma HasSuffix_spec (s p : gostring) : HasSuffix s p = true ↔ ∃ r, s = r ++ p.
Proof.
  unfold HasSuffix. rewrite HasPrefix_spec. split.
  - intros [r E]. exists (reverse r). apply (inj reverse).
    by rewrite reverse_app, reverse_involutive.
  - intros [r ->]. exists (reverse r). by rewrite reverse_app.
Qed.

Lemma find_suffix_char (c : ascii) (s : gostring) :
  ¬ spaceByte c → find (HasSuffix (s ++ [c])) spaces = None.
Proof.
  intros Hc. apply find_suffix_None. intros w Hw.
  destruct (HasSuffix (s ++ [c]) w) eqn:E; [|done]. exfalso. apply Hc.
  apply HasSuffix_spec in E as [r E].
  pose proof (spaces_nonempty _ Hw) as Hl.
  destruct (decide (w = [])) as [->|Hne]; [simpl in Hl; lia|].
  destruct (exists_last Hne) as (w' & c' & ->).
  rewrite app_assoc in E. apply app_inj_tail in E as [_ ->].
  unfold spaceByte. apply list_elem_of_In, in_concat. exists (w' ++ [c']).
  split; [by apply list_elem_of_In|]. apply in_app_iff. right. by left.
Qed.

Lemma not_spaceByte_dquote : ¬ spaceByte dquote.
Proof.
  unfold spaceByte. intros H. apply list_elem_of_In in H. vm_compute in H.
  repeat (destruct H as [H|H]; [discriminate H|]). done.
Qed.

Lemma spaces_last_newline (w : gostring) :
  w ∈ spaces → last w = Some "010"%char → w = newline.
Proof.
  intros Hw. apply list_elem_of_In in Hw. vm_compute in Hw.
  repeat (destruct Hw as [<-|Hw]; [by vm_compute|]). done.
Qed.

(** [bytes.TrimSpace] takes the newline [Encode] appends, nothing else. *)
Lemma TrimSpace_Encode (v : gostring) : TrimSpace (Encode v false) = quoteJSON v.
Proof.
  unfold TrimSpace, Encode, quoteJSON, quoted.
  rewrite trimLeft_done by (apply find_prefix_char, not_spaceByte_dquote).
  set (body := appendString (length v) v false).
  rewrite (app_assoc body), app_comm_cons. set (q := dquote :: body ++ [dquote]).
  rewrite length_app. cbn [length newline]. rewrite Nat.add_1_r. cbn [trimRight].
  destruct (find (HasSuffix (q ++ newline)) spaces) as [w|] eqn:E.
  - apply find_suffix_Some in E as [Hw [r E]].
    assert (w = newline) as ->.
    { apply spaces_last_newline; [done|].
      pose proof (spaces_nonempty _ Hw) as Hl.
      destruct (decide (w = [])) as [->|Hne]; [simpl in Hl; lia|].
      destruct (exists_last Hne) as (w' & c' & ->).
      rewrite app_assoc in E. apply app_inj_tail in E as [_ <-].
      by rewrite last_snoc. }
    rewrite length_app. cbn [length newline].
    replace (length q + 1 - 1) with (length q) by lia. rewrite take_app_length.
    apply trimRight_done. unfold q. rewrite app_comm_cons.
    apply find_suffix_char, not_spaceByte_dquote.
  - exfalso. rewrite find_suffix_None in E.
    specialize (E newline). rewrite (proj2 (HasSuffix_spec _ _)) in E by by exists q.
    by assert (false = true) by (symmetry; apply E; vm_compute; set_solver).
Qed.

Lemma encodeJSON_quote (v : gostring) : encodeJSON v = Ok (quoteJSON v).
Proof. unfold encodeJSON. by rewrite TrimSpace_Encode. Qed.

Lemma writeEntries_lines data n ks :
  ∀ i, i + length ks = n →
  writeEntries data n i ks
  = Ok (memberLines ((λ k, (k, (OrderedMap_Get data k).1)) <$> ks)).
Proof.
  induction ks as [|k ks IH]; intros i Hn; [done|].
  cbn [writeEntries fmap list_fmap memberLines fst snd].
  rewrite !encodeJSON_quote. rewrite (IH (S i)) by (simpl in Hn; lia).
  do 4 f_equal. destruct ks as [|k' ks].
  - simpl in Hn. rewrite bool_decide_false by lia. done.
  - simpl in Hn. rewrite bool_decide_true by lia. done.
Qed.

(** The text [writeJSONFile] writes is the document of the entries of the
    store, for every store. *)
Lemma renderJSON_document om : renderJSON om = Ok (document (entries om)).
Proof. unfold renderJSON. by rewrite (writeEntries_lines _ _ _ 0). Qed.

Lemma entries_storeOf_zip (ks vs : list gostring) :
  NoDup ks → length ks = length vs → entries (storeOf (zip ks vs)) = zip ks vs.
Proof.
  intros Hnd Hlen. unfold entries, storeOf.
  rewrite storeAll_keys;
    [|apply store_ok_New|done|intros k _ Hk; inversion Hk|lia].
  cbn [keys NewOrderedMap app]. apply list_eq. intros j.
  rewrite list_lookup_fmap, lookup_zip_with.
  destruct (ks !! j) as [k|] eqn:Ek; [|done].
  destruct (lookup_lt_is_Some_2 vs j) as [v Ev].
  { rewrite <- Hlen. by eapply lookup_lt_Some. }
  rewrite Ev. cbn [fmap option_fmap option_map mbind option_bind].
  unfold OrderedMap_Get. cbn [fst].
  by rewrite (storeAll_lookup _ _ _ j k v).
Qed.

Lemma entries_storeOf (kvs : list (gostring * gostring)) :
  NoDup kvs.*1 → entries (storeOf kvs) = kvs.
Proof.
  intros Hnd. rewrite <- (zip_fst_snd kvs) at 1.
  rewrite entries_storeOf_zip; [apply zip_fst_snd|done|by rewrite !length_fmap].
Qed.

(** Without HTML escaping every printable ASCII character but the quote
    and the backslash is written as it is, the angle brackets and the
    ampersand among them. *)
Lemma appendString_safe fuel (s : gostring) :
  Forall (λ c, safeSet c = true) s → length s ≤ fuel →
  appendString fuel s false = s.
Proof.
  revert fuel. induction s as [|c s IH]; intros fuel Hs Hfuel; [by destruct fuel|].
  destruct fuel as [|fuel]; [simpl in Hfuel; lia|].
  apply Forall_cons in Hs as [Hc Hs]. cbn [appendString].
  assert ((N_of_ascii c <? 128)%N = true) as ->.
  { unfold safeSet in Hc. by destruct (N_of_ascii c <? 128)%N; destruct (32 <=? _)%N. }
  rewrite Hc, orb_true_r. cbn [app negb andb]. rewrite IH; [done..|simpl in Hfuel; lia].
Qed.

Lemma quoteJSON_safe (s : gostring) :
  Forall (λ c, safeSet c = true) s → quoteJSON s = quoted s.
Proof. intros Hs. unfold quoteJSON. by rewrite appendString_safe. Qed.

(** ** UTF-8: a rune that was encoded is decoded as a whole *)

Local Open Scope N_scope.

(** Bit operations on fields that do not overlap, as arithmetic. *)
Lemma lor_low (c x k m : N) : c = x * 2 ^ k → m < 2 ^ k → N.lor c m = c + m.
Proof.
  intros -> Hm. rewrite <- N.lxor_lor, <- N.add_nocarry_lxor; [done|..];
    apply N.bits_inj; intros n; rewrite N.land_spec, N.bits_0;
    rewrite <- N.shiftl_mul_pow2;
    (destruct (N.lt_ge_cases n k) as [Hn|Hn];
     [by rewrite N.shiftl_spec_low|
      rewrite <- (N.mod_small m (2 ^ k)) by done;
      by rewrite N.mod_pow2_bits_high, andb_false_r]).
Qed.

Lemma land_low (c x k m mask : N) :
  mask = N.ones k → c = x * 2 ^ k → m < 2 ^ k → N.land (c + m) mask = m.
Proof.
  intros -> -> Hm. rewrite N.land_ones, N.add_comm, N.Div0.mod_add.
  by apply N.mod_small.
Qed.

(** The low six bits of a number and the rest. *)
Lemma split6 (r : N) :
  ∃ q m, r = 64 * q + m ∧ m < 64 ∧ N.shiftr r 6 = q ∧ N.land r 63 = m.
Proof.
  exists (r / 64), (r mod 64). split_and!.
  - apply N.div_mod. done.
  - by apply N.mod_lt.
  - by rewrite N.shiftr_div_pow2.
  - change 63 with (N.ones 6). by rewrite N.land_ones.
Qed.

Lemma N_of_byte (n : N) : n < 256 → N_of_ascii (byte n) = n.
Proof. apply N_ascii_embedding. Qed.

Local Ltac decide_cond :=
  repeat match goal with
  | |- context [(?a <? ?b)] =>
      first [rewrite (proj2 (N.ltb_lt a b)) by lia | rewrite (proj2 (N.ltb_ge a b)) by lia]
  | |- context [(?a <=? ?b)] =>
      first [rewrite (proj2 (N.leb_le a b)) by lia | rewrite (proj2 (N.leb_gt a b)) by lia]
  | |- context [(?a =? ?b)] =>
      first [rewrite (proj2 (N.eqb_eq a b)) by lia | rewrite (proj2 (N.eqb_neq a b)) by lia]
  end.

Lemma acceptRange_2 b0 : 0xC2 ≤ b0 ≤ 0xDF → acceptRange b0 = Some (2%nat, 0x80, 0xBF).
Proof. intros H. unfold acceptRange. by decide_cond. Qed.

Lemma acceptRange_3 b0 :
  0xE0 ≤ b0 ≤ 0xEF →
  acceptRange b0 = Some (3%nat, if b0 =? 0xE0 then 0xA0 else 0x80,
                                if b0 =? 0xED then 0x9F else 0xBF).
Proof.
  intros H. unfold acceptRange.
  destruct (N.eqb_spec b0 0xE0) as [->|]; [done|].
  destruct (N.eqb_spec b0 0xED) as [->|]; [done|].
  by decide_cond.
Qed.

Lemma acceptRange_4 b0 :
  0xF0 ≤ b0 ≤ 0xF4 →
  acceptRange b0 = Some (4%nat, if b0 =? 0xF0 then 0x90 else 0x80,
                                if b0 =? 0xF4 then 0x8F else 0xBF).
Proof.
  intros H. unfold acceptRange.
  destruct (N.eqb_spec b0 0xF0) as [->|]; [done|].
  destruct (N.eqb_spec b0 0xF4) as [->|]; [done|].
  by decide_cond.
Qed.

Lemma DecodeRune_1 (r : N) (t : gostring) : r < 0x80 → DecodeRune (byte r :: t) = (r, 1%nat).
Proof.
  intros Hr. unfold DecodeRune. rewrite N_of_byte by lia. by decide_cond.
Qed.

Lemma DecodeRune_2 (q m : N) (t : gostring) :
  2 ≤ q < 32 → m < 64 →
  DecodeRune (byte (0xC0 + q) :: byte (0x80 + m) :: t) = (64 * q + m, 2%nat).
Proof.
  intros Hq Hm. unfold DecodeRune. rewrite !N_of_byte by lia.
  rewrite acceptRange_2 by lia. unfold outside. decide_cond.
  cbn [orb]. rewrite bool_decide_true by done.
  rewrite (land_low 0xC0 6 5 q) by (done || lia).
  rewrite (land_low 0x80 2 6 m) by (done || lia).
  rewrite N.shiftl_mul_pow2. rewrite (lor_low _ q 6) by (done || lia).
  f_equal. lia.
Qed.

Lemma DecodeRune_3 (q m1 m2 : N) (t : gostring) :
  q < 16 → m1 < 64 → m2 < 64 →
  (q = 0 → 32 ≤ m1) → (q = 13 → m1 < 32) →
  DecodeRune (byte (0xE0 + q) :: byte (0x80 + m1) :: byte (0x80 + m2) :: t)
  = (4096 * q + 64 * m1 + m2, 3%nat).
Proof.
  intros Hq Hm1 Hm2 Hlo Hhi. unfold DecodeRune. rewrite !N_of_byte by lia.
  rewrite acceptRange_3 by lia. unfold outside.
  destruct (N.eqb_spec (0xE0 + q) 0xE0); destruct (N.eqb_spec (0xE0 + q) 0xED);
    try lia; decide_cond; cbn [orb]; rewrite bool_decide_false by done;
    rewrite bool_decide_true by done;
    rewrite (land_low 0xE0 14 4 q) by (done || lia);
    rewrite (land_low 0x80 2 6 m1) by (done || lia);
    rewrite (land_low 0x80 2 6 m2) by (done || lia);
    rewrite !N.shiftl_mul_pow2;
    rewrite (lor_low _ m1 6 m2) by (done || lia);
    rewrite (lor_low _ q 12) by (done || change (2 ^ 12) with 4096; change (2 ^ 6) with 64; lia);
    f_equal; lia.
Qed.

Lemma DecodeRune_4 (q m1 m2 m3 : N) (t : gostring) :
  q < 5 → m1 < 64 → m2 < 64 → m3 < 64 →
  (q = 0 → 16 ≤ m1) → (q = 4 → m1 < 16) →
  DecodeRune (byte (0xF0 + q) :: byte (0x80 + m1) :: byte (0x80 + m2)
              :: byte (0x80 + m3) :: t)
  = (262144 * q + 4096 * m1 + 64 * m2 + m3, 4%nat).
Proof.
  intros Hq Hm1 Hm2 Hm3 Hlo Hhi. unfold DecodeRune. rewrite !N_of_byte by lia.
  rewrite acceptRange_4 by lia. unfold outside.
  destruct (N.eqb_spec (0xF0 + q) 0xF0); destruct (N.eqb_spec (0xF0 + q) 0xF4);
    try lia; decide_cond; cbn [orb]; rewrite !bool_decide_false by done;
    rewrite (land_low 0xF0 30 3 q) by (done || lia);
    rewrite (land_low 0x80 2 6 m1) by (done || lia);
    rewrite (land_low 0x80 2 6 m2) by (done || lia);
    rewrite (land_low 0x80 2 6 m3) by (done || lia);
    rewrite !N.shiftl_mul_pow2;
    change (2 ^ 18) with 262144; change (2 ^ 12) with 4096; change (2 ^ 6) with 64;
    rewrite (lor_low (m2 * 64) m2 6 m3) by (done || lia);
    rewrite (lor_low (m1 * 4096) m1 12) by (done || change (2 ^ 12) with 4096; lia);
    rewrite (lor_low (q * 262144) q 18) by (done || change (2 ^ 18) with 262144; lia);
    f_equal; lia.
Qed.

(** The encodings of the runes, by their length. *)
Lemma EncodeRune_cases (r : N) :
  (r < 0x80 ∧ EncodeRune r = [byte r])
  ∨ (∃ q m, r = 64 * q + m ∧ 2 ≤ q < 32 ∧ m < 64
            ∧ EncodeRune r = [byte (0xC0 + q); byte (0x80 + m)])
  ∨ (∃ q m1 m2, r = 4096 * q + 64 * m1 + m2 ∧ q < 16 ∧ m1 < 64 ∧ m2 < 64
                ∧ (q = 0 → 32 ≤ m1) ∧ (q = 13 → m1 < 32)
                ∧ EncodeRune r = [byte (0xE0 + q); byte (0x80 + m1); byte (0x80 + m2)])
  ∨ (∃ q m1 m2 m3, r = 262144 * q + 4096 * m1 + 64 * m2 + m3
                   ∧ q < 5 ∧ m1 < 64 ∧ m2 < 64 ∧ m3 < 64
                   ∧ (q = 0 → 16 ≤ m1) ∧ (q = 4 → m1 < 16)
                   ∧ EncodeRune r = [byte (0xF0 + q); byte (0x80 + m1);
                                     byte (0x80 + m2); byte (0x80 + m3)])
  ∨ (0x7FF < r ∧ EncodeRune r = EncodeRune RuneError).
Proof.
  destruct (split6 r) as (r1 & m3 & Hr & Hm3 & Hs1 & Hl1).
  destruct (split6 r1) as (r2 & m2 & Hr1 & Hm2 & Hs2 & Hl2).
  destruct (split6 r2) as (r3 & m1 & Hr2 & Hm1 & Hs3 & Hl3).
  assert (N.shiftr r 12 = r2) as Hs12.
  { change 12 with (6 + 6). by rewrite <- N.shiftr_shiftr, Hs1. }
  assert (N.shiftr r 18 = r3) as Hs18.
  { change 18 with (12 + 6). by rewrite <- N.shiftr_shiftr, Hs12. }
  unfold EncodeRune. rewrite Hs1, Hs12, Hs18, Hl1, Hl2, Hl3.
  destruct (N.leb_spec r 0x7F); [left; split; [lia|done]|].
  destruct (N.leb_spec r 0x7FF).
  { right; left. exists r1, m3. split_and!; [done|lia..|].
    rewrite (lor_low 0xC0 3 6 r1) by (done || change (2 ^ 6) with 64; lia).
    by rewrite (lor_low 0x80 2 6 m3). }
  destruct ((0x10FFFF <? r) || (0xD800 <=? r) && (r <=? 0xDFFF)) eqn:Hinv.
  { do 4 right. split; [lia|]. done. }
  apply orb_false_iff in Hinv as [Hmax Hsur]. apply N.ltb_ge in Hmax.
  assert (r < 0xD800 ∨ 0xDFFF < r) as Hsur'.
  { apply andb_false_iff in Hsur as [H1%N.leb_gt|H1%N.leb_gt]; lia. }
  destruct (N.leb_spec r 0xFFFF).
  { do 2 right; left. exists r2, m2, m3. split_and!; [lia..|].
    rewrite (lor_low 0xE0 14 4 r2) by (done || change (2 ^ 4) with 16; lia).
    by rewrite (lor_low 0x80 2 6 m2), (lor_low 0x80 2 6 m3). }
  do 3 right; left. exists r3, m1, m2, m3. split_and!; [lia..|].
  rewrite (lor_low 0xF0 30 3 r3) by (done || change (2 ^ 3) with 8; lia).
  by rewrite (lor_low 0x80 2 6 m1), (lor_low 0x80 2 6 m2), (lor_low 0x80 2 6 m3).
Qed.

(** Decoding what [EncodeRune] wrote takes all of it and gives a rune with
    the same encoding: the rune itself, or [RuneError] for a number that is
    no rune. *)
Lemma DecodeRune_EncodeRune (r : N) (t : gostring) :
  ∃ r', DecodeRune (EncodeRune r ++ t) = (r', length (EncodeRune r))
        ∧ EncodeRune r' = EncodeRune r
        ∧ (r' < 0x80 ↔ length (EncodeRune r) = 1%nat)
        ∧ (0 < length (EncodeRune r))%nat.
Proof.
  destruct (EncodeRune_cases r)
    as [[Hlt He]|[(q & m & Hq & ? & ? & He)|[(q & m1 & m2 & Hq & ? & ? & ? & ? & ? & He)
       |[(q & m1 & m2 & m3 & Hq & ? & ? & ? & ? & ? & ? & He)|[Hgt Hinv]]]]].
  - exists r. rewrite He. cbn [app length]. rewrite DecodeRune_1 by done. 
    split_and!; [done..|lia].
  - exists r. rewrite He. cbn [app length]. rewrite DecodeRune_2, <- Hq by done.
    split_and!; [done..|split; [lia|done]|lia].
  - exists r. rewrite He. cbn [app length]. rewrite DecodeRune_3, <- Hq by done.
    split_and!; [done..|split; [lia|done]|lia].
  - exists r. rewrite He. cbn [app length]. rewrite DecodeRune_4, <- Hq by done.
    split_and!; [done..|split; [lia|done]|lia].
  - exists RuneError. rewrite Hinv. split_and!; [by vm_compute|done| |vm_compute; lia].
    split; [unfold RuneError; lia|by vm_compute].
Qed.

Local Close Scope N_scope.


(** ** Reading back what the encoder wrote *)

Lemma first_byte (r : N) (t : gostring) :
  ∃ c bs, EncodeRune r = c :: bs
          ∧ ((N_of_ascii c < 0x80)%N ↔ length (EncodeRune r) = 1).
Proof.
  destruct (DecodeRune_EncodeRune r t) as (r' & Hdec & _ & Hlt & Hpos).
  destruct (EncodeRune r) as [|c bs] eqn:He; [simpl in Hpos; lia|].
  exists c, bs. split; [done|]. rewrite <- Hlt.
  cbn [app] in Hdec. unfold DecodeRune in Hdec.
  destruct (N.ltb_spec (N_of_ascii c) 128) as [Hc|Hc].
  - injection Hdec as <- Hlen. done.
  - split; [lia|]. intros Hr'. exfalso. apply Hlt in Hr' as Hlen.
    rewrite Hlen in Hdec.
    repeat match type of Hdec with
    | context [match ?x with _ => _ end] => destruct x
    end; injection Hdec as <-; try discriminate; unfold RuneError in *; lia.
Qed.

Lemma ascii_not_special (c : ascii) :
  (0x80 ≤ N_of_ascii c)%N → Ascii.eqb c dquote = false ∧ Ascii.eqb c backslash = false.
Proof.
  intros Hc. split; apply Ascii.eqb_neq; intros ->; vm_compute in Hc; by apply Hc.
Qed.

Lemma scan_literal fuel (c : ascii) (X : gostring) :
  safeSet c = true → scanString (S fuel) (c :: X) = scanMore [c] (scanString fuel X).
Proof.
  unfold safeSet. intros Hc. apply andb_true_iff in Hc as [Hc Hb].
  apply andb_true_iff in Hc as [Hc Hq]. apply andb_true_iff in Hc as [Hlo Hhi].
  cbn [scanString]. apply negb_true_iff in Hb, Hq. rewrite Hb, Hq, Hhi.
  apply N.leb_le in Hlo. by rewrite (proj2 (N.ltb_ge _ _)) by done.
Qed.

Lemma scan_escape fuel (c : ascii) (X : gostring) :
  (N_of_ascii c <? 0x80)%N = true → safeSet c = false →
  scanString (S fuel) (escapeByte c ++ X) = scanMore [c] (scanString fuel X).
Proof.
  intros Hc Hs.
  destruct c as [[] [] [] [] [] [] [] []]; try discriminate Hc; try discriminate Hs;
    reflexivity.
Qed.

Lemma scan_rune fuel (r : N) (X : gostring) :
  length (EncodeRune r) ≠ 1 →
  scanString (S fuel) (EncodeRune r ++ X)
  = scanMore (EncodeRune r) (scanString fuel X).
Proof.
  intros Hlen.
  destruct (DecodeRune_EncodeRune r X) as (r' & Hdec & Henc & _ & _).
  destruct (first_byte r X) as (c & bs & He & Hc).
  assert (0x80 ≤ N_of_ascii c)%N as Hc' by (apply N.le_ngt; tauto).
  destruct (ascii_not_special c Hc') as [Hq Hb].
  rewrite He in *. cbn [app scanString]. rewrite Hq, Hb.
  rewrite !(proj2 (N.ltb_ge _ _)) by lia.
  cbn [app] in Hdec. rewrite Hdec, Henc.
  change (c :: bs ++ X) with ((c :: bs) ++ X). by rewrite drop_app_length.
Qed.

Lemma scan_separator fuel (r : N) (X : gostring) :
  r = 0x2028%N ∨ r = 0x2029%N →
  scanString (S fuel) (backslash :: "u202" ++ [hexDigit (N.land r 0xF)] ++ X)
  = scanMore (EncodeRune r) (scanString fuel X).
Proof. by intros [-> | ->]. Qed.

Lemma append_ascii n (c : ascii) (s : gostring) :
  (N_of_ascii c <? 0x80)%N = true →
  appendString (S n) (c :: s) false
  = (if safeSet c then [c] else escapeByte c) ++ appendString n s false.
Proof.
  intros Hc. cbn [appendString]. rewrite Hc. cbn [negb andb].
  unfold htmlSafeSet. destruct (safeSet c); [by rewrite orb_true_r|done].
Qed.

Lemma append_rune n (r : N) (s : gostring) :
  length (EncodeRune r) ≠ 1 →
  ∃ r', EncodeRune r' = EncodeRune r
        ∧ appendString (S n) (EncodeRune r ++ s) false
          = (if bool_decide (r' = 0x2028%N ∨ r' = 0x2029%N)
             then backslash :: "u202" ++ [hexDigit (N.land r' 0xF)]
             else EncodeRune r) ++ appendString n s false.
Proof.
  intros Hlen.
  destruct (DecodeRune_EncodeRune r s) as (r' & Hdec & Henc & _ & _).
  destruct (first_byte r s) as (c & bs & He & Hc).
  assert (0x80 ≤ N_of_ascii c)%N as Hc' by (apply N.le_ngt; tauto).
  exists r'. split; [done|]. rewrite He in *. cbn [app appendString].
  rewrite (proj2 (N.ltb_ge _ _)) by lia.
  cbn [app] in Hdec. rewrite Hdec.
  rewrite bool_decide_false by (intros [_ ?]; by apply Hlen).
  change (c :: bs ++ s) with ((c :: bs) ++ s).
  rewrite drop_app_length, take_app_length.
  destruct (bool_decide _); reflexivity.
Qed.

Lemma scanMore_Some out fuel X str rest :
  scanString fuel X = Some (str, rest) →
  scanMore out (scanString fuel X) = Some (out ++ str, rest).
Proof. by intros ->. Qed.

(** A string literal the encoder wrote is read back as the string it was
    written for. *)
Lemma scanString_appendString (s : gostring) :
  encoded s → ∀ n fuel rest,
  length s ≤ n → length (appendString n s false) < fuel →
  scanString fuel (appendString n s false ++ dquote :: rest) = Some (s, rest).
Proof.
  induction 1 as [|r s Hs IH]; intros n fuel rest Hn Hfuel.
  { replace (appendString n [] false) with ([] : gostring) in * by by destruct n.
    destruct fuel as [|fuel]; [simpl in Hfuel; lia|]. done. }
  destruct (first_byte r s) as (c & bs & He & Hc).
  rewrite length_app in Hn.
  destruct n as [|n]; [rewrite He in Hn; simpl in Hn; lia|].
  destruct fuel as [|fuel]; [lia|].
  destruct (N.ltb_spec (N_of_ascii c) 128) as [Hlt|Hge].
  - (* an ASCII character, written as it is or escaped *)
    assert (bs = []) as ->.
    { apply Hc in Hlt. rewrite He in Hlt. by destruct bs. }
    rewrite He in *. cbn [app length] in *.
    rewrite append_ascii in * by by apply N.ltb_lt.
    rewrite length_app in Hfuel. rewrite <- app_assoc.
    destruct (safeSet c) eqn:Hsafe.
    + cbn [app]. rewrite scan_literal by done. apply (scanMore_Some [c]), IH; [lia|].
      simpl in Hfuel. lia.
    + rewrite scan_escape by (done || by apply N.ltb_lt).
      apply (scanMore_Some [c]), IH; [lia|].
      assert (0 < length (escapeByte c)); [|lia].
      unfold escapeByte. by repeat (destruct (_ || _) || destruct (Ascii.eqb _ _)); simpl; lia.
  - (* a longer rune, written as it is or as a line or paragraph separator *)
    assert (length (EncodeRune r) ≠ 1) as Hlen by (rewrite <- Hc; lia).
    assert (0 < length (EncodeRune r)) as Hpos by (rewrite He; simpl; lia).
    destruct (append_rune n r s Hlen) as (r' & Henc & Happ).
    rewrite Happ in *. rewrite length_app in Hfuel. rewrite <- app_assoc.
    destruct (bool_decide (r' = 0x2028%N ∨ r' = 0x2029%N)) eqn:Hsep.
    + apply bool_decide_eq_true in Hsep.
      change ((backslash :: "u202" ++ [hexDigit (N.land r' 15)])
              ++ appendString n s false ++ dquote :: rest)
        with (backslash :: "u202" ++ [hexDigit (N.land r' 15)]
              ++ appendString n s false ++ dquote :: rest).
      rewrite scan_separator by done. rewrite Henc.
      apply scanMore_Some, IH; [lia|]. simpl in Hfuel. lia.
    + rewrite scan_rune by done. apply scanMore_Some, IH; lia.
Qed.

Lemma encoded_ascii (c : ascii) (s : gostring) :
  (N_of_ascii c < 0x80)%N → encoded s → encoded (c :: s).
Proof.
  intros Hc Hs. replace (c :: s) with (EncodeRune (N_of_ascii c) ++ s).
  { by constructor. }
  unfold EncodeRune. rewrite (proj2 (N.leb_le _ _)) by lia.
  unfold byte. by rewrite ascii_N_embedding.
Qed.

(** Whatever [scanString] reads is text in UTF-8. *)
Lemma scanString_encoded fuel :
  ∀ s str rest, scanString fuel s = Some (str, rest) → encoded str.
Proof.
  induction fuel as [|fuel IH]; intros s str rest; [done|].
  destruct s as [|c s]; [done|]. cbn [scanString].
  assert (∀ out r, encoded out ∨ (∃ x, out = EncodeRune x) ∨
                   (∃ a, out = [a] ∧ (N_of_ascii a < 0x80)%N) →
            (match scanString fuel r with
             | Some (str0, rest') => Some (out ++ str0, rest')
             | None => None
             end) = Some (str, rest) → encoded str) as Hmore.
  { intros out r Hout H. destruct (scanString fuel r) as [[str0 rest']|] eqn:E; [|done].
    injection H as <- _. apply IH in E.
    destruct Hout as [Hout|[[x ->]|(a & -> & Ha)]].
    - induction Hout; [done|]. rewrite <- app_assoc. by constructor.
    - by constructor.
    - by apply encoded_ascii. }
  destruct (Ascii.eqb c dquote); [intros [= <- _]; constructor|].
  destruct (Ascii.eqb c backslash).
  - destruct s as [|e s]; [done|].
    destruct (Ascii.eqb e "u").
    + destruct (getu4 s) as [[rr s3]|]; [|done].
      destruct (_ && _)%bool.
      * destruct s3 as [|b1 [|u1 s4]]; try (apply Hmore; right; left; by eexists).
        destruct (if (Ascii.eqb b1 backslash && Ascii.eqb u1 "u")%bool
                  then getu4 s4 else None) as [[rr1 s5]|];
          [destruct (bool_decide _)|]; apply Hmore; right; left; by eexists.
      * apply Hmore; right; left; by eexists.
    + destruct (simpleEscape e) as [ch|] eqn:Ee; [|done].
      apply Hmore. right; right. exists ch. split; [done|].
      unfold simpleEscape in Ee.
      repeat match type of Ee with
      | context [match ?x with _ => _ end] => destruct x
      end; try discriminate Ee; injection Ee as <-; by vm_compute.
  - destruct (_ <? _)%N; [done|]. destruct (N.ltb_spec (N_of_ascii c) 128).
    + apply Hmore. right; right. by exists c.
    + destruct (DecodeRune (c :: s)) as [rr size]. apply Hmore. right; left. by eexists.
Qed.

(** ** Reading the document that was written *)

Lemma scan_quoteJSON (s rest : gostring) :
  encoded s →
  ∃ s1, quoteJSON s ++ rest = dquote :: s1
        ∧ scanString (S (length s1)) s1 = Some (s, rest).
Proof.
  intros Hs. exists (appendString (length s) s false ++ dquote :: rest). split.
  - unfold quoteJSON, quoted. cbn [app]. by rewrite <- app_assoc.
  - apply scanString_appendString; [done|done|]. rewrite length_app. simpl. lia.
Qed.

Lemma memberLines_length (kvs : list (gostring * gostring)) :
  length kvs ≤ length (memberLines kvs).
Proof.
  induction kvs as [|kv kvs IH]; [done|]. cbn [memberLines length].
  rewrite !length_app. simpl. lia.
Qed.

Lemma parseMembers_lines (kvs : list (gostring * gostring)) :
  ∀ fuel tail, kvs ≠ [] → length kvs ≤ fuel →
  Forall (λ kv, encoded kv.1 ∧ encoded kv.2) kvs →
  parseMembers fuel (skipSpace (memberLines kvs ++ "}" ++ tail)) = Some kvs.
Proof.
  induction kvs as [|[k v] kvs IH]; intros fuel tail Hne Hfuel Henc; [done|].
  apply Forall_cons in Henc as [[Hk Hv] Henc]. cbn [fst snd] in Hk, Hv.
  destruct fuel as [|fuel]; [simpl in Hfuel; lia|].
  cbn [memberLines fst snd]. rewrite <- !app_assoc.
  destruct (scan_quoteJSON k (": " ++ quoteJSON v
              ++ (if bool_decide (kvs = []) then [] else ",") ++ newline
              ++ memberLines kvs ++ "}" ++ tail) Hk) as (s1 & -> & Hs1).
  change (skipSpace ("  " ++ dquote :: s1)) with (dquote :: s1).
  cbn [parseMembers]. change (Ascii.eqb dquote dquote) with true. cbn iota.
  destruct (scan_quoteJSON v ((if bool_decide (kvs = []) then [] else ",") ++ newline
              ++ memberLines kvs ++ "}" ++ tail) Hv) as (s2 & Hq2 & Hs2).
  rewrite Hs1, Hq2.
  change (skipSpace (": " ++ dquote :: s2)) with (":"%char :: " "%char :: dquote :: s2).
  cbn iota. change (Ascii.eqb ":" ":") with true. cbn iota.
  change (skipSpace (" "%char :: dquote :: s2)) with (dquote :: s2).
  cbn iota. change (Ascii.eqb dquote dquote) with true. cbn iota.
  rewrite Hs2. destruct kvs as [|kv' kvs].
  - rewrite bool_decide_true by done.
    change (skipSpace ([] ++ newline ++ memberLines [] ++ "}" ++ tail))
      with ("}"%char :: tail).
    done.
  - rewrite bool_decide_false by done.
    change (skipSpace ("," ++ newline ++ ?x)) with (","%char :: newline ++ x).
    cbn iota. change (Ascii.eqb "," ",") with true. cbn iota.
    change (skipSpace (newline ++ ?x)) with (skipSpace x).
    rewrite IH; [done|done| |done]. simpl in Hfuel. simpl. lia.
Qed.

(** The document [writeJSONFile] writes for a list of entries is a flat
    document with these entries. *)
Lemma parseFlat_document (kvs : list (gostring * gostring)) :
  Forall (λ kv, encoded kv.1 ∧ encoded kv.2) kvs →
  parseFlat (document kvs) = Some kvs.
Proof.
  intros Henc. unfold parseFlat, document.
  change (skipSpace ("{" ++ ?x)) with ("{"%char :: x).
  cbn iota. change (Ascii.eqb "{" "{") with true. cbn iota.
  destruct kvs as [|kv kvs]; [done|].
  change (skipSpace (newline ++ ?x)) with (skipSpace x).
  set (ms := memberLines (kv :: kvs)).
  assert (∃ s1, skipSpace (ms ++ "}" ++ newline) = dquote :: s1) as [s1 Hsk].
  { unfold ms. cbn [memberLines]. rewrite <- !app_assoc.
    apply Forall_cons in Henc as [[Hk _] _].
    destruct (scan_quoteJSON kv.1 (": " ++ quoteJSON kv.2
              ++ (if bool_decide (kvs = []) then [] else ",") ++ newline
              ++ memberLines kvs ++ "}" ++ newline) Hk) as (s1 & -> & _).
    by exists s1. }
  pose proof (parseMembers_lines (kv :: kvs)
                (length (newline ++ ms ++ "}" ++ newline)) newline) as Hp.
  fold ms in Hp. rewrite Hsk in *. change (Ascii.eqb dquote "}") with false. cbn iota.
  apply Hp; [done| |done].
  rewrite !length_app. pose proof (memberLines_length (kv :: kvs)). fold ms in H. lia.
Qed.

Lemma parseMembers_encoded fuel :
  ∀ s kvs, parseMembers fuel s = Some kvs →
  Forall (λ kv, encoded kv.1 ∧ encoded kv.2) kvs.
Proof.
  induction fuel as [|fuel IH]; intros s kvs Hp; [done|].
  destruct s as [|q s1]; [done|]. cbn [parseMembers] in Hp.
  destruct (Ascii.eqb q dquote); [|done].
  destruct (scanString (S (length s1)) s1) as [[key r1]|] eqn:Hkey; [|done].
  destruct (skipSpace r1) as [|c r2]; [done|].
  destruct (Ascii.eqb c ":"); [|done].
  destruct (skipSpace r2) as [|q' s2]; [done|].
  destruct (Ascii.eqb q' dquote); [|done].
  destruct (scanString (S (length s2)) s2) as [[value r3]|] eqn:Hvalue; [|done].
  apply scanString_encoded in Hkey, Hvalue.
  destruct (skipSpace r3) as [|d r4]; [done|].
  destruct (Ascii.eqb d ",").
  - destruct (parseMembers fuel (skipSpace r4)) as [kvs'|] eqn:Hrest; [|done].
    injection Hp as <-. apply Forall_cons. split; [done|]. by eapply IH.
  - destruct (Ascii.eqb d "}"); [|done]. injection Hp as <-.
    by apply Forall_cons.
Qed.

Lemma parseFlat_encoded text kvs :
  parseFlat text = Some kvs → Forall (λ kv, encoded kv.1 ∧ encoded kv.2) kvs.
Proof.
  unfold parseFlat. intros Hp.
  destruct (skipSpace text) as [|c s]; [done|].
  destruct (Ascii.eqb c "{"); [|done].
  destruct (skipSpace s) as [|c' s']; [done|].
  destruct (Ascii.eqb c' "}"); [by injection Hp as <-|].
  by eapply parseMembers_encoded.
Qed.

(** A contrast: with HTML escaping, which is what [json.Encoder] does
    unless told otherwise, the angle brackets and the ampersand are
    written as escapes. *)
Lemma appendString_escapeHTML :
  appendString 3 "<&>" true
  = backslash :: "u003c" ++ backslash :: "u0026" ++ backslash :: "u003e".
Proof. reflexivity. Qed.

Section RoundTrip.
Context `{Platform}.

Lemma writeJSONFile_document filename data w :
  filepath_Dir filename ∉ denied (fs w) → filename ∉ denied (fs w) →
  writeJSONFile filename data w
  = (Ok tt, withFile w filename (document (entries data))).
Proof.
  intros Hdir Hfile. unfold writeJSONFile, bind, wrap, os_MkdirAll, os_WriteFile, lift, ret.
  rewrite bool_decide_false by done. rewrite renderJSON_document.
  by rewrite bool_decide_false by done.
Qed.

(** C6, as amended.  Take a flat string-valued document (an object whose
    every value is a string literal) whose keys are pairwise distinct.
    [readJSONFile] reads it into a store whose entries are the members of
    the document, in the order of the text and with their values; for this
    store [writeJSONFile] writes the document with these members one per
    line, which read as a flat document has the same members again; and a
    value of printable ASCII characters other than the quote and the
    backslash, the angle brackets and the ampersand among them, is written
    between its quotes as it is. *)
Theorem decode_encode_roundtrip input output text kvs w :
  files (fs w) !! input = Some text → input ∉ denied (fs w) →
  filepath_Dir output ∉ denied (fs w) → output ∉ denied (fs w) →
  parseFlat text = Some kvs → NoDup kvs.*1 →
  ∃ store,
    readJSONFile input w = (Ok store, w)
    ∧ entries store = kvs
    ∧ writeJSONFile output store w = (Ok tt, withFile w output (document kvs))
    ∧ parseFlat (document kvs) = Some kvs
    ∧ (∀ kv, kv ∈ kvs → Forall (λ c, safeSet c = true) kv.2 →
             quoteJSON kv.2 = quoted kv.2)
    ∧ Forall (λ c, safeSet c = true) ("<>&" : gostring).
Proof.
  intros Hin Hdin Hdir Hdout Hp Hnd. exists (storeOf kvs).
  pose proof (entries_storeOf kvs Hnd) as He. split_and!.
  - by apply (readJSONFile_flat _ text).
  - done.
  - rewrite writeJSONFile_document by done. by rewrite He.
  - by apply parseFlat_document, (parseFlat_encoded text).
  - intros kv _. apply quoteJSON_safe.
  - by repeat constructor.
Qed.

End RoundTrip.

Lemma decode_encode_roundtrip_witness :
  ∃ store,
    readJSONFile "locales/en.json" (worldWith [("locales/en.json" : gostring, markupDocument)])
    = (Ok store, worldWith [("locales/en.json" : gostring, markupDocument)])
    ∧ entries store = markupMembers
    ∧ writeJSONFile (H := stubPlatform (constClient [])) "locales/fr.json" store
        (worldWith [("locales/en.json" : gostring, markupDocument)])
      = (Ok tt, withFile (worldWith [("locales/en.json" : gostring, markupDocument)])
                  "locales/fr.json" (document markupMembers))
    ∧ parseFlat (document markupMembers) = Some markupMembers
    ∧ (∀ kv, kv ∈ markupMembers → Forall (λ c, safeSet c = true) kv.2 →
             quoteJSON kv.2 = quoted kv.2)
    ∧ Forall (λ c, safeSet c = true) ("<>&" : gostring).
Proof.
  apply (decode_encode_roundtrip (H := stubPlatform (constClient []))
           "locales/en.json" "locales/fr.json" markupDocument markupMembers
           (worldWith [("locales/en.json" : gostring, markupDocument)])).
  - vm_compute. reflexivity.
  - vm_compute. intros Hin. discriminate Hin.
  - vm_compute. intros Hin. discriminate Hin.
  - vm_compute. intros Hin. discriminate Hin.
  - vm_compute. reflexivity.
  - apply (bool_decide_unpack _). vm_compute. exact I.
Defined.

(** The members of a document with a repeated key are not reproduced: the
    store keeps the key once, at its first position and with its last
    value, and this is what is written. *)
Lemma duplicate_keys_counterexample :
  parseFlat duplicateDocument
  = Some [("a" : gostring, "1" : gostring); ("a" : gostring, "2" : gostring)]
  ∧ ∃ store,
      (readJSONFile "locales/en.json"
         (worldWith [("locales/en.json" : gostring, duplicateDocument)])).1 = Ok store
      ∧ entries store = [("a" : gostring, "2" : gostring)]
      ∧ renderJSON store = Ok (document [("a" : gostring, "2" : gostring)])
      ∧ parseFlat (document [("a" : gostring, "2" : gostring)])
        ≠ parseFlat duplicateDocument.
Proof.
  split; [by vm_compute|].
  exists (storeOf [("a" : gostring, "1" : gostring); ("a" : gostring, "2" : gostring)]).
  split_and!; [by vm_compute..|]. vm_compute. discriminate.
Qed.


(** ** json.Decoder on an array of strings *)

Lemma Token_open_array b s st stk :
  skipSpace b = "["%char :: s → tokenValueAllowed st = true →
  Token_ (mkDecoder b st stk)
  = (Ok (Delim "["), mkDecoder s tokenArrayStart (stk ++ [st])).
Proof.
  intros Hb Hst. unfold Token_. rewrite Token_loop_eq.
  unfold bind at 1. rewrite (peek_at _ _ _ _ _ Hb).
  cbn. by rewrite Hst.
Qed.

Lemma Token_close_array b s st stk :
  skipSpace b = "]"%char :: s → st = tokenArrayStart ∨ st = tokenArrayComma →
  Token_ (mkDecoder b st (stk ++ [tokenTopValue]))
  = (Ok (Delim "]"), mkDecoder s tokenTopValue stk).
Proof.
  intros Hb Hst. unfold Token_. rewrite Token_loop_eq.
  unfold bind at 1. rewrite (peek_at _ _ _ _ _ Hb).
  cbn. rewrite bool_decide_true by done. cbn.
  unfold bind at 1. unfold popState. cbn [tokenStack]. rewrite last_snoc.
  rewrite length_app. cbn [length]. replace (length stk + 1 - 1) with (length stk) by lia.
  by rewrite take_app_length.
Qed.

(** A string where an item of an array may start: [Token] gives it as a
    value. *)
Lemma Token_item fuel b s1 str rest st stk :
  skipSpace b = dquote :: s1 → st = tokenArrayStart ∨ st = tokenArrayValue →
  scanString (S (length s1)) s1 = Some (str, rest) →
  Token_loop (S fuel) (mkDecoder b st stk)
  = (Ok (Value (JString str)), mkDecoder rest tokenArrayComma stk).
Proof.
  intros Hb Hst Hs. rewrite Token_loop_eq.
  unfold bind at 1. rewrite (peek_at _ _ _ _ _ Hb).
  unfold bind at 1. cbn [getState tokenState].
  change (Ascii.eqb dquote "[") with false. change (Ascii.eqb dquote "]") with false.
  change (Ascii.eqb dquote "{") with false. change (Ascii.eqb dquote "}") with false.
  change (Ascii.eqb dquote ":") with false. change (Ascii.eqb dquote ",") with false.
  change (Ascii.eqb dquote dquote) with true. cbn iota.
  rewrite bool_decide_false by (by destruct Hst as [-> | ->]; intros [|]).
  cbn [andb].
  assert (tokenValueAllowed st = true) as -> by by destruct Hst as [-> | ->].
  unfold Decode_any, tokenPrepareForDecode.
  assert (skipSpace (dquote :: s1) = dquote :: s1) as Hq by done.
  destruct Hst as [-> | ->];
    repeat (unfold bind at 1; cbn [getState tokenState ret tokenValueAllowed negb]);
    rewrite (readValue_string _ _ _ _ _ _ Hq Hs); done.
Qed.

Lemma Token_comma_item b r s1 str rest stk :
  skipSpace b = ","%char :: r → skipSpace r = dquote :: s1 →
  scanString (S (length s1)) s1 = Some (str, rest) →
  Token_ (mkDecoder b tokenArrayComma stk)
  = (Ok (Value (JString str)), mkDecoder rest tokenArrayComma stk).
Proof.
  intros Hb Hr Hs. unfold Token_. cbn [buf].
  assert (∃ n, length b = S n) as [n ->].
  { pose proof (skipSpace_length b) as Hl. rewrite Hb in Hl. cbn [length] in Hl.
    destruct (length b); [lia|by eexists]. }
  rewrite Token_loop_eq.
  unfold bind at 1. rewrite (peek_at _ _ _ _ _ Hb).
  unfold bind at 1. cbn [getState tokenState].
  cbn -[Token_loop bool_decide].
  rewrite bool_decide_true by done.
  cbn -[Token_loop].
  by eapply Token_item; [done|right|done].
Qed.

(** [dec.Decode(&value)] behind an item: the comma, then a string. *)
Lemma Decode_string_item b r s2 value rest stk :
  skipSpace b = ","%char :: r → skipSpace r = dquote :: s2 →
  scanString (S (length s2)) s2 = Some (value, rest) →
  Decode_string (mkDecoder b tokenArrayComma stk)
  = (Ok value, mkDecoder rest tokenArrayComma stk).
Proof.
  intros Hb Hr Hs. unfold Decode_string, tokenPrepareForDecode.
  unfold bind at 1. unfold bind at 1. cbn [getState tokenState].
  unfold bind at 1. rewrite (peek_at _ _ _ _ _ Hb).
  cbn -[readValue skipSpace]. unfold bind at 1.
  rewrite (readValue_string _ _ _ _ _ _ Hr Hs). done.
Qed.

(** The loop of [readJSONFile] over an array of strings: it takes them two
    by two, as a key and its value. *)
Lemma readLoop_items (kvs : list (gostring * gostring)) :
  ∀ fuel dec om tail, kvs ≠ [] → length kvs < fuel →
  Forall (λ kv, encoded kv.1 ∧ encoded kv.2) kvs →
  beforeItems dec (arrayItems kvs ++ "]" ++ tail) →
  readLoop fuel om dec
  = (Ok (storeAll om kvs), mkDecoder ("]" ++ tail) tokenArrayComma (tokenStack dec)).
Proof.
  induction kvs as [|[k v] kvs IH]; intros fuel dec om tail Hne Hfuel Henc Hdec; [done|].
  apply Forall_cons in Henc as [[Hk Hv] Henc]. cbn [fst snd] in Hk, Hv.
  destruct fuel as [|fuel]; [simpl in Hfuel; lia|].
  cbn [arrayItems fst snd] in Hdec. rewrite <- !app_assoc in Hdec.
  set (Y := (if bool_decide (kvs = []) then [] else ",") ++ arrayItems kvs ++ "]" ++ tail)
    in *.
  destruct (scan_quoteJSON k ("," ++ quoteJSON v ++ Y) Hk) as (s1 & Hq1 & Hs1).
  destruct (scan_quoteJSON v Y Hv) as (s2 & Hq2 & Hs2).
  rewrite Hq1 in Hdec. rewrite Hq2 in Hs1.
  destruct dec as [b st stk]. unfold beforeItems in Hdec.
  cbn [buf tokenState tokenStack] in *.
  assert (skipSpace ("," ++ dquote :: s2) = ","%char :: dquote :: s2) as Hc by done.
  assert (skipSpace (dquote :: s2) = dquote :: s2) as Hq by done.
  assert (readLoop (S fuel) om (mkDecoder b st stk)
          = readLoop fuel (OrderedMap_Set om k v) (mkDecoder Y tokenArrayComma stk))
    as ->.
  { rewrite readLoop_eq. destruct Hdec as [[-> ->]|[-> ->]].
    - assert (skipSpace (dquote :: s1) = dquote :: s1) as Hb by done.
      unfold bind at 1. rewrite (More_at _ _ _ _ _ Hb).
      change (negb (Ascii.eqb dquote "]") && negb (Ascii.eqb dquote "}")) with true.
      cbn iota. unfold bind at 1. unfold wrap at 1. unfold Token_. cbn [buf].
      erewrite Token_item; [|done|by left|done].
      unfold bind at 1. unfold wrap at 1.
      by rewrite (Decode_string_item _ _ _ _ _ _ Hc Hq Hs2).
    - assert (skipSpace ("," ++ dquote :: s1) = ","%char :: dquote :: s1) as Hb by done.
      assert (skipSpace (dquote :: s1) = dquote :: s1) as Hb' by done.
      unfold bind at 1. rewrite (More_at _ _ _ _ _ Hb).
      change (negb (Ascii.eqb "," "]") && negb (Ascii.eqb "," "}")) with true.
      cbn iota. unfold bind at 1. unfold wrap at 1.
      assert (skipSpace (","%char :: dquote :: s1) = ","%char :: dquote :: s1) as Hb2
        by done.
      rewrite (Token_comma_item _ _ _ _ _ _ Hb2 Hb' Hs1).
      unfold bind at 1. unfold wrap at 1.
      by rewrite (Decode_string_item _ _ _ _ _ _ Hc Hq Hs2). }
  destruct kvs as [|kv' kvs].
  - destruct fuel as [|fuel]; [simpl in Hfuel; lia|]. rewrite readLoop_eq.
    assert (skipSpace Y = "]"%char :: tail) as HY by done.
    unfold bind at 1. rewrite (More_at _ _ _ _ _ HY). done.
  - rewrite (IH fuel _ _ tail); [done|done|simpl in *; lia|done|].
    right. split; [done|]. unfold Y. by rewrite bool_decide_false.
Qed.

(** An array of strings is read as the store of the entries its items make
    up two by two. *)
Lemma decodeDocument_array (kvs : list (gostring * gostring)) :
  Forall (λ kv, encoded kv.1 ∧ encoded kv.2) kvs →
  decodeDocument (arrayDocument kvs) = Ok (storeOf kvs).
Proof.
  intros Henc. unfold decodeDocument, NewDecoder, arrayDocument.
  assert (skipSpace ("[" ++ arrayItems kvs ++ "]") = "["%char :: arrayItems kvs ++ "]")
    as Hopen by done.
  unfold bind at 1. unfold wrap at 1.
  rewrite (Token_open_array _ _ _ _ Hopen) by done. cbn [app].
  destruct kvs as [|kv kvs].
  - unfold bind at 1. rewrite readLoop_eq.
    assert (skipSpace (arrayItems [] ++ "]") = ["]"%char]) as Hs by done.
    unfold bind at 1. rewrite (More_at _ _ _ _ _ Hs).
    cbn [Ascii.eqb Bool.eqb negb andb ret].
    unfold bind at 1. unfold wrap at 1.
    assert (skipSpace ["]"%char] = ["]"%char]) as Hc by done.
    by rewrite (Token_close_array _ _ _ [] Hc) by by left.
  - unfold bind at 1.
    rewrite (readLoop_items (kv :: kvs) _ _ _ []); [|done| |done|].
    + unfold bind at 1. unfold wrap at 1. cbn [tokenStack].
      assert (skipSpace ("]" ++ []) = ["]"%char]) as Hc by done.
      by rewrite (Token_close_array _ _ _ [] Hc) by by right.
    + rewrite !length_app. cbn [arrayItems length]. rewrite !length_app.
      assert (length kvs ≤ length (arrayItems kvs)); [|simpl; lia].
      clear. induction kvs as [|kv kvs IH]; [done|]. cbn [arrayItems length].
      rewrite !length_app. simpl. lia.
    + left. split; [done|]. cbn [buf]. done.
Qed.

(** The array [[1]] is no example of the panic: behind the number the
    decoder wants a comma before it reads the value, and [readJSONFile]
    returns its error. *)
Lemma array_of_number_counterexample :
  (readJSONFile "locales/en.json"
     (worldWith [("locales/en.json" : gostring, arrayOfNumber)])).1
  = Err "error reading JSON value: expected comma after array element"
  ∧ ¬ ∃ msg, (readJSONFile "locales/en.json"
                (worldWith [("locales/en.json" : gostring, arrayOfNumber)])).1
             = Panic msg.
Proof.
  assert ((readJSONFile "locales/en.json"
             (worldWith [("locales/en.json" : gostring, arrayOfNumber)])).1
          = Err "error reading JSON value: expected comma after array element") as Hrun
    by by vm_compute.
  split; [done|]. intros [msg Hmsg]. rewrite Hrun in Hmsg. discriminate Hmsg.
Qed.

Lemma readJSONFile_content filename text w :
  files (fs w) !! filename = Some text → filename ∉ denied (fs w) →
  readJSONFile filename w = (decodeDocument text, w).
Proof.
  intros Hfile Hdenied. unfold readJSONFile, os_Open, bind.
  rewrite bool_decide_false by done. by rewrite Hfile.
Qed.

(** C9, as amended.  A document whose top level is an array is not
    rejected as such.  For the array of a number and a string
    [readJSONFile] panics: the number is taken for the key and the string
    for its value, and the unchecked [key.(string)] fails.  An array of
    strings is read as a store, the strings taken two by two as a key and
    its value. *)
Theorem array_document_not_rejected mixed strings kvs w :
  files (fs w) !! mixed = Some arrayOfNumberAndString → mixed ∉ denied (fs w) →
  files (fs w) !! strings = Some (arrayDocument kvs) → strings ∉ denied (fs w) →
  Forall (λ kv, encoded kv.1 ∧ encoded kv.2) kvs →
  readJSONFile mixed w
  = (Panic "interface conversion: json.Token is float64, not string", w)
  ∧ readJSONFile strings w = (Ok (storeOf kvs), w).
Proof.
  intros Hmixed Hdm Hstrings Hds Henc.
  rewrite (readJSONFile_content _ _ _ Hmixed Hdm).
  rewrite (readJSONFile_content _ _ _ Hstrings Hds).
  split; [by f_equal|]. by rewrite decodeDocument_array.
Qed.

Lemma array_document_not_rejected_witness :
  readJSONFile "mixed.json"
    (worldWith [("mixed.json" : gostring, arrayOfNumberAndString);
                ("strings.json" : gostring, arrayOfStrings)])
  = (Panic "interface conversion: json.Token is float64, not string",
     worldWith [("mixed.json" : gostring, arrayOfNumberAndString);
                ("strings.json" : gostring, arrayOfStrings)])
  ∧ readJSONFile "strings.json"
      (worldWith [("mixed.json" : gostring, arrayOfNumberAndString);
                  ("strings.json" : gostring, arrayOfStrings)])
    = (Ok (storeOf [("a" : gostring, "b" : gostring)]),
       worldWith [("mixed.json" : gostring, arrayOfNumberAndString);
                  ("strings.json" : gostring, arrayOfStrings)]).
Proof.
  apply (array_document_not_rejected "mixed.json" "strings.json"
           [("a" : gostring, "b" : gostring)]
           (worldWith [("mixed.json" : gostring, arrayOfNumberAndString);
                       ("strings.json" : gostring, arrayOfStrings)])).
  - vm_compute. reflexivity.
  - vm_compute. intros Hin. discriminate Hin.
  - vm_compute. reflexivity.
  - vm_compute. intros Hin. discriminate Hin.
  - repeat constructor; cbn [fst snd];
      (apply encoded_ascii; [by vm_compute|constructor]).
Defined.

(** * Further properties of the code *)

(** ** OrderedMap: Set and Get *)

Lemma store_eq (a b : OrderedMap) :
  keys a = keys b → values a = values b → a = b.
Proof. destruct a, b. simpl. by intros -> ->. Qed.

(** X1.  [Set] keeps the invariant of a store and appends a key exactly when
    the store does not have it; [Get] then finds the value set, and finds for
    every other key what it found before. *)
Theorem OrderedMap_Set_Get om key value :
  store_ok om →
  store_ok (OrderedMap_Set om key value)
  ∧ keys (OrderedMap_Set om key value)
    = (if decide (key ∈ keys om) then keys om else keys om ++ [key])
  ∧ OrderedMap_Get (OrderedMap_Set om key value) key = (value, true)
  ∧ (∀ k, k ≠ key →
       OrderedMap_Get (OrderedMap_Set om key value) k = OrderedMap_Get om k)
  ∧ (∀ k, (OrderedMap_Get om k).2 = bool_decide (k ∈ keys om)).
Proof.
  intros Hok. pose proof Hok as [Hnd Hdom]. split_and!.
  - by apply store_ok_Set.
  - destruct (decide (key ∈ keys om)) as [Hin|Hin].
    + apply keys_Set_old. by apply Hdom.
    + apply keys_Set_new. rewrite eq_None_not_Some. by rewrite <- Hdom.
  - unfold OrderedMap_Get. rewrite values_Set, lookup_insert_eq.
    by rewrite bool_decide_eq_true_2 by eauto.
  - intros k Hne. unfold OrderedMap_Get. by rewrite values_Set, lookup_insert_ne.
  - intros k. unfold OrderedMap_Get. cbn [snd]. apply bool_decide_ext. symmetry. apply Hdom.
Qed.

Lemma OrderedMap_Set_Get_witness :
  keys (OrderedMap_Set (storeOf [("a" : gostring, "1" : gostring);
                                 ("b" : gostring, "2" : gostring)]) "a" "3")
  = ["a" : gostring; "b" : gostring]
  ∧ OrderedMap_Get (OrderedMap_Set (storeOf [("a" : gostring, "1" : gostring);
                                             ("b" : gostring, "2" : gostring)]) "a" "3") "a"
    = ("3" : gostring, true).
Proof.
  destruct (OrderedMap_Set_Get (storeOf [("a" : gostring, "1" : gostring);
                                         ("b" : gostring, "2" : gostring)]) "a" "3")
    as (_ & Hkeys & Hget & _).
  - apply store_ok_storeOf.
  - split; [|exact Hget]. rewrite Hkeys. vm_compute. reflexivity.
Defined.

Lemma storeOf_snoc kvs k v :
  storeOf (kvs ++ [(k, v)]) = OrderedMap_Set (storeOf kvs) k v.
Proof. unfold storeOf. by rewrite storeAll_app. Qed.

(** X2.  A store filled by [Set] calls has every key once, at the place of its
    first [Set], with the value of its last. *)
Theorem storeOf_first_place_last_value (kvs : list (gostring * gostring)) :
  keys (storeOf kvs) = reverse (remove_dups (reverse kvs.*1))
  ∧ values (storeOf kvs) = list_to_map (reverse kvs)
  ∧ store_ok (storeOf kvs).
Proof.
  assert (keys (storeOf kvs) = reverse (remove_dups (reverse kvs.*1))
          ∧ values (storeOf kvs) = list_to_map (reverse kvs)) as [Hk Hv].
  { induction kvs as [|[k v] kvs [IHk IHv]] using rev_ind; [done|].
    rewrite storeOf_snoc, fmap_app, !reverse_app. cbn [fmap list_fmap reverse app].
    rewrite !reverse_singleton. cbn [app list_to_map remove_dups fst snd].
    split; [|by rewrite values_Set, IHv].
    pose proof (store_ok_storeOf kvs) as [_ Hdom].
    assert (k ∈ keys (storeOf kvs) ↔ k ∈ reverse kvs.*1) as Hin.
    { rewrite IHk, elem_of_reverse. apply elem_of_remove_dups. }
    destruct (decide_rel elem_of k (reverse kvs.*1)) as [Hk|Hk].
    - rewrite keys_Set_old; [done|]. by apply Hdom, Hin.
    - rewrite keys_Set_new, IHk; [by rewrite reverse_cons|].
      rewrite eq_None_not_Some, <- Hdom. by rewrite Hin. }
  split_and!; [done..|apply store_ok_storeOf].
Qed.

(** ** mergeJSON: the first run and a repeated merge *)

Lemma mergeJSON_fold input output :
  store_ok input →
  keys (mergeJSON input output).1 = keys input
  ∧ (∀ k, values (mergeJSON input output).1 !! k =
          if decide (k ∈ keys input) then Some (mergedValue input output k) else None)
  ∧ (mergeJSON input output).2 = filter (needsTranslation input output) (keys input).
Proof.
  intros [Hnd Hdom]. unfold mergeJSON.
  destruct (merge_fold input output (keys input) NewOrderedMap [])
    as (Hk & Hv & Hu); [done|by intros k ?%Hdom|done|].
  simpl in *. split_and!; [done| |done].
  intros k. rewrite Hv. by destruct (decide _).
Qed.

Lemma filter_keep_all {A} (P : A → Prop) `{∀ x, Decision (P x)} (l : list A) :
  Forall P l → filter P l = l.
Proof.
  induction 1 as [|x l Hx Hl IH]; [done|]. by rewrite filter_cons_True, IH.
Qed.

(** X3.  With no earlier output, which is what [readJSONFile] gives for a file
    that does not exist, the merge is the source itself and every key is to be
    translated. *)
Theorem mergeJSON_first_run input :
  store_ok input → mergeJSON input NewOrderedMap = (input, keys input).
Proof.
  intros Hok. destruct (mergeJSON_fold input NewOrderedMap Hok) as (Hk & Hv & Hu).
  pose proof Hok as [Hnd Hdom].
  rewrite (surjective_pairing (mergeJSON input NewOrderedMap)). f_equal.
  - apply store_eq; [done|]. apply map_eq. intros k. rewrite Hv.
    destruct (decide (k ∈ keys input)) as [Hin|Hin].
    + apply Hdom in Hin as [v Hkv]. rewrite Hkv. unfold mergedValue, OrderedMap_Get.
      rewrite decide_True by (by left). cbn. by rewrite Hkv.
    + symmetry. rewrite eq_None_not_Some. by rewrite <- Hdom.
  - rewrite Hu. apply filter_keep_all, Forall_forall. intros k _. by left.
Qed.

Lemma mergeJSON_first_run_witness :
  mergeJSON (storeOf [("a" : gostring, "Hello" : gostring);
                      ("b" : gostring, "World" : gostring)]) NewOrderedMap
  = (storeOf [("a" : gostring, "Hello" : gostring); ("b" : gostring, "World" : gostring)],
     keys (storeOf [("a" : gostring, "Hello" : gostring);
                    ("b" : gostring, "World" : gostring)])).
Proof.
  apply (mergeJSON_first_run (storeOf [("a" : gostring, "Hello" : gostring);
                                       ("b" : gostring, "World" : gostring)])).
  apply store_ok_storeOf.
Defined.

(** X4.  Merging the source with the merged store changes nothing: the merged
    store and the keys to be translated are the same again. *)
Theorem mergeJSON_idempotent input output :
  store_ok input →
  mergeJSON input (mergeJSON input output).1 = mergeJSON input output.
Proof.
  intros Hok. pose proof Hok as [Hnd Hdom].
  destruct (mergeJSON_fold input output Hok) as (Hk & Hv & Hu).
  destruct (mergeJSON_fold input (mergeJSON input output).1 Hok) as (Hk' & Hv' & Hu').
  set (merged := (mergeJSON input output).1) in *.
  assert (∀ k, k ∈ keys input →
            (needsTranslation input merged k ↔ needsTranslation input output k)
            ∧ mergedValue input merged k = mergedValue input output k) as Hsame.
  { intros k Hin. apply Hdom in Hin as Hsome. destruct Hsome as [v Hkv].
    pose proof (Hv k) as Hm. rewrite decide_True in Hm by done.
    assert ((OrderedMap_Get input k).1 = v) as Hgi.
    { unfold OrderedMap_Get. by rewrite Hkv. }
    assert ((OrderedMap_Get merged k).1 = mergedValue input output k) as Hgm.
    { unfold OrderedMap_Get. by rewrite Hm. }
    destruct (decide (needsTranslation input output k)) as [Hn|Hn].
    - assert (mergedValue input output k = v) as Hmv.
      { unfold mergedValue. by rewrite decide_True. }
      rewrite Hmv in Hm.
      assert (needsTranslation input merged k) as Hn'.
      { right. by rewrite Hm, Hkv. }
      split; [tauto|]. rewrite Hmv. unfold mergedValue. by rewrite decide_True.
    - assert (mergedValue input output k = (OrderedMap_Get output k).1) as Hmv.
      { unfold mergedValue. by rewrite decide_False. }
      destruct (values output !! k) as [ov|] eqn:Hov; [|by destruct Hn; left].
      assert (ov ≠ v) as Hne.
      { intros ->. apply Hn. right. by rewrite Hov, Hkv. }
      assert (mergedValue input output k = ov) as Hmv'.
      { rewrite Hmv. unfold OrderedMap_Get. by rewrite Hov. }
      rewrite Hmv' in Hm, Hgm.
      assert (¬ needsTranslation input merged k) as Hn'.
      { intros [Hx|Hx]; rewrite Hm in Hx; [done|]. rewrite Hkv in Hx. congruence. }
      split; [tauto|]. rewrite Hmv'. unfold mergedValue. by rewrite decide_False. }
  rewrite (surjective_pairing (mergeJSON input merged)),
    (surjective_pairing (mergeJSON input output)). fold merged. f_equal.
  - apply store_eq; [by rewrite Hk', Hk|]. apply map_eq. intros k.
    rewrite Hv', Hv. destruct (decide (k ∈ keys input)) as [Hin|]; [|done].
    f_equal. by apply Hsame.
  - rewrite Hu', Hu. apply filter_ext_in. intros k Hin. by apply Hsame.
Qed.

Lemma mergeJSON_idempotent_witness :
  mergeJSON (storeOf [("a" : gostring, "Hello" : gostring); ("b" : gostring, "X" : gostring)])
    (mergeJSON (storeOf [("a" : gostring, "Hello" : gostring);
                         ("b" : gostring, "X" : gostring)])
               (storeOf [("a" : gostring, "Bonjour" : gostring);
                         ("z" : gostring, "Z" : gostring)])).1
  = mergeJSON (storeOf [("a" : gostring, "Hello" : gostring);
                        ("b" : gostring, "X" : gostring)])
              (storeOf [("a" : gostring, "Bonjour" : gostring);
                        ("z" : gostring, "Z" : gostring)]).
Proof.
  apply (mergeJSON_idempotent
           (storeOf [("a" : gostring, "Hello" : gostring); ("b" : gostring, "X" : gostring)])
           (storeOf [("a" : gostring, "Bonjour" : gostring);
                     ("z" : gostring, "Z" : gostring)])).
  apply store_ok_storeOf.
Defined.

(** ** writeJSONFile: errors, lines, and reading back *)

Lemma DecodeRune_long (s : gostring) r size :
  DecodeRune s = (r, size) → size ≠ 1 →
  Forall (λ c, (0x80 ≤ N_of_ascii c)%N) (take size s).
Proof.
  unfold DecodeRune. intros Hdec Hsize.
  assert (∀ b0, match acceptRange b0 with
                | Some (_, lo, _) => (0x80 ≤ lo)%N ∧ (0x80 ≤ b0)%N
                | None => True
                end) as Hrange.
  { intros b0. unfold acceptRange.
    repeat match goal with
    | |- context [if ?b then _ else _] => destruct b eqn:?
    end; try done; split; try done;
    repeat match goal with
    | H : (_ && _)%bool = true |- _ => apply andb_true_iff in H as [? ?]
    | H : (_ <=? _)%N = true |- _ => apply N.leb_le in H
    | H : (_ =? _)%N = true |- _ => apply N.eqb_eq in H
    end; lia. }
  assert (∀ lo hi b, outside lo hi b = false → (lo ≤ b)%N) as Hout.
  { intros lo hi b Ho. unfold outside in Ho. apply orb_false_iff in Ho as [Ho _].
    by apply N.ltb_ge in Ho. }
  destruct s as [|c0 s1]; [injection Hdec as _ <-; constructor|].
  destruct (N_of_ascii c0 <? 128)%N; [injection Hdec as _ <-; done|].
  specialize (Hrange (N_of_ascii c0)).
  destruct (acceptRange (N_of_ascii c0)) as [[[sz lo] hi]|];
    [|injection Hdec as _ <-; done].
  destruct Hrange as [Hlo Hb0].
  destruct s1 as [|c1 s2]; [injection Hdec as _ <-; done|].
  destruct (outside lo hi (N_of_ascii c1)) eqn:Ho1; [injection Hdec as _ <-; done|].
  apply Hout in Ho1.
  destruct (bool_decide (sz = 2)).
  { injection Hdec as _ <-. cbn. repeat constructor; lia. }
  destruct s2 as [|c2 s3]; [injection Hdec as _ <-; done|].
  destruct (outside 128 191 (N_of_ascii c2)) eqn:Ho2; [injection Hdec as _ <-; done|].
  apply Hout in Ho2.
  destruct (bool_decide (sz = 3)).
  { injection Hdec as _ <-. cbn. repeat constructor; lia. }
  destruct s3 as [|c3 s4]; [injection Hdec as _ <-; done|].
  destruct (outside 128 191 (N_of_ascii c3)) eqn:Ho3; [injection Hdec as _ <-; done|].
  apply Hout in Ho3.
  injection Hdec as _ <-. cbn. repeat constructor; lia.
Qed.

Lemma escapeByte_printable (c : ascii) :
  Forall (λ b, (0x20 ≤ N_of_ascii b)%N) (escapeByte c).
Proof.
  unfold escapeByte.
  repeat match goal with
  | |- context [if ?b then _ else _] => destruct b eqn:?
  end; repeat constructor; try (by vm_compute).
  - apply orb_true_iff in Heqb as [->%Ascii.eqb_eq| ->%Ascii.eqb_eq]; by vm_compute.
  - unfold hexDigit. 
    assert (∀ n, (32 ≤ N_of_ascii (nth n ("0123456789abcdef" : gostring) "0"%char))%N) as Hn.
    { intros n. do 17 (destruct n as [|n]; [by vm_compute|]). by destruct n; vm_compute. }
    apply Hn.
  - assert (∀ n, (32 ≤ N_of_ascii (nth n ("0123456789abcdef" : gostring) "0"%char))%N) as Hn.
    { intros n. do 17 (destruct n as [|n]; [by vm_compute|]). by destruct n; vm_compute. }
    apply Hn.
Qed.

(** What [appendString] writes has no control character, whatever bytes
    the string holds. *)
Lemma appendString_printable fuel :
  ∀ (s : gostring) escapeHTML,
  Forall (λ b, (0x20 ≤ N_of_ascii b)%N) (appendString fuel s escapeHTML).
Proof.
  induction fuel as [|fuel IH]; intros s escapeHTML; [constructor|].
  destruct s as [|c s]; [constructor|]. cbn [appendString].
  destruct (N.ltb_spec (N_of_ascii c) 128) as [Hlt|Hge].
  - apply Forall_app. split; [|apply IH].
    destruct (htmlSafeSet c || negb escapeHTML && safeSet c) eqn:Hsafe;
      [|apply escapeByte_printable].
    repeat constructor.
    assert (safeSet c = true) as Hs.
    { unfold htmlSafeSet in Hsafe. destruct (safeSet c); [done|].
      by rewrite andb_false_r in Hsafe. }
    unfold safeSet in Hs. apply andb_true_iff in Hs as [Hs _].
    apply andb_true_iff in Hs as [Hs _]. apply andb_true_iff in Hs as [Hs _].
    by apply N.leb_le.
  - destruct (DecodeRune (c :: s)) as [r size] eqn:Hdec.
    case_bool_decide as Herr.
    { apply Forall_cons. split; [by vm_compute|].
      apply Forall_app. split; [|apply IH]. repeat constructor; by vm_compute. }
    case_bool_decide as Hsep.
    { apply Forall_cons. split; [by vm_compute|].
      apply Forall_app. split; [repeat constructor; by vm_compute|].
      apply Forall_app. split; [|apply IH]. repeat constructor.
      destruct Hsep as [-> | ->]; by vm_compute. }
    apply Forall_app. split; [|apply IH].
    assert (size ≠ 1) as Hsize.
    { intros ->. apply Herr. split; [|done]. unfold DecodeRune in Hdec.
      rewrite (proj2 (N.ltb_ge _ _)) in Hdec by done.
      repeat match type of Hdec with
      | context [match ?x with _ => _ end] => destruct x
      end; by injection Hdec as <-. }
    eapply Forall_impl; [by eapply DecodeRune_long|]. intros b Hb. simpl in Hb. lia.
Qed.

Lemma quoteJSON_one_line (s : gostring) : "010"%char ∉ quoteJSON s.
Proof.
  unfold quoteJSON, quoted. intros Hin.
  apply elem_of_cons in Hin as [Hin|Hin]; [discriminate Hin|].
  apply elem_of_app in Hin as [Hin|Hin].
  - pose proof (appendString_printable (length s) s false) as Hp.
    apply (proj1 (Forall_forall _ _) Hp) in Hin. vm_compute in Hin. by apply Hin.
  - apply list_elem_of_singleton in Hin. discriminate Hin.
Qed.

Lemma memberLine_one_line n i kv : "010"%char ∉ memberLine n i kv.
Proof.
  unfold memberLine. intros Hin.
  repeat (apply elem_of_app in Hin as [Hin|Hin]); try (by apply quoteJSON_one_line in Hin).
  - apply list_elem_of_In in Hin. vm_compute in Hin. by repeat destruct Hin as [Hin|Hin].
  - apply list_elem_of_In in Hin. vm_compute in Hin. by repeat destruct Hin as [Hin|Hin].
  - destruct (bool_decide _); apply list_elem_of_In in Hin; vm_compute in Hin;
      by repeat destruct Hin as [Hin|Hin].
Qed.

Lemma Split_memberLines (kvs : list (gostring * gostring)) :
  ∀ i, Split (memberLines kvs ++ "}" ++ newline) newline
       = imap (λ j, memberLine (i + length kvs) (i + j)) kvs ++ ["}" : gostring; []].
Proof.
  induction kvs as [|kv kvs IH]; intros i.
  - cbn [memberLines imap app]. change ("}" ++ newline) with ("}" ++ "010"%char :: []).
    unfold newline. rewrite Split_first by (by intros ?%list_elem_of_singleton).
    by rewrite Split_one by apply not_elem_of_nil.
  - cbn [memberLines imap length app].
    assert (("  " ++ quoteJSON kv.1 ++ ": " ++ quoteJSON kv.2
             ++ (if bool_decide (kvs = []) then [] else ",") ++ newline ++ memberLines kvs)
            ++ "}" ++ newline
            = memberLine (i + S (length kvs)) (i + 0) kv
              ++ "010"%char :: (memberLines kvs ++ "}" ++ newline)) as ->.
    { unfold memberLine. rewrite <- !app_assoc. do 4 f_equal.
      replace (bool_decide (S (i + 0) < i + S (length kvs)))
        with (negb (bool_decide (kvs = []))).
      - by destruct (bool_decide (kvs = [])).
      - destruct kvs as [|kv' kvs].
        + rewrite (bool_decide_true ([] = [])) by done. cbn [negb length]. symmetry.
          apply bool_decide_eq_false_2. lia.
        + rewrite (bool_decide_false (kv' :: kvs = [])) by done. cbn [negb length].
          symmetry. apply bool_decide_eq_true_2. lia. }
    change newline with ["010"%char] at 1.
    rewrite Split_first by apply memberLine_one_line. cbn [app]. f_equal.
    change ["010"%char] with newline. rewrite (IH (S i)).
    f_equal. apply imap_ext. intros j kv' _. unfold compose.
    replace (S i + length kvs) with (i + S (length kvs)) by lia.
    by replace (S i + j) with (i + S j) by lia.
Qed.

(** X5.  The text [writeJSONFile] writes has one line for every entry,
    whatever bytes the keys and the values hold: split at the newlines it is
    the opening brace, the lines of the entries in the order of the store, the
    closing brace, and nothing behind the last newline. *)
Theorem renderJSON_lines (data : OrderedMap) :
  ∃ text, renderJSON data = Ok text
          ∧ Split text newline
            = ("{" : gostring)
              :: imap (memberLine (length (keys data))) (entries data)
              ++ ["}" : gostring; []].
Proof.
  exists (document (entries data)). split; [apply renderJSON_document|].
  unfold document. change ("{" ++ newline ++ ?x) with ("{" ++ "010"%char :: x).
  change newline with ["010"%char] at 2.
  rewrite Split_first by (by intros ?%list_elem_of_singleton).
  change ["010"%char] with newline. rewrite (Split_memberLines _ 0).
  do 2 f_equal. unfold entries. by rewrite length_fmap.
Qed.

Lemma fmap_pair_zip {A B} (f : A → B) (l : list A) :
  (λ x, (x, f x)) <$> l = zip l (f <$> l).
Proof. induction l as [|x l IH]; [done|]. cbn. f_equal. apply IH. Qed.

Lemma storeOf_entries (data : OrderedMap) : store_ok data → storeOf (entries data) = data.
Proof.
  intros [Hnd Hdom]. unfold entries.
  rewrite (fmap_pair_zip (λ k, (OrderedMap_Get data k).1)).
  apply store_eq.
  - unfold storeOf. rewrite storeAll_keys;
      [done|apply store_ok_New|done|intros k _ Hk; inversion Hk|by rewrite length_fmap].
  - apply map_eq. intros k. unfold storeOf.
    destruct (decide (k ∈ keys data)) as [Hin|Hin].
    + apply list_elem_of_lookup in Hin as [j Hj].
      rewrite (storeAll_lookup _ _ _ j k (OrderedMap_Get data k).1); [|done|done|].
      * assert (is_Some (values data !! k)) as [v Hv].
        { apply Hdom. by eapply list_elem_of_lookup_2. }
        unfold OrderedMap_Get. by rewrite Hv.
      * by rewrite list_lookup_fmap, Hj.
    + rewrite storeAll_lookup_notin.
      * cbn. rewrite lookup_empty. symmetry. rewrite eq_None_not_Some. by rewrite <- Hdom.
      * rewrite fst_zip; [done|]. by rewrite length_fmap.
Qed.

Section WriteRead.
Context `{Platform}.

(** X7.  A store of texts in UTF-8 that is written is read back as it is: the
    same keys in the same order with the same values. *)
Theorem write_then_read filename data w :
  store_ok data →
  Forall (λ kv, encoded kv.1 ∧ encoded kv.2) (entries data) →
  filepath_Dir filename ∉ denied (fs w) → filename ∉ denied (fs w) →
  ∃ w', writeJSONFile filename data w = (Ok tt, w')
        ∧ readJSONFile filename w' = (Ok data, w').
Proof.
  intros Hok Henc Hdir Hfile. eexists. split.
  - by apply writeJSONFile_document.
  - rewrite (readJSONFile_flat filename (document (entries data)) (entries data)).
    + by rewrite storeOf_entries.
    + cbn. by rewrite lookup_insert_eq.
    + done.
    + by apply parseFlat_document.
Qed.

End WriteRead.

Lemma write_then_read_witness :
  ∃ w', writeJSONFile (H := stubPlatform (constClient [])) "locales/fr.json"
          (storeOf markupMembers) (worldWith []) = (Ok tt, w')
        ∧ readJSONFile "locales/fr.json" w' = (Ok (storeOf markupMembers), w').
Proof.
  apply (write_then_read (H := stubPlatform (constClient [])) "locales/fr.json"
           (storeOf markupMembers) (worldWith [])).
  - apply store_ok_storeOf.
  - apply (parseFlat_encoded markupDocument). by vm_compute.
  - vm_compute. intros Hin. discriminate Hin.
  - vm_compute. intros Hin. discriminate Hin.
Defined.

(** ** readJSONFile on any object *)

Lemma readValue_at b c s2 v rest st stk :
  skipSpace b = c :: s2 →
  scanValue (2 * length (c :: s2) + 2) (c :: s2) = Some (v, rest) →
  readValue (mkDecoder b st stk) = (Ok v, mkDecoder rest st stk).
Proof. intros Hb Hs. unfold readValue. cbn [buf]. rewrite Hb. by rewrite Hs. Qed.

(** [dec.Decode(&value)] behind a key: the colon, then a value of any kind. *)
Lemma Decode_string_value b r c s2 v rest stk :
  skipSpace b = ":"%char :: r → skipSpace r = c :: s2 →
  scanValue (2 * length (c :: s2) + 2) (c :: s2) = Some (v, rest) →
  Decode_string (mkDecoder b tokenObjectColon stk)
  = (unmarshalString v, mkDecoder rest tokenObjectComma stk).
Proof.
  intros Hb Hr Hs. unfold Decode_string, tokenPrepareForDecode.
  unfold bind at 1. unfold bind at 1. cbn [getState tokenState].
  unfold bind at 1. rewrite (peek_at _ _ _ _ _ Hb).
  cbn -[readValue skipSpace scanValue]. unfold bind at 1.
  rewrite (readValue_at _ _ _ _ _ _ _ Hr Hs). by destruct v.
Qed.

Lemma objectMembers_length fuel :
  ∀ s ms, objectMembers fuel s = Some ms → length ms ≤ fuel.
Proof.
  induction fuel as [|fuel IH]; intros s ms Hp; [done|].
  destruct s as [|q s1]; [done|]. cbn [objectMembers] in Hp.
  destruct (Ascii.eqb q dquote); [|done].
  destruct (scanString (S (length s1)) s1) as [[key r1]|]; [|done].
  destruct (skipSpace r1) as [|c r2]; [done|].
  destruct (Ascii.eqb c ":"); [|done].
  destruct (skipSpace r2) as [|c2 s2]; [done|].
  destruct (scanValue _ _) as [[value r3]|]; [|done].
  destruct (skipSpace r3) as [|d r4]; [done|].
  destruct (Ascii.eqb d ",").
  - destruct (objectMembers fuel (skipSpace r4)) as [ms'|] eqn:Hrest; [|done].
    injection Hp as <-. apply IH in Hrest. simpl. lia.
  - destruct (Ascii.eqb d "}"); [|done]. injection Hp as <-. simpl. lia.
Qed.

(** The loop of [readJSONFile] over the members of an object: it sets the
    members in turn and stops before the closing brace, or at the first
    value that is no string. *)
Lemma readLoop_object fuelP :
  ∀ s ms, objectMembers fuelP s = Some ms →
  ∀ fuel dec om, length ms < fuel → beforeMember dec s →
  match setMembers om ms with
  | Ok om' => ∃ rest, readLoop fuel om dec
                      = (Ok om', mkDecoder ("}"%char :: rest) tokenObjectComma
                                   (tokenStack dec))
  | r => ∃ dec', readLoop fuel om dec = (r, dec')
  end.
Proof.
  induction fuelP as [|fuelP IH]; intros s ms Hp fuel dec om Hfuel Hdec; [done|].
  destruct s as [|q s1]; [done|]. cbn [objectMembers] in Hp.
  destruct (Ascii.eqb_spec q dquote) as [->|]; [|done].
  destruct (scanString (S (length s1)) s1) as [[key r1]|] eqn:Hkey; [|done].
  destruct (skipSpace r1) as [|c r2] eqn:Hr1; [done|].
  destruct (Ascii.eqb_spec c ":") as [->|]; [|done].
  destruct (skipSpace r2) as [|c2 s2] eqn:Hr2; [done|].
  destruct (scanValue (2 * length (c2 :: s2) + 2) (c2 :: s2)) as [[v r3]|] eqn:Hvalue;
    [|done].
  destruct (skipSpace r3) as [|d r4] eqn:Hr3; [done|].
  destruct dec as [b st stk]. unfold beforeMember in Hdec.
  cbn [buf tokenState tokenStack] in *.
  (* the key and the value of the first member *)
  assert (∀ fuel',
            (more <- More ;;
            if more : bool then
              key <- wrap "error reading JSON key" Token_ ;;
              value <- wrap "error reading JSON value" Decode_string ;;
              match key with
              | Value (JString k) => readLoop fuel' (OrderedMap_Set om k value)
              | _ => panic ("interface conversion: json.Token is " ++ dynamicType key
                            ++ ", not string")
              end
            else ret om) (mkDecoder b st stk)
          = match unmarshalString v with
            | Ok value => readLoop fuel' (OrderedMap_Set om key value)
                            (mkDecoder r3 tokenObjectComma stk)
            | Err e => (Err (Errorf "error reading JSON value" e),
                        mkDecoder r3 tokenObjectComma stk)
            | Panic msg => (Panic msg, mkDecoder r3 tokenObjectComma stk)
            end) as Hstep.
  { intros fuel'. destruct Hdec as [[-> Hb]|[-> (r & Hb & Hr)]].
    - unfold bind at 1. rewrite (More_at _ _ _ _ _ Hb).
      change (negb (Ascii.eqb dquote "]") && negb (Ascii.eqb dquote "}")) with true.
      cbn iota. unfold bind at 1. unfold wrap at 1. unfold Token_. cbn [buf].
      erewrite Token_key; [|done|by left|done].
      unfold bind at 1. unfold wrap at 1.
      rewrite (Decode_string_value _ _ _ _ _ _ _ Hr1 Hr2 Hvalue).
      by destruct (unmarshalString v).
    - unfold bind at 1. rewrite (More_at _ _ _ _ _ Hb).
      change (negb (Ascii.eqb "," "]") && negb (Ascii.eqb "," "}")) with true.
      cbn iota. unfold bind at 1. unfold wrap at 1.
      assert (skipSpace (","%char :: r) = ","%char :: r) as Hc by done.
      rewrite (Token_comma_key _ _ _ _ _ _ Hc Hr Hkey).
      unfold bind at 1. unfold wrap at 1.
      rewrite (Decode_string_value _ _ _ _ _ _ _ Hr1 Hr2 Hvalue).
      by destruct (unmarshalString v). }
  destruct fuel as [|fuel]; [lia|]. rewrite readLoop_eq, (Hstep fuel).
  assert (∀ ms', ms = (key, v) :: ms' →
            setMembers om ms
            = match unmarshalString v with
              | Ok value => setMembers (OrderedMap_Set om key value) ms'
              | Err e => Err (Errorf "error reading JSON value" e)
              | Panic msg => Panic msg
              end) as Hset by (by intros ms' ->).
  destruct (Ascii.eqb_spec d ",") as [->|].
  - destruct (objectMembers fuelP (skipSpace r4)) as [ms'|] eqn:Hrest; [|done].
    injection Hp as <-. rewrite (Hset ms' eq_refl).
    destruct (unmarshalString v) as [value|e|msg]; [|by eexists..].
    apply (IH _ _ Hrest fuel (mkDecoder r3 tokenObjectComma stk)).
    + simpl in Hfuel. lia.
    + right. split; [done|]. by exists r4.
  - destruct (Ascii.eqb_spec d "}") as [->|]; [|done]. injection Hp as <-.
    rewrite (Hset [] eq_refl).
    destruct (unmarshalString v) as [value|e|msg]; [|by eexists..].
    cbn [setMembers]. exists r4. destruct fuel as [|fuel]; [simpl in Hfuel; lia|].
    rewrite readLoop_eq. unfold bind at 1. rewrite (More_at _ _ _ _ _ Hr3). done.
Qed.

Lemma decodeDocument_object text members :
  parseObject text = Some members →
  decodeDocument text = setMembers NewOrderedMap members.
Proof.
  unfold parseObject. intros Hp.
  destruct (skipSpace text) as [|c s] eqn:Htext; [done|].
  destruct (Ascii.eqb_spec c "{") as [->|]; [|done].
  destruct (skipSpace s) as [|c' s'] eqn:Hs; [done|].
  pose proof (skipSpace_cons_length _ _ _ Htext) as Hl.
  unfold decodeDocument, NewDecoder.
  unfold bind at 1. unfold wrap at 1.
  rewrite (Token_open _ _ _ _ Htext) by done. cbn [app].
  destruct (Ascii.eqb_spec c' "}") as [->|Hc'].
  - injection Hp as <-. unfold bind at 1. rewrite readLoop_eq.
    unfold bind at 1. rewrite (More_at _ _ _ _ _ Hs).
    cbn [Ascii.eqb Bool.eqb negb andb ret].
    unfold bind at 1. unfold wrap at 1.
    assert (skipSpace ("}"%char :: s') = "}"%char :: s') as Hc by done.
    by rewrite (Token_close _ _ _ tokenTopValue [] Hc) by (done || by left).
  - pose proof (objectMembers_length _ _ _ Hp) as Hlen.
    pose proof (readLoop_object _ _ _ Hp (S (length text))
                  (mkDecoder s tokenObjectStart [tokenTopValue]) NewOrderedMap) as Hloop.
    destruct (setMembers NewOrderedMap members) as [om'|e|msg].
    + destruct Hloop as [rest Hloop]; [lia|left; split; [done|exact Hs]|].
      unfold bind at 1. rewrite Hloop.
      unfold bind at 1. unfold wrap at 1. cbn [tokenStack].
      assert (skipSpace ("}"%char :: rest) = "}"%char :: rest) as Hc by done.
      by rewrite (Token_close _ _ _ tokenTopValue [] Hc) by (done || by right).
    + destruct Hloop as [dec' Hloop]; [lia|left; split; [done|exact Hs]|].
      unfold bind at 1. by rewrite Hloop.
    + destruct Hloop as [dec' Hloop]; [lia|left; split; [done|exact Hs]|].
      unfold bind at 1. by rewrite Hloop.
Qed.

(** X8.  [readJSONFile] on a file that holds a JSON object, with values of any
    kind: the members are set in the order of the text, [null] as the empty
    string; the first value that is a number, a boolean, an array or an object
    ends the reading with an error that names its kind, and no store is
    returned. *)
Theorem readJSONFile_object filename text members w :
  files (fs w) !! filename = Some text → filename ∉ denied (fs w) →
  parseObject text = Some members →
  readJSONFile filename w = (setMembers NewOrderedMap members, w).
Proof.
  intros Hfile Hdenied Hp. rewrite (readJSONFile_content _ _ _ Hfile Hdenied).
  by rewrite (decodeDocument_object _ _ Hp).
Qed.


Lemma readJSONFile_object_witness :
  readJSONFile "locales/en.json" (worldWith [("locales/en.json" : gostring, mixedDocument)])
  = (Err "error reading JSON value: json: cannot unmarshal number into Go value of type string",
     worldWith [("locales/en.json" : gostring, mixedDocument)]).
Proof.
  apply (readJSONFile_object "locales/en.json" mixedDocument
           [("a" : gostring, JNull); ("b" : gostring, JNumber "1")]
           (worldWith [("locales/en.json" : gostring, mixedDocument)])).
  - vm_compute. reflexivity.
  - vm_compute. intros Hin. discriminate Hin.
  - vm_compute. reflexivity.
Defined.

(** X9.  A file that holds nothing, or white space only, is not read as an
    empty store: [readJSONFile] fails at the first token. *)
Theorem readJSONFile_blank_file filename text w :
  files (fs w) !! filename = Some text → filename ∉ denied (fs w) →
  skipSpace text = [] →
  readJSONFile filename w = (Err "error reading JSON start: EOF", w).
Proof.
  intros Hfile Hdenied Hblank. rewrite (readJSONFile_content _ _ _ Hfile Hdenied).
  f_equal. unfold decodeDocument, NewDecoder, bind, wrap, Token_. cbn [buf].
  rewrite Token_loop_eq. unfold bind at 1. unfold peek. cbn [buf]. by rewrite Hblank.
Qed.

Lemma readJSONFile_blank_file_witness :
  readJSONFile "locales/fr.json" (worldWith [("locales/fr.json" : gostring, newline)])
  = (Err "error reading JSON start: EOF",
     worldWith [("locales/fr.json" : gostring, newline)]).
Proof.
  apply (readJSONFile_blank_file "locales/fr.json" newline
           (worldWith [("locales/fr.json" : gostring, newline)])).
  - vm_compute. reflexivity.
  - vm_compute. intros Hin. discriminate Hin.
  - reflexivity.
Defined.

Lemma parseFlat_document_tail (kvs : list (gostring * gostring)) (tail : gostring) :
  Forall (λ kv, encoded kv.1 ∧ encoded kv.2) kvs →
  parseFlat (document kvs ++ tail) = Some kvs.
Proof.
  intros Henc. unfold parseFlat, document. rewrite <- !app_assoc.
  change (skipSpace ("{" ++ ?x)) with ("{"%char :: x).
  cbn iota. change (Ascii.eqb "{" "{") with true. cbn iota.
  destruct kvs as [|kv kvs]; [done|].
  change (skipSpace (newline ++ ?x)) with (skipSpace x).
  set (ms := memberLines (kv :: kvs)).
  assert (∃ s1, skipSpace (ms ++ "}" ++ newline ++ tail) = dquote :: s1) as [s1 Hsk].
  { unfold ms. cbn [memberLines]. rewrite <- !app_assoc.
    apply Forall_cons in Henc as [[Hk _] _].
    destruct (scan_quoteJSON kv.1 (": " ++ quoteJSON kv.2
              ++ (if bool_decide (kvs = []) then [] else ",") ++ newline
              ++ memberLines kvs ++ "}" ++ newline ++ tail) Hk) as (s1 & -> & _).
    by exists s1. }
  pose proof (parseMembers_lines (kv :: kvs)
                (length (newline ++ ms ++ "}" ++ newline ++ tail)) (newline ++ tail)) as Hp.
  fold ms in Hp. rewrite Hsk in *. change (Ascii.eqb dquote "}") with false. cbn iota.
  apply Hp; [done| |done].
  rewrite !length_app. pose proof (memberLines_length (kv :: kvs)). fold ms in H. lia.
Qed.

(** X10.  [readJSONFile] does not look at what follows the closing brace: a
    document that was written is read as it is with any text behind it. *)
Theorem readJSONFile_ignores_rest filename kvs tail w :
  files (fs w) !! filename = Some (document kvs ++ tail) → filename ∉ denied (fs w) →
  Forall (λ kv, encoded kv.1 ∧ encoded kv.2) kvs →
  readJSONFile filename w = (Ok (storeOf kvs), w).
Proof.
  intros Hfile Hdenied Henc.
  apply (readJSONFile_flat _ (document kvs ++ tail)); [done..|].
  by apply parseFlat_document_tail.
Qed.

Lemma readJSONFile_ignores_rest_witness :
  readJSONFile "locales/fr.json"
    (worldWith [("locales/fr.json" : gostring, document markupMembers ++ "}} not JSON")])
  = (Ok (storeOf markupMembers),
     worldWith [("locales/fr.json" : gostring, document markupMembers ++ "}} not JSON")]).
Proof.
  apply (readJSONFile_ignores_rest "locales/fr.json" markupMembers "}} not JSON"
           (worldWith [("locales/fr.json" : gostring,
                        document markupMembers ++ "}} not JSON")])).
  - vm_compute. reflexivity.
  - vm_compute. intros Hin. discriminate Hin.
  - apply (parseFlat_encoded markupDocument). by vm_compute.
Defined.

(** ** What readJSONFile returns *)

Lemma scanValue_string fuel (s str rest : gostring) :
  scanValue fuel s = Some (JString str, rest) → encoded str.
Proof.
  destruct fuel as [|fuel]; [done|]. destruct s as [|c s']; [done|].
  cbn [scanValue].
  destruct (Ascii.eqb c dquote).
  { destruct (scanString (S (length s')) s') as [[str' rest']|] eqn:Hs; [|done].
    intros [= <- <-]. by eapply scanString_encoded. }
  destruct (Ascii.eqb c "[").
  { destruct (skipSpace s') as [|c' r]; [done|]. destruct (Ascii.eqb c' "]"); [done|].
    by destruct (scanElems _ _) as [[? ?]|]. }
  destruct (Ascii.eqb c "{").
  { destruct (skipSpace s') as [|c' r]; [done|]. destruct (Ascii.eqb c' "}"); [done|].
    by destruct (scanMembers _ _) as [[? ?]|]. }
  destruct (HasPrefix _ _); [done|]. destruct (HasPrefix _ _); [done|].
  destruct (HasPrefix _ _); [done|]. by destruct (scanNumber _) as [[? ?]|].
Qed.

Lemma readValue_encoded dec (s : gostring) dec' :
  readValue dec = (Ok (JString s), dec') → encoded s.
Proof.
  unfold readValue. destruct (skipSpace (buf dec)) as [|c r]; [done|].
  destruct (scanValue _ _) as [[v rest]|] eqn:Hs; [|done].
  intros [= -> _]. by eapply scanValue_string.
Qed.

Lemma Decode_string_encoded dec (s : gostring) dec' :
  Decode_string dec = (Ok s, dec') → encoded s.
Proof.
  unfold Decode_string, tokenPrepareForDecode, tokenValueEnd, bind, getState, peek,
    advance, setState, ret, fail.
  intros H. repeat case_match; simplify_eq; try constructor; by eapply readValue_encoded.
Qed.

Lemma Decode_any_encoded dec (s : gostring) dec' :
  Decode_any dec = (Ok (JString s), dec') → encoded s.
Proof.
  unfold Decode_any, tokenPrepareForDecode, tokenValueEnd, bind, getState, peek,
    advance, setState, ret, fail.
  intros H. repeat case_match; simplify_eq; by eapply readValue_encoded.
Qed.

Lemma Token_loop_encoded fuel :
  ∀ dec (k : gostring) dec',
  Token_loop fuel dec = (Ok (Value (JString k)), dec') → encoded k.
Proof.
  induction fuel as [|fuel IH]; intros dec k dec' H; [done|].
  rewrite Token_loop_eq in H. unfold bind at 1 in H.
  destruct (peek dec) as [[c|e|m] dec1]; [|done..].
  unfold bind at 1 in H. cbn [getState] in H.
  assert (∀ d, tokenError c d ≠ (Ok (Value (JString k)), dec')) as Herr.
  { intros d. unfold tokenError, bind, getState, fail. done. }
  destruct (Ascii.eqb c "[").
  { destruct (tokenValueAllowed _); [|by apply Herr in H].
    unfold bind, advance, pushState, ret in H. done. }
  destruct (Ascii.eqb c "]").
  { destruct (bool_decide _); [|by apply Herr in H].
    unfold bind, advance, popState, tokenValueEnd, getState, setState, ret in H.
    repeat case_match; simplify_eq. }
  destruct (Ascii.eqb c "{").
  { destruct (tokenValueAllowed _); [|by apply Herr in H].
    unfold bind, advance, pushState, ret in H. done. }
  destruct (Ascii.eqb c "}").
  { destruct (bool_decide _); [|by apply Herr in H].
    unfold bind, advance, popState, tokenValueEnd, getState, setState, ret in H.
    repeat case_match; simplify_eq. }
  destruct (Ascii.eqb c ":").
  { destruct (bool_decide _); [|by apply Herr in H].
    unfold bind, advance, setState in H. by eapply IH. }
  destruct (Ascii.eqb c ",").
  { destruct (bool_decide _).
    { unfold bind, advance, setState in H. by eapply IH. }
    destruct (bool_decide _); [|by apply Herr in H].
    unfold bind, advance, setState in H. by eapply IH. }
  destruct (_ && _).
  { unfold bind at 1 in H. unfold setState in H.
    destruct (Decode_string _) as [[x|e|m] d] eqn:Hd; [|done..].
    injection H as -> _. by eapply Decode_string_encoded. }
  destruct (tokenValueAllowed _); [|by apply Herr in H].
  unfold bind at 1 in H.
  destruct (Decode_any dec1) as [[x|e|m] d] eqn:Hd; [|done..].
  unfold ret in H. injection H as -> _. by eapply Decode_any_encoded.
Qed.

(** The invariant of the store [readJSONFile] fills: no key twice, and
    every key and value a text in UTF-8. *)
Lemma readLoop_invariant fuel :
  ∀ om dec om' dec',
  store_ok om → (∀ k v, values om !! k = Some v → encoded k ∧ encoded v) →
  readLoop fuel om dec = (Ok om', dec') →
  store_ok om' ∧ (∀ k v, values om' !! k = Some v → encoded k ∧ encoded v).
Proof.
  induction fuel as [|fuel IH]; intros om dec om' dec' Hok Henc H; [done|].
  rewrite readLoop_eq in H. unfold bind at 1 in H. unfold More in H.
  destruct (peek dec) as [[c|e|m] dec1].
  2, 3: by (cbn in H; injection H as <- _).
  destruct (negb _ && negb _); [|by (cbn in H; injection H as <- _)].
  unfold bind at 1 in H. unfold wrap at 1 in H. unfold Token_ in H.
  destruct (Token_loop _ dec1) as [[key|e|m] dec2] eqn:Hkey; [|done..].
  unfold bind at 1 in H. unfold wrap at 1 in H.
  destruct (Decode_string dec2) as [[value|e|m] dec3] eqn:Hvalue; [|done..].
  destruct key as [d|[| | |k| |]]; try done.
  apply Token_loop_encoded in Hkey. apply Decode_string_encoded in Hvalue.
  eapply IH; [| |exact H].
  - by apply store_ok_Set.
  - intros k' v'. rewrite values_Set. destruct (decide (k' = k)) as [->|Hne].
    + rewrite lookup_insert_eq. by intros [= <-].
    + rewrite lookup_insert_ne by done. apply Henc.
Qed.

Lemma decodeDocument_invariant text om :
  decodeDocument text = Ok om →
  store_ok om ∧ (∀ k v, values om !! k = Some v → encoded k ∧ encoded v).
Proof.
  intros H. unfold decodeDocument in H.
  unfold bind at 1 in H. unfold wrap at 1 in H.
  destruct (Token_ _) as [[t|e|m] dec1]; [|done..].
  unfold bind at 1 in H.
  destruct (readLoop _ _ dec1) as [[om1|e|m] dec2] eqn:Hloop; [|done..].
  unfold bind at 1 in H. unfold wrap at 1 in H.
  destruct (Token_ dec2) as [[t'|e|m] dec3]; [|done..].
  cbn in H. injection H as <-.
  eapply readLoop_invariant; [apply store_ok_New| |exact Hloop].
  intros k v Hkv. cbn [values NewOrderedMap] in Hkv. by rewrite lookup_empty in Hkv.
Qed.

Lemma readJSONFile_store_ok filename w om :
  (readJSONFile filename w).1 = Ok om → store_ok om.
Proof.
  unfold readJSONFile, bind, os_Open, lift, ret, fail.
  destruct (bool_decide _); [done|].
  destruct (files (fs w) !! filename) as [text|]; cbn [fst].
  - intros Hd. by apply decodeDocument_invariant in Hd as [? _].
  - intros [= <-]. apply store_ok_New.
Qed.

(** X11.  Whatever file [readJSONFile] reads, the store it returns satisfies
    the invariant of a store, its keys and values are texts in UTF-8, and the
    world is as it was. *)
Theorem readJSONFile_invariant filename w om w' :
  readJSONFile filename w = (Ok om, w') →
  w' = w ∧ store_ok om ∧ Forall (λ kv, encoded kv.1 ∧ encoded kv.2) (entries om).
Proof.
  intros H.
  assert (store_ok om ∧ (∀ k v, values om !! k = Some v → encoded k ∧ encoded v))
    as [Hok Henc].
  { unfold readJSONFile, bind, os_Open, lift, ret, fail in H.
    destruct (bool_decide _); [done|].
    destruct (files (fs w) !! filename) as [text|].
    - injection H as H _. by apply (decodeDocument_invariant text).
    - injection H as <- _. split; [apply store_ok_New|].
      intros k v Hkv. cbn [values NewOrderedMap] in Hkv. by rewrite lookup_empty in Hkv. }
  split_and!; [|done|].
  - pose proof (readJSONFile_world filename w) as Hw. by rewrite H in Hw.
  - unfold entries. apply Forall_fmap, Forall_forall. intros k Hin. cbn.
    destruct Hok as [_ Hdom]. apply Hdom in Hin as [v Hv].
    unfold OrderedMap_Get. rewrite Hv. cbn. by eapply Henc.
Qed.

Lemma readJSONFile_invariant_witness :
  worldWith [("locales/en.json" : gostring, markupDocument)]
  = worldWith [("locales/en.json" : gostring, markupDocument)]
  ∧ store_ok (storeOf markupMembers)
  ∧ Forall (λ kv, encoded kv.1 ∧ encoded kv.2) (entries (storeOf markupMembers)).
Proof.
  apply (readJSONFile_invariant "locales/en.json"
           (worldWith [("locales/en.json" : gostring, markupDocument)])).
  vm_compute. reflexivity.
Defined.

(** ** translateText: nothing to send, and a response without a choice *)

(** X12.  When every text is blank, and so when there is none, [translateText]
    returns the texts as they are and sends nothing. *)
Theorem translateText_all_blank client texts targetLanguage customPrompt model w :
  Forall blank texts →
  translateText client texts targetLanguage customPrompt model w = (Ok texts, w).
Proof.
  intros Hblank. rewrite translateText_eq. cbn zeta.
  rewrite decide_True; [done|].
  induction Hblank as [|t texts Ht _ IH]; [done|].
  by rewrite filter_cons_False by (by intros Hn; apply Hn).
Qed.

Lemma translateText_all_blank_witness :
  translateText (failingClient "unreachable")
    ["  " : gostring; [] ; "009"%char :: newline] "French" "" "gpt-4o-mini" (worldWith [])
  = (Ok ["  " : gostring; [] ; "009"%char :: newline], worldWith []).
Proof.
  apply (translateText_all_blank (failingClient "unreachable")
           ["  " : gostring; [] ; "009"%char :: newline]
           "French" "" "gpt-4o-mini" (worldWith [])).
  repeat constructor; by vm_compute.
Defined.

(** X13.  A response that holds no choice makes [translateText] panic: it
    takes the first choice without looking at their number. The request was
    sent. *)
Theorem translateText_no_choice client texts targetLanguage customPrompt model w :
  filter (λ t, ¬ blank t) texts ≠ [] →
  client (sent w)
    (chatRequest (filter (λ t, ¬ blank t) texts) targetLanguage customPrompt model)
  = Ok {| Choices := [] |} →
  translateText client texts targetLanguage customPrompt model w
  = (Panic "runtime error: index out of range [0] with length 0",
     addSent w (chatRequest (filter (λ t, ¬ blank t) texts)
                  targetLanguage customPrompt model)).
Proof.
  intros Hne Hclient. rewrite translateText_eq. cbn zeta.
  rewrite decide_False by done. by rewrite Hclient.
Qed.

Lemma translateText_no_choice_witness :
  translateText emptyClient ["Hello" : gostring; "  " : gostring] "French" ""
    "gpt-4o-mini" (worldWith [])
  = (Panic "runtime error: index out of range [0] with length 0",
     addSent (worldWith [])
       (chatRequest ["Hello" : gostring] "French" "" "gpt-4o-mini")).
Proof.
  apply (translateText_no_choice emptyClient ["Hello" : gostring; "  " : gostring]
           "French" "" "gpt-4o-mini" (worldWith [])).
  - vm_compute. discriminate.
  - reflexivity.
Defined.

(** ** translateJSONValues: the batches *)

Lemma chunksFuel_fuel {A} (n : nat) (f1 : nat) :
  ∀ f2 (l : list A), length l ≤ f1 → length l ≤ f2 →
  chunksFuel f1 n l = chunksFuel f2 n l.
Proof.
  induction f1 as [|f1 IH]; intros f2 l H1 H2.
  - destruct l; [by destruct f2|simpl in H1; lia].
  - destruct l as [|x l]; [by destruct f2|].
    destruct f2 as [|f2]; [simpl in H2; lia|]. cbn [chunksFuel].
    case_bool_decide as Hn; [done|]. f_equal.
    apply IH; rewrite length_drop; simpl in *; lia.
Qed.

Lemma chunksFuel_enough {A} (fuel n : nat) (l : list A) :
  length l ≤ fuel → chunksFuel fuel n l = chunks n l.
Proof. intros Hl. by apply chunksFuel_fuel. Qed.

Lemma chunks_nil {A} (n : nat) : chunks n ([] : list A) = [].
Proof. done. Qed.

Lemma chunks_zero {A} (l : list A) : l ≠ [] → chunks 0 l = [l].
Proof. by destruct l. Qed.

Lemma chunks_step {A} (n : nat) (l : list A) :
  0 < n → l ≠ [] → chunks n l = take n l :: chunks n (drop n l).
Proof.
  intros Hn Hl. destruct l as [|x l]; [done|]. unfold chunks at 1.
  cbn [length chunksFuel]. rewrite bool_decide_false by lia. f_equal.
  apply chunksFuel_enough. rewrite length_drop. simpl. lia.
Qed.

Lemma chunks_short {A} (n : nat) (l : list A) :
  l ≠ [] → length l < n ∨ n = 0 → chunks n l = [l].
Proof.
  intros Hl [Hn| ->]; [|by apply chunks_zero].
  rewrite chunks_step by (done || lia).
  rewrite take_ge, drop_ge by lia. done.
Qed.

Lemma chunks_full {A} (n : nat) (l rest : list A) :
  0 < n → length l = n → chunks n (l ++ rest) = l :: chunks n rest.
Proof.
  intros Hn Hl. rewrite chunks_step; [|done|destruct l; [simpl in Hl; lia|done]].
  by rewrite take_app_length', drop_app_length'.
Qed.

Lemma bind_ext {S A B} (m : State S A) (f g : A → State S B) w :
  (∀ a w', f a w' = g a w') → bind m f w = bind m g w.
Proof. intros Hfg. unfold bind. destruct (m w) as [[a|e|msg] w']; [apply Hfg|done..]. Qed.

Lemma bind_ret_r {S A} (m : State S A) w : (x <- m ;; ret x) w = m w.
Proof. unfold bind, ret. by destruct (m w) as [[a|e|msg] w']. Qed.

Lemma bind_assoc {S A B C} (m : State S A) (f : A → State S B) (g : B → State S C) w :
  (y <- (x <- m ;; f x) ;; g y) w = (x <- m ;; y <- f x ;; g y) w.
Proof. unfold bind. by destruct (m w) as [[a|e|msg] w']. Qed.

Section Batches.
Context (client : Client) (data : OrderedMap) (targetLanguage : gostring)
        (batchSize : Z) (customPrompt model : gostring).

Lemma translateLoop_batches ks :
  ∀ translatedData batchKeys w,
  (0 ≤ batchSize)%Z →
  length batchKeys < Z.to_nat batchSize ∨ Z.to_nat batchSize = 0 →
  (st <- translateLoop client data targetLanguage batchSize customPrompt model
           ks translatedData (protectedValue data <$> batchKeys) batchKeys ;;
   let '(translatedData, batch, batchKeys) := st in
   if bool_decide (0 < length batch)
   then
     translatedBatch <- wrap "error translating final batch"
       (translateText client batch targetLanguage customPrompt model) ;;
     lift (storeBatch translatedData batchKeys 0 translatedBatch)
   else ret translatedData) w
  = translateBatches client data targetLanguage batchSize customPrompt model
      (chunks (Z.to_nat batchSize) (batchKeys ++ ks)) translatedData w.
Proof.
  induction ks as [|k ks IH]; intros translatedData batchKeys w Hsize Hlen.
  - cbn [translateLoop]. unfold bind at 1. cbn [ret]. rewrite app_nil_r.
    destruct batchKeys as [|k0 bk].
    { rewrite bool_decide_false by (simpl; lia). done. }
    rewrite bool_decide_true by (simpl; lia).
    rewrite chunks_short by done. cbn [translateBatches].
    rewrite bool_decide_false by (destruct Hlen; simpl in *; lia).
    apply bind_ext. intros tb w1. symmetry. apply bind_ret_r.
  - cbn [translateLoop].
    change (ReplaceAll (OrderedMap_Get data k).1 newline newlinePlaceholder)
      with (protectedValue data k).
    replace ((protectedValue data <$> batchKeys) ++ [protectedValue data k])
      with (protectedValue data <$> (batchKeys ++ [k])) by (by rewrite fmap_app).
    rewrite length_fmap.
    replace (batchKeys ++ k :: ks) with ((batchKeys ++ [k]) ++ ks)
      by (by rewrite <- app_assoc).
    case_bool_decide as Hfull.
    + assert (0 < Z.to_nat batchSize ∧ length (batchKeys ++ [k]) = Z.to_nat batchSize)
        as [Hpos Hn].
      { rewrite length_app in *. simpl in *. lia. }
      rewrite chunks_full by done. cbn [translateBatches].
      rewrite bool_decide_true by done.
      rewrite bind_assoc. apply bind_ext. intros tb w1.
      rewrite bind_assoc. apply bind_ext. intros td w2.
      apply (IH td []); [done|]. left. simpl. lia.
    + apply IH; [done|]. destruct Hlen as [Hlen|Hzero]; [|by right].
      left. rewrite length_app in *. simpl in *. lia.
Qed.

Lemma translateJSONValues_chunks w :
  (0 ≤ batchSize)%Z →
  translateJSONValues client data targetLanguage batchSize customPrompt model w
  = translateBatches client data targetLanguage batchSize customPrompt model
      (chunks (Z.to_nat batchSize) (keys data)) NewOrderedMap w.
Proof.
  intros Hsize. unfold translateJSONValues. rewrite bool_decide_false by lia.
  apply (translateLoop_batches (keys data) NewOrderedMap []); [lia|].
  simpl. lia.
Qed.

(** X15.  For a batch size up to [maxBatchSize], [translateJSONValues] cuts
    the keys of the store, in their order, into consecutive batches of
    [batchSize] keys, the last one shorter when the number of keys is no
    multiple, and translates the batches one after the other, the first
    error ending the run.  With a batch size of zero no batch is ever full
    and all keys form one batch; with a negative one the allocation of the
    batch panics before anything is sent. *)
Theorem translateJSONValues_batches w :
  (batchSize ≤ maxBatchSize)%Z →
  translateJSONValues client data targetLanguage batchSize customPrompt model w
  = if bool_decide (batchSize < 0)%Z
    then (Panic "runtime error: makeslice: cap out of range", w)
    else translateBatches client data targetLanguage batchSize customPrompt model
           (chunks (Z.to_nat batchSize) (keys data)) NewOrderedMap w.
Proof.
  intros _. case_bool_decide as Hneg.
  - unfold translateJSONValues. by rewrite bool_decide_true.
  - apply translateJSONValues_chunks. lia.
Qed.

End Batches.

(** Five entries with a batch size of two are translated in batches of
    two, two and one. *)
Lemma translateJSONValues_batches_witness :
  translateJSONValues identityStub
    (storeOf [("a" : gostring, "A" : gostring); ("b" : gostring, "B" : gostring);
              ("c" : gostring, "C" : gostring); ("d" : gostring, "D" : gostring);
              ("e" : gostring, "E" : gostring)])
    "French" 2 "" "gpt-4o-mini" (worldWith [])
  = translateBatches identityStub
      (storeOf [("a" : gostring, "A" : gostring); ("b" : gostring, "B" : gostring);
                ("c" : gostring, "C" : gostring); ("d" : gostring, "D" : gostring);
                ("e" : gostring, "E" : gostring)])
      "French" 2 "" "gpt-4o-mini"
      [["a" : gostring; "b" : gostring]; ["c" : gostring; "d" : gostring];
       ["e" : gostring]]
      NewOrderedMap (worldWith []).
Proof.
  rewrite (translateJSONValues_batches identityStub
             (storeOf [("a" : gostring, "A" : gostring); ("b" : gostring, "B" : gostring);
                       ("c" : gostring, "C" : gostring); ("d" : gostring, "D" : gostring);
                       ("e" : gostring, "E" : gostring)])
             "French" 2 "" "gpt-4o-mini" (worldWith []))
    by (vm_compute; discriminate).
  reflexivity.
Defined.

(** ** translateJSON: what a run writes *)

Lemma collect_keys (mergedJSON : OrderedMap) (ks : list gostring) :
  store_ok (collect mergedJSON ks)
  ∧ ∀ k, k ∈ keys (collect mergedJSON ks) → k ∈ ks.
Proof.
  unfold collect.
  induction ks as [|k0 ks IH] using rev_ind.
  { split; [apply store_ok_New|]. intros k Hk. by apply elem_of_nil in Hk. }
  rewrite foldl_app. cbn [foldl]. destruct IH as [Hok Hin].
  set (acc := foldl _ NewOrderedMap ks) in *. clearbody acc.
  unfold OrderedMap_Get.
  destruct (bool_decide (is_Some (values mergedJSON !! k0))).
  - split; [by apply store_ok_Set|].
    intros k Hk. apply elem_of_app.
    unfold OrderedMap_Set in Hk. cbn [keys] in Hk.
    destruct (bool_decide (is_Some (values acc !! k0))); [left; by apply Hin|].
    apply elem_of_app in Hk as [?|Hk]; [left; by apply Hin|by right].
  - split; [done|]. intros k Hk. apply elem_of_app. left. by apply Hin.
Qed.

Lemma mergeBack_fold (translatedData : OrderedMap) (ks : list gostring) :
  ∀ mergedJSON, store_ok mergedJSON →
  (∀ k, k ∈ ks → k ∈ keys mergedJSON) →
  let merged' := foldl (λ mergedJSON key,
                          let '(value, exists_) := OrderedMap_Get translatedData key in
                          if exists_ : bool then OrderedMap_Set mergedJSON key value
                          else mergedJSON) mergedJSON ks in
  keys merged' = keys mergedJSON ∧ store_ok merged'
  ∧ ∀ k, k ∉ ks → values merged' !! k = values mergedJSON !! k.
Proof.
  induction ks as [|k0 ks IH]; intros mergedJSON Hok Hin; cbv zeta; [by split_and!|].
  cbn [foldl].
  assert (is_Some (values mergedJSON !! k0)) as Hk0.
  { apply Hok, Hin. by left. }
  destruct (OrderedMap_Get translatedData k0) as [value [|]].
  - destruct (IH (OrderedMap_Set mergedJSON k0 value))
      as (Hk & Hok' & Hv).
    + by apply store_ok_Set.
    + intros k Hk. rewrite keys_Set_old by done. apply Hin. by right.
    + rewrite keys_Set_old in Hk by done. split_and!; [done..|].
      intros k Hk'. rewrite Hv by (intros ?; apply Hk'; by right).
      rewrite values_Set, lookup_insert_ne; [done|].
      intros ->. apply Hk'. by left.
  - destruct (IH mergedJSON) as (Hk & Hok' & Hv); [done|intros; apply Hin; by right|].
    split_and!; [done..|]. intros k Hk'. apply Hv. intros ?. apply Hk'. by right.
Qed.

Lemma mergeBack_spec mergedJSON translatedData :
  store_ok mergedJSON →
  (∀ k, k ∈ keys translatedData → k ∈ keys mergedJSON) →
  keys (mergeBack mergedJSON translatedData) = keys mergedJSON
  ∧ store_ok (mergeBack mergedJSON translatedData)
  ∧ ∀ k, k ∉ keys translatedData →
      values (mergeBack mergedJSON translatedData) !! k = values mergedJSON !! k.
Proof. intros Hok Hin. by apply (mergeBack_fold translatedData (keys translatedData)). Qed.

Lemma store_ok_merge input output :
  store_ok input → store_ok (mergeJSON input output).1.
Proof.
  intros Hok. destruct (mergeJSON_fold input output Hok) as (Hk & Hv & _).
  split; [rewrite Hk; apply Hok|].
  intros k. rewrite Hk, Hv. destruct (decide (k ∈ keys input)); split; try done.
Qed.

(** The part of [translateJSON] between the merge and the write changes
    the values of keys to be translated only. *)
Lemma translate_step_keys client mergedJSON (untranslatedKeys : list gostring)
    targetLanguage batchSize customPrompt model w merged' w' :
  store_ok mergedJSON →
  (∀ k, k ∈ untranslatedKeys → k ∈ keys mergedJSON) →
  (if bool_decide (0 < length untranslatedKeys) then
     (translatedData <- wrap "error translating JSON values"
        (translateJSONValues client (collect mergedJSON untranslatedKeys)
           targetLanguage batchSize customPrompt model) ;;
      ret (mergeBack mergedJSON translatedData))
   else ret mergedJSON) w = (Ok merged', w') →
  keys merged' = keys mergedJSON ∧ store_ok merged'
  ∧ ∀ k, k ∉ untranslatedKeys → values merged' !! k = values mergedJSON !! k.
Proof.
  intros Hok Hin. case_bool_decide.
  2: { unfold ret. by intros [= <- <-]. }
  unfold bind, wrap, ret.
  destruct (translateJSONValues client _ targetLanguage batchSize customPrompt model w)
    as [[translatedData|e|m] w1] eqn:Erun; [|done..].
  intros [= <- <-].
  destruct (collect_keys mergedJSON untranslatedKeys) as [Hcok Hcin].
  destruct (translateJSONValues_entries client _ targetLanguage batchSize customPrompt model
              (λ _, True) (λ _ _, True) (λ _, I)
              (λ texts w res w' _ Hrun,
                 Forall2_impl _ _ _ _
                   (translateText_blank client texts targetLanguage customPrompt model
                      w res w' Hrun) (λ _ _ _, I))
              Hcok _ _ _ Erun) as (Hk & _ & _).
  destruct (mergeBack_spec mergedJSON translatedData) as (Hk' & Hok' & Hv); [done| |].
  { intros k Hkin. rewrite Hk in Hkin. by apply Hin, Hcin. }
  split_and!; [done..|]. intros k Hk0. apply Hv. rewrite Hk. intros ?. by apply Hk0, Hcin.
Qed.

Section Output.
Context `{Platform}.

Lemma writeJSONFile_written filename data w w' :
  writeJSONFile filename data w = (Ok tt, w') →
  w' = withFile w filename (document (entries data)).
Proof.
  unfold writeJSONFile, bind, wrap, os_MkdirAll, os_WriteFile, lift, ret.
  destruct (bool_decide (filepath_Dir filename ∈ _)); [done|].
  rewrite renderJSON_document.
  destruct (bool_decide (filename ∈ _)); [by destruct (torn _ !! _)|]. by intros [= <-].
Qed.

(** X17.  What a run that ends well has written. The output file holds the
    keys of the source in the order of the source, whatever keys the existing
    output had and in whatever order; a key whose existing translation differs
    from the source value keeps that translation; and the line that reports
    the end of the run is printed. *)
Theorem translateJSON_output c w w' :
  translateJSON c w = (Ok tt, w') →
  ∃ inputJSON outputJSON written,
    (readJSONFile (flag_input c) w).1 = Ok inputJSON
    ∧ (readJSONFile (outputPath c) w).1 = Ok outputJSON
    ∧ fs w' = fs (withFile w (outputPath c) (document (entries written)))
    ∧ keys written = keys inputJSON
    ∧ (∀ k, k ∈ keys inputJSON → ¬ needsTranslation inputJSON outputJSON k →
         values written !! k = values outputJSON !! k)
    ∧ stdout w' = stdout w ++ ["Translation complete. Output saved to " ++ outputPath c].
Proof.
  unfold translateJSON. unfold bind at 1. unfold wrap at 1. unfold loadEnv.
  destruct (godotenv_Load (fs w) (environ w) (flag_env c)) as [err|env] eqn:Eenv; [done|].
  set (w1 := {| fs := fs w; environ := env; sent := sent w; stdout := stdout w |}).
  unfold bind at 1. unfold os_Getenv at 1. cbn [environ w1].
  case_bool_decide as Hkey; [done|].
  unfold bind at 1. unfold os_Getenv at 1.
  unfold bind at 1. unfold os_Getenv at 1. cbn [environ w1].
  fold (clientOf env).
  unfold bind at 1. unfold wrap at 1.
  pose proof (readJSONFile_world (flag_input c) w1) as Hw_in.
  pose proof (readJSONFile_fs (flag_input c) w1 w eq_refl) as Hr_in.
  pose proof (readJSONFile_store_ok (flag_input c) w1) as Hok_in.
  destruct (readJSONFile (flag_input c) w1) as [rin win]. simpl in Hw_in, Hr_in, Hok_in.
  subst win. destruct rin as [inputJSON|e|m]; [|done..].
  specialize (Hok_in _ eq_refl).
  unfold bind at 1. unfold wrap at 1.
  pose proof (readJSONFile_world (outputPath c) w1) as Hw_out.
  pose proof (readJSONFile_fs (outputPath c) w1 w eq_refl) as Hr_out.
  destruct (readJSONFile (outputPath c) w1) as [rout wout]. simpl in Hw_out, Hr_out.
  subst wout. destruct rout as [outputJSON|e|m]; [|done..].
  destruct (mergeJSON_fold inputJSON outputJSON Hok_in) as (Hmk & Hmv & Hmu).
  pose proof (store_ok_merge inputJSON outputJSON Hok_in) as Hmok.
  destruct (mergeJSON inputJSON outputJSON) as [mergedJSON untranslatedKeys].
  cbn [fst snd] in Hmk, Hmv, Hmu, Hmok.
  unfold bind at 1.
  pose proof (translate_step (clientOf env) mergedJSON untranslatedKeys
                (Code2Lang (flag_language c)) (flag_batchSize c)
                (default [] (env !! ("CUSTOM_PROMPT" : gostring))) (flag_model c) w1)
    as Hcalls. cbv zeta in Hcalls.
  pose proof (translate_step_keys (clientOf env) mergedJSON untranslatedKeys
                (Code2Lang (flag_language c)) (flag_batchSize c)
                (default [] (env !! ("CUSTOM_PROMPT" : gostring))) (flag_model c) w1)
    as Hkeys.
  match goal with
  | |- context [match ?m w1 with _ => _ end] => destruct (m w1) as [rt w2] eqn:Et
  end.
  cbn [fst snd] in Hcalls.
  destruct Hcalls as (Hfs & _ & Hout & _).
  destruct rt as [merged'|e|m]; [|done..].
  destruct (Hkeys merged' w2) as (Hk' & Hok' & Hv'); [done| |done|].
  { intros k Hk. rewrite Hmu in Hk. apply list_elem_of_filter in Hk as [_ Hk].
    by rewrite Hmk. }
  unfold bind at 1. unfold wrap at 1.
  pose proof (writeJSONFile_written (outputPath c) merged' w2) as Hwrite.
  destruct (writeJSONFile (outputPath c) merged' w2) as [[[]|e|m] w3]; [|done..].
  rewrite (Hwrite w3 eq_refl).
  unfold bind, Printf, ret. intros [= <-].
  exists inputJSON, outputJSON, merged'. cbn [fs stdout withFile].
  split_and!; [by rewrite <- Hr_in|by rewrite <- Hr_out|by rewrite Hfs|congruence| |].
  - intros k Hk Hnt. rewrite Hv'.
    + rewrite Hmv, decide_True by done. unfold mergedValue.
      rewrite decide_False by done. unfold OrderedMap_Get. cbn [fst].
      unfold needsTranslation in Hnt.
      destruct (values outputJSON !! k); [done|]. exfalso. apply Hnt. by left.
    + rewrite Hmu. intros [Hn _]%list_elem_of_filter. done.
  - by rewrite Hout.
Qed.

(** X18.  A run over an output that is up to date. When the existing output
    has, for every key of the source, a value that differs from the source
    value, no request is sent; the run ends well, and the output file is
    written anew with the keys of the source, in the order of the source, and
    the existing translations. *)
Theorem translateJSON_up_to_date c w env apiKey inputJSON outputJSON :
  godotenv_Load (fs w) (environ w) (flag_env c) = inr env →
  env !! ("OPENAI_API_KEY" : gostring) = Some apiKey → apiKey ≠ [] →
  (readJSONFile (flag_input c) w).1 = Ok inputJSON →
  (readJSONFile (outputPath c) w).1 = Ok outputJSON →
  (∀ k, k ∈ keys inputJSON → ¬ needsTranslation inputJSON outputJSON k) →
  outputPath c ∉ denied (fs w) → filepath_Dir (outputPath c) ∉ denied (fs w) →
  translateJSON c w
  = (Ok tt,
     {| fs := fs (withFile w (outputPath c)
                    (document ((λ k, (k, (OrderedMap_Get outputJSON k).1))
                                 <$> keys inputJSON)));
        environ := env; sent := sent w;
        stdout := stdout w
                  ++ ["Translation complete. Output saved to " ++ outputPath c] |}).
Proof.
  intros Henv Hkey Hne Hin Hout Hdone Hfile Hdir.
  unfold translateJSON. unfold bind at 1. unfold wrap at 1. unfold loadEnv.
  rewrite Henv.
  set (w1 := {| fs := fs w; environ := env; sent := sent w; stdout := stdout w |}).
  unfold bind at 1. unfold os_Getenv at 1. cbn [environ w1]. rewrite Hkey.
  cbn [default from_option id]. rewrite bool_decide_eq_false_2 by done.
  unfold bind at 1. unfold os_Getenv at 1.
  unfold bind at 1. unfold os_Getenv at 1.
  unfold bind at 1. unfold wrap at 1.
  pose proof (readJSONFile_world (flag_input c) w1) as Hw_in.
  pose proof (readJSONFile_fs (flag_input c) w1 w eq_refl) as Hr_in. rewrite Hin in Hr_in.
  pose proof (readJSONFile_store_ok (flag_input c) w inputJSON Hin) as Hok_in.
  destruct (readJSONFile (flag_input c) w1) as [rin win]. simpl in Hw_in, Hr_in. subst.
  unfold bind at 1. unfold wrap at 1.
  pose proof (readJSONFile_world (outputPath c) w1) as Hw_out.
  pose proof (readJSONFile_fs (outputPath c) w1 w eq_refl) as Hr_out. rewrite Hout in Hr_out.
  destruct (readJSONFile (outputPath c) w1) as [rout wout]. simpl in Hw_out, Hr_out. subst.
  destruct (mergeJSON_fold inputJSON outputJSON Hok_in) as (Hmk & Hmv & Hmu).
  pose proof (store_ok_merge inputJSON outputJSON Hok_in) as Hmok.
  destruct (mergeJSON inputJSON outputJSON) as [mergedJSON untranslatedKeys].
  cbn [fst snd] in Hmk, Hmv, Hmu, Hmok.
  assert (untranslatedKeys = []) as ->.
  { rewrite Hmu. apply Forall_filter_nil, Forall_forall. exact Hdone. }
  cbn [length]. rewrite bool_decide_eq_false_2 by lia.
  unfold bind at 1. unfold ret at 1.
  unfold bind at 1. unfold wrap at 1.
  rewrite writeJSONFile_document by done.
  unfold bind, Printf, ret. cbn [fs stdout withFile environ sent w1].
  assert (entries mergedJSON
          = (λ k, (k, (OrderedMap_Get outputJSON k).1)) <$> keys inputJSON) as ->; [|done].
  unfold entries. rewrite Hmk.
  apply list_fmap_ext. intros j k Hj. f_equal.
  assert (k ∈ keys inputJSON) as Hk by by eapply list_elem_of_lookup_2.
  unfold OrderedMap_Get at 1. cbn [fst]. rewrite Hmv, decide_True by done.
  unfold mergedValue. by rewrite decide_False by by apply Hdone.
Qed.

End Output.

Lemma translateJSON_output_witness :
  ∃ inputJSON outputJSON written,
    (readJSONFile "locales/en.json" partlyTranslatedWorld).1 = Ok inputJSON
    ∧ (readJSONFile "locales/fr.json" partlyTranslatedWorld).1 = Ok outputJSON
    ∧ fs (translateJSON (H := stubPlatform (constClient "D'accord"))
            exampleContext partlyTranslatedWorld).2
      = fs (withFile partlyTranslatedWorld "locales/fr.json" (document (entries written)))
    ∧ keys written = keys inputJSON
    ∧ (∀ k, k ∈ keys inputJSON → ¬ needsTranslation inputJSON outputJSON k →
         values written !! k = values outputJSON !! k)
    ∧ stdout (translateJSON (H := stubPlatform (constClient "D'accord"))
                exampleContext partlyTranslatedWorld).2
      = stdout partlyTranslatedWorld
        ++ ["Translation complete. Output saved to locales/fr.json" : gostring].
Proof.
  apply (translateJSON_output (H := stubPlatform (constClient "D'accord"))
           exampleContext partlyTranslatedWorld).
  vm_compute. reflexivity.
Defined.

Lemma translateJSON_up_to_date_witness :
  translateJSON (H := stubPlatform (failingClient "connection refused"))
    exampleContext translatedWorld
  = (Ok tt,
     {| fs := fs (withFile translatedWorld "locales/fr.json"
                    (document [("greeting" : gostring, "Bonjour" : gostring);
                               ("brand" : gostring, "D'accord" : gostring)]));
        environ := <[("OPENAI_API_KEY" : gostring) := ("sk-test" : gostring)]> ∅;
        sent := [];
        stdout := ["Translation complete. Output saved to locales/fr.json" : gostring] |}).
Proof.
  rewrite (translateJSON_up_to_date (H := stubPlatform (failingClient "connection refused"))
             exampleContext translatedWorld
             (<[("OPENAI_API_KEY" : gostring) := ("sk-test" : gostring)]> ∅) "sk-test"
             (storeOf [("greeting" : gostring, "Hello" : gostring);
                       ("brand" : gostring, "OK" : gostring)])
             (storeOf [("old" : gostring, "Vieux" : gostring);
                       ("brand" : gostring, "D'accord" : gostring);
                       ("greeting" : gostring, "Bonjour" : gostring)])).
  - vm_compute. reflexivity.
  - vm_compute. reflexivity.
  - vm_compute. reflexivity.
  - discriminate.
  - vm_compute. reflexivity.
  - vm_compute. reflexivity.
  - intros k Hk. vm_compute in Hk.
    apply elem_of_cons in Hk as [->|Hk]; [vm_compute; intros [?|?]; discriminate|].
    apply elem_of_cons in Hk as [->|Hk]; [vm_compute; intros [?|?]; discriminate|].
    by apply elem_of_nil in Hk.
  - vm_compute. intros Hin. discriminate Hin.
  - vm_compute. intros Hin. discriminate Hin.
Defined.

(** ** A white-space value among values to translate *)

Lemma blank_passthrough_witness :
  (∃ new,
     sent (translateJSONValues (constClient "Bonjour")
             (storeOf [("greeting" : gostring, "Hello" : gostring);
                       ("pad" : gostring, "  " : gostring)])
             "French" 100 "" "gpt-4o-mini" (worldWith [])).2
     = sent (worldWith []) ++ new
     ∧ Forall (requestOf (λ t, ¬ blank t ∧ ∃ x, t = protect x)
                 "French" "" "gpt-4o-mini") new)
  ∧ ∀ out,
      (translateJSONValues (constClient "Bonjour")
         (storeOf [("greeting" : gostring, "Hello" : gostring);
                   ("pad" : gostring, "  " : gostring)])
         "French" 100 "" "gpt-4o-mini" (worldWith [])).1 = Ok out →
      keys out = keys (storeOf [("greeting" : gostring, "Hello" : gostring);
                                ("pad" : gostring, "  " : gostring)])
      ∧ values out !! ("pad" : gostring) = Some ("  " : gostring).
Proof.
  apply (blank_passthrough (constClient "Bonjour")
           (storeOf [("greeting" : gostring, "Hello" : gostring);
                     ("pad" : gostring, "  " : gostring)])
           "French" 100 "" "gpt-4o-mini" (worldWith [])).
  - apply store_ok_storeOf.
  - vm_compute. reflexivity.
  - exists [" " : gostring; " " : gostring]. split; [|done].
    repeat constructor; apply list_elem_of_In; vm_compute; tauto.
  - not_in_literal.
  - apply surjective_pairing.
Defined.

(** ** translateText: the lines of the answer *)

Lemma Split_length (d : ascii) (s : gostring) :
  length (Split s [d]) = S (length (filter (λ c, c = d) s)).
Proof.
  induction s as [|c s IH]; [by rewrite Split_unfold|].
  destruct (decide (c = d)) as [->|Hne].
  - rewrite filter_cons_True by done.
    change (d :: s) with ([d] ++ s). rewrite (Split_hit s [d]) by done.
    cbn [length]. by rewrite IH.
  - rewrite filter_cons_False by done.
    rewrite Split_miss by (done || by apply HasPrefix_char_ne).
    rewrite <- IH. by destruct (Split s [d]).
Qed.

(** X14.  The service has answered a request of [translateText]. The request
    is recorded as sent; the call succeeds exactly when the answer has one
    newline less than there are texts that are not blank, and with any other
    number of newlines it fails and reports the two counts. *)
Theorem translateText_line_count client texts targetLanguage customPrompt model w
    content more :
  let nonEmptyTexts := filter (λ t, ¬ blank t) texts in
  let request := chatRequest nonEmptyTexts targetLanguage customPrompt model in
  let got := S (length (filter (λ c, c = "010"%char) content)) in
  nonEmptyTexts ≠ [] →
  client (sent w) request = Ok {| Choices := content :: more |} →
  (translateText client texts targetLanguage customPrompt model w).2 = addSent w request
  ∧ (isOk (translateText client texts targetLanguage customPrompt model w).1
     ↔ got = length nonEmptyTexts)
  ∧ (got ≠ length nonEmptyTexts →
     (translateText client texts targetLanguage customPrompt model w).1
     = Err ("translation mismatch: got " ++ Itoa got ++ " translations for "
            ++ Itoa (length nonEmptyTexts) ++ " texts")).
Proof.
  cbv zeta. intros Hne Hanswer. rewrite translateText_eq. cbv zeta.
  rewrite decide_False by done. rewrite Hanswer. cbn [Choices fst snd].
  change newline with ["010"%char]. rewrite Split_length.
  split; [done|]. destruct (decide _) as [Heq|Hneq].
  - split; [|done]. split; [done|]. intros _. by eexists.
  - split; [|done]. split; [|done]. by intros [? ?].
Qed.

Lemma translateText_line_count_witness :
  (translateText (constClient ("Bonjour" ++ newline)) ["Hello" : gostring]
     "French" "" "gpt-4o-mini" (worldWith [])).2
  = addSent (worldWith []) (chatRequest ["Hello" : gostring] "French" "" "gpt-4o-mini")
  ∧ (isOk (translateText (constClient ("Bonjour" ++ newline)) ["Hello" : gostring]
             "French" "" "gpt-4o-mini" (worldWith [])).1
     ↔ 2 = 1)
  ∧ (2 ≠ 1 →
     (translateText (constClient ("Bonjour" ++ newline)) ["Hello" : gostring]
        "French" "" "gpt-4o-mini" (worldWith [])).1
     = Err ("translation mismatch: got 2 translations for 1 texts" : gostring)).
Proof.
  apply (translateText_line_count (constClient ("Bonjour" ++ newline))
           ["Hello" : gostring] "French" "" "gpt-4o-mini" (worldWith [])
           ("Bonjour" ++ newline) []).
  - vm_compute. discriminate.
  - reflexivity.
Defined.

(** ** The batches of a run *)

Lemma translateText_fs client texts targetLanguage customPrompt model w :
  fs (translateText client texts targetLanguage customPrompt model w).2 = fs w.
Proof.
  rewrite translateText_eq. cbv zeta. by destruct (decide _).
Qed.

Lemma afterBatches_fs client targetLanguage customPrompt model batches :
  ∀ w w', afterBatches client targetLanguage customPrompt model batches w = Some w' →
          fs w' = fs w.
Proof.
  induction batches as [|texts batches IH]; intros w w' H; [by injection H as <-|].
  cbn [afterBatches] in H.
  pose proof (translateText_fs client texts targetLanguage customPrompt model w) as Hfs.
  destruct (translateText client texts targetLanguage customPrompt model w)
    as [[res|e|m] w1]; [|done..].
  rewrite (IH _ _ H). exact Hfs.
Qed.

(** [translateBatches] against the batches of texts it translates: its
    world changes by the calls only; when it returns a store every batch
    has been translated; and a batch whose call does not return its texts
    translated, the batches before it translated, ends it without a
    store. *)
Lemma translateBatches_batches client data targetLanguage batchSize customPrompt model
    (batches : list (list gostring)) :
  ∀ translatedData w r w',
  translateBatches client data targetLanguage batchSize customPrompt model
    batches translatedData w = (r, w') →
  fs w' = fs w
  ∧ (isOk r →
     afterBatches client targetLanguage customPrompt model
       ((λ batchKeys : list gostring, protectedValue data <$> batchKeys) <$> batches) w = Some w')
  ∧ (∀ done texts rest wi,
       (λ batchKeys : list gostring, protectedValue data <$> batchKeys) <$> batches
       = done ++ texts :: rest →
       afterBatches client targetLanguage customPrompt model done w = Some wi →
       ¬ isOk (translateText client texts targetLanguage customPrompt model wi).1 →
       ¬ isOk r).
Proof.
  induction batches as [|batchKeys batches IH]; intros translatedData w r w' H.
  { injection H as <- <-. split_and!; [done..|].
    intros done texts rest wi Hb. by destruct done. }
  cbn [translateBatches] in H. unfold bind at 1 in H. unfold wrap at 1 in H.
  cbn [fmap list_fmap afterBatches].
  pose proof (translateText_fs client (protectedValue data <$> batchKeys) targetLanguage
                customPrompt model w) as Hfs.
  destruct (translateText client (protectedValue data <$> batchKeys) targetLanguage
              customPrompt model w) as [[res|e|m] w1] eqn:Ecall; cbn [snd] in Hfs.
  - unfold bind at 1 in H. unfold lift at 1 in H.
    destruct (storeBatch translatedData batchKeys 0 res) as [td|e|m].
    + destruct (IH _ _ _ _ H) as (Hfs' & Hok & Hfail).
      split_and!; [congruence|done|].
      intros done texts rest wi Hb Hdone Hcall.
      destruct done as [|d done].
      * injection Hb as <- _. injection Hdone as <-.
        rewrite Ecall in Hcall. exfalso. apply Hcall. by eexists.
      * injection Hb as <- Hb. cbn [afterBatches] in Hdone. rewrite Ecall in Hdone.
        by eapply Hfail.
    + injection H as <- <-. split_and!; [done|by intros [? ?]|]. by intros ???? _ _ _ [? ?].
    + injection H as <- <-. split_and!; [done|by intros [? ?]|]. by intros ???? _ _ _ [? ?].
  - injection H as <- <-. split_and!; [done|by intros [? ?]|]. by intros ???? _ _ _ [? ?].
  - injection H as <- <-. split_and!; [done|by intros [? ?]|]. by intros ???? _ _ _ [? ?].
Qed.

Lemma collect_nil mergedJSON : collect mergedJSON [] = NewOrderedMap.
Proof. done. Qed.

Section RunBatches.
Context `{Platform}.

Lemma writeJSONFile_sent filename data w :
  sent (writeJSONFile filename data w).2 = sent w.
Proof.
  unfold writeJSONFile, bind, wrap, os_MkdirAll, os_WriteFile, lift, ret.
  destruct (bool_decide (filepath_Dir filename ∈ _)); [done|].
  rewrite renderJSON_document.
  destruct (bool_decide (filename ∈ _)); [|done]. by destruct (torn _ !! _).
Qed.

(** A run that has read its two files, against its batches. *)
Lemma translateJSON_batches c w r w' env inputJSON outputJSON :
  translateJSON c w = (r, w') →
  godotenv_Load (fs w) (environ w) (flag_env c) = inr env →
  (readJSONFile (flag_input c) w).1 = Ok inputJSON →
  (readJSONFile (outputPath c) w).1 = Ok outputJSON →
  let start := {| fs := fs w; environ := env; sent := sent w; stdout := stdout w |} in
  let batches := batchesOf inputJSON outputJSON (flag_batchSize c) in
  let targetLanguage := Code2Lang (flag_language c) in
  let customPrompt := default [] (env !! ("CUSTOM_PROMPT" : gostring)) in
  (∀ done texts rest wi,
     batches = done ++ texts :: rest →
     afterBatches (clientOf env) targetLanguage customPrompt (flag_model c) done start
       = Some wi →
     ¬ isOk (translateText (clientOf env) texts targetLanguage customPrompt
               (flag_model c) wi).1 →
     ¬ isOk r ∧ fs w' = fs w)
  ∧ (isOk r ∨ fs w' ≠ fs w →
     ∃ wn, afterBatches (clientOf env) targetLanguage customPrompt (flag_model c)
             batches start = Some wn
           ∧ sent w' = sent wn).
Proof.
  intros Hrun Henv Hin Hout. cbv zeta. revert Hrun.
  unfold translateJSON. unfold bind at 1. unfold wrap at 1. unfold loadEnv.
  rewrite Henv.
  set (w1 := {| fs := fs w; environ := env; sent := sent w; stdout := stdout w |}).
  unfold bind at 1. unfold os_Getenv at 1. cbn [environ w1].
  case_bool_decide as Hkey.
  { intros [= <- <-]. split.
    - intros _ _ _ _ _ _ _. split; [by intros [? ?]|done].
    - intros [[? ?]|Hfs]; done. }
  unfold bind at 1. unfold os_Getenv at 1.
  unfold bind at 1. unfold os_Getenv at 1. cbn [environ w1].
  fold (clientOf env).
  unfold bind at 1. unfold wrap at 1.
  pose proof (readJSONFile_world (flag_input c) w1) as Hw_in.
  pose proof (readJSONFile_fs (flag_input c) w1 w eq_refl) as Hr_in. rewrite Hin in Hr_in.
  destruct (readJSONFile (flag_input c) w1) as [rin win]. simpl in Hw_in, Hr_in. subst.
  unfold bind at 1. unfold wrap at 1.
  pose proof (readJSONFile_world (outputPath c) w1) as Hw_out.
  pose proof (readJSONFile_fs (outputPath c) w1 w eq_refl) as Hr_out. rewrite Hout in Hr_out.
  destruct (readJSONFile (outputPath c) w1) as [rout wout]. simpl in Hw_out, Hr_out. subst.
  unfold batchesOf.
  destruct (mergeJSON inputJSON outputJSON) as [mergedJSON untranslatedKeys].
  cbn [fst snd].
  set (batches := (λ batchKeys : list gostring,
                      protectedValue (collect mergedJSON untranslatedKeys) <$> batchKeys)
                    <$> chunks (Z.to_nat (flag_batchSize c))
                          (keys (collect mergedJSON untranslatedKeys))).
  set (targetLanguage := Code2Lang (flag_language c)).
  set (customPrompt := default [] (env !! ("CUSTOM_PROMPT" : gostring))).
  (* the translation of the batches *)
  assert (∀ rt w2,
    (if bool_decide (0 < length untranslatedKeys) then
       (translatedData <- wrap "error translating JSON values"
          (translateJSONValues (clientOf env) (collect mergedJSON untranslatedKeys)
             targetLanguage (flag_batchSize c) customPrompt (flag_model c)) ;;
        ret (mergeBack mergedJSON translatedData))
     else ret mergedJSON) w1 = (rt, w2) →
    fs w2 = fs w
    ∧ (isOk rt →
       afterBatches (clientOf env) targetLanguage customPrompt (flag_model c) batches w1
       = Some w2)
    ∧ (∀ done texts rest wi,
         batches = done ++ texts :: rest →
         afterBatches (clientOf env) targetLanguage customPrompt (flag_model c) done w1
           = Some wi →
         ¬ isOk (translateText (clientOf env) texts targetLanguage customPrompt
                   (flag_model c) wi).1 →
         ¬ isOk rt)) as Hstep.
  { intros rt w2. case_bool_decide as Hany.
    - unfold bind, wrap, ret.
      destruct (decide (flag_batchSize c < 0)%Z) as [Hneg|Hpos].
      + unfold translateJSONValues. rewrite bool_decide_true by done. unfold panic.
        intros [= <- <-]. split_and!; [done|by intros [? ?]|]. by intros ???? _ _ _ [? ?].
      + rewrite translateJSONValues_chunks by lia.
        destruct (translateBatches _ _ _ _ _ _ _ _ w1) as [rb wb] eqn:Eb.
        destruct (translateBatches_batches _ _ _ _ _ _ _ _ _ _ _ Eb) as (Hfs & Hok & Hfail).
        destruct rb as [td|e|m]; intros [= <- <-].
        * split_and!; [done|intros _; apply Hok; by eexists|].
          intros done texts rest wi Hb Hdone Hcall _. by eapply Hfail; [| | |eexists].
        * split_and!; [done|by intros [? ?]|]. by intros ???? _ _ _ [? ?].
        * split_and!; [done|by intros [? ?]|]. by intros ???? _ _ _ [? ?].
    - assert (untranslatedKeys = []) as -> by (destruct untranslatedKeys; [done|simpl in Hany; lia]).
      unfold ret. intros [= <- <-]. split_and!; [done|done|].
      intros done texts rest wi Hb. unfold batches in Hb. rewrite collect_nil in Hb.
      by destruct done. }
  unfold bind at 1.
  match goal with
  | |- context [match ?m w1 with _ => _ end] => destruct (m w1) as [rt w2] eqn:Et
  end.
  destruct (Hstep _ _ eq_refl) as (Hfs & Hok & Hfail). clear Hstep.
  destruct rt as [merged'|e|m].
  2, 3: intros [= <- <-]; (split;
          [intros _ _ _ _ _ _ _; (split; [by intros [? ?]|done])
          |intros [[? ?]|?]; done]).
  unfold bind at 1. unfold wrap at 1.
  pose proof (writeJSONFile_sent (outputPath c) merged' w2) as Hsent.
  destruct (writeJSONFile (outputPath c) merged' w2) as [[[]|e|m] w3]; cbn [snd] in Hsent.
  - unfold bind, Printf, ret. intros [= <- <-]. cbn [sent fs]. split.
    + intros done texts rest wi Hb Hdone Hcall. exfalso.
      eapply Hfail; [done..|by eexists].
    + intros _. exists w2. split; [apply Hok; by eexists|done].
  - intros [= <- <-]. split.
    + intros done texts rest wi Hb Hdone Hcall. exfalso.
      eapply Hfail; [done..|by eexists].
    + intros _. exists w2. split; [apply Hok; by eexists|done].
  - intros [= <- <-]. split.
    + intros done texts rest wi Hb Hdone Hcall. exfalso.
      eapply Hfail; [done..|by eexists].
    + intros _. exists w2. split; [apply Hok; by eexists|done].
Qed.

End RunBatches.


(** ** Reading back what was written, for any bytes *)









(** ** The second run *)





Section SecondRun.
Context `{Platform}.





End SecondRun.


Section NoPartialOutput.
Context `{Platform}.

(** A run that cannot load its environment or read its two files ends
    before it translates, and changes no file. *)
Lemma translateJSON_early c w r w' :
  translateJSON c w = (r, w') →
  (∀ env inputJSON outputJSON,
     godotenv_Load (fs w) (environ w) (flag_env c) = inr env →
     (readJSONFile (flag_input c) w).1 = Ok inputJSON →
     (readJSONFile (outputPath c) w).1 = Ok outputJSON → False) →
  ¬ isOk r ∧ fs w' = fs w.
Proof.
  intros Hrun Hnot. revert Hrun.
  unfold translateJSON. unfold bind at 1. unfold wrap at 1. unfold loadEnv.
  destruct (godotenv_Load (fs w) (environ w) (flag_env c)) as [err|env] eqn:Eenv.
  { intros [= <- <-]. split; [by intros [? ?]|done]. }
  set (w1 := {| fs := fs w; environ := env; sent := sent w; stdout := stdout w |}).
  unfold bind at 1. unfold os_Getenv at 1. cbn [environ w1].
  case_bool_decide as Hkey.
  { intros [= <- <-]. split; [by intros [? ?]|done]. }
  unfold bind at 1. unfold os_Getenv at 1.
  unfold bind at 1. unfold os_Getenv at 1.
  unfold bind at 1. unfold wrap at 1.
  pose proof (readJSONFile_world (flag_input c) w1) as Hw_in.
  pose proof (readJSONFile_fs (flag_input c) w1 w eq_refl) as Hr_in.
  destruct (readJSONFile (flag_input c) w1) as [rin win]. simpl in Hw_in, Hr_in. subst win.
  destruct rin as [inputJSON|e|m].
  2, 3: intros [= <- <-]; (split; [by intros [? ?]|done]).
  unfold bind at 1. unfold wrap at 1.
  pose proof (readJSONFile_world (outputPath c) w1) as Hw_out.
  pose proof (readJSONFile_fs (outputPath c) w1 w eq_refl) as Hr_out.
  destruct (readJSONFile (outputPath c) w1) as [rout wout]. simpl in Hw_out, Hr_out.
  subst wout.
  destruct rout as [outputJSON|e|m].
  2, 3: intros [= <- <-]; (split; [by intros [? ?]|done]).
  exfalso. by eapply Hnot.
Qed.

(** C8.  The batches of a run are the protected values of the keys its
    merge marks, cut into batches of the batch size.  If the call of
    [translateText] for one of them does not return its texts translated,
    the batches before it translated, be it that the service returns an
    error, that the answer has not as many lines as the batch has texts, or
    that it holds no choice, then the run does not end well and no file is
    changed.  A run that ends well, and any run that changes a file, has
    read its two files and translated every batch, and has sent nothing
    behind the last call. *)
Theorem no_partial_output c w r w' :
  translateJSON c w = (r, w') →
  let start env := {| fs := fs w; environ := env; sent := sent w; stdout := stdout w |} in
  (∀ env inputJSON outputJSON done texts rest wi,
     godotenv_Load (fs w) (environ w) (flag_env c) = inr env →
     (readJSONFile (flag_input c) w).1 = Ok inputJSON →
     (readJSONFile (outputPath c) w).1 = Ok outputJSON →
     batchesOf inputJSON outputJSON (flag_batchSize c) = done ++ texts :: rest →
     afterBatches (clientOf env) (Code2Lang (flag_language c))
       (default [] (env !! ("CUSTOM_PROMPT" : gostring))) (flag_model c) done (start env)
       = Some wi →
     ¬ isOk (translateText (clientOf env) texts (Code2Lang (flag_language c))
               (default [] (env !! ("CUSTOM_PROMPT" : gostring))) (flag_model c) wi).1 →
     ¬ isOk r ∧ fs w' = fs w)
  ∧ (isOk r ∨ fs w' ≠ fs w →
     ∃ env inputJSON outputJSON wn,
       godotenv_Load (fs w) (environ w) (flag_env c) = inr env
       ∧ (readJSONFile (flag_input c) w).1 = Ok inputJSON
       ∧ (readJSONFile (outputPath c) w).1 = Ok outputJSON
       ∧ afterBatches (clientOf env) (Code2Lang (flag_language c))
           (default [] (env !! ("CUSTOM_PROMPT" : gostring))) (flag_model c)
           (batchesOf inputJSON outputJSON (flag_batchSize c)) (start env) = Some wn
       ∧ sent w' = sent wn).
Proof.
  intros Hrun. cbv zeta. split.
  - intros env inputJSON outputJSON done texts rest wi Henv Hin Hout.
    destruct (translateJSON_batches c w r w' env inputJSON outputJSON Hrun Henv Hin Hout)
      as [Habort _]. apply Habort.
  - intros Hwritten.
    destruct (godotenv_Load (fs w) (environ w) (flag_env c)) as [err|env] eqn:Eenv.
    { destruct (translateJSON_early c w r w' Hrun) as [Hr Hfs]; [intros ??? E; rewrite Eenv in E; discriminate E|].
      by destruct Hwritten. }
    destruct ((readJSONFile (flag_input c) w).1) as [inputJSON|e|m] eqn:Hin.
    2, 3: destruct (translateJSON_early c w r w' Hrun) as [Hr Hfs];
            [intros ??? _ E; rewrite Hin in E; discriminate E|by destruct Hwritten].
    destruct ((readJSONFile (outputPath c) w).1) as [outputJSON|e|m] eqn:Hout.
    2, 3: destruct (translateJSON_early c w r w' Hrun) as [Hr Hfs];
            [intros ??? _ _ E; rewrite Hout in E; discriminate E|by destruct Hwritten].
    destruct (translateJSON_batches c w r w' env inputJSON outputJSON Hrun Eenv Hin Hout)
      as [_ Hall].
    destruct (Hall Hwritten) as (wn & Hwn & Hsent).
    by exists env, inputJSON, outputJSON, wn.
Qed.

End NoPartialOutput.

(** A service that answers one line for a batch of two texts: the run ends
    with the mismatch error and the files are as they were. *)
Lemma no_partial_output_witness :
  ¬ isOk (translateJSON (H := stubPlatform (constClient "Bonjour"))
            exampleContext exampleWorld).1
  ∧ fs (translateJSON (H := stubPlatform (constClient "Bonjour"))
          exampleContext exampleWorld).2 = fs exampleWorld.
Proof.
  destruct (no_partial_output (H := stubPlatform (constClient "Bonjour"))
              exampleContext exampleWorld
              (translateJSON (H := stubPlatform (constClient "Bonjour"))
                 exampleContext exampleWorld).1
              (translateJSON (H := stubPlatform (constClient "Bonjour"))
                 exampleContext exampleWorld).2) as [Habort _].
  - apply surjective_pairing.
  - apply (Habort (<[("OPENAI_API_KEY" : gostring) := ("sk-test" : gostring)]> ∅)
             (storeOf [("greeting" : gostring, "Hello" : gostring);
                       ("brand" : gostring, "OK" : gostring)])
             NewOrderedMap
             [] ["Hello" : gostring; "OK" : gostring] []
             {| fs := fs exampleWorld;
                environ := <[("OPENAI_API_KEY" : gostring) := ("sk-test" : gostring)]> ∅;
                sent := []; stdout := [] |}).
    + vm_compute. reflexivity.
    + vm_compute. reflexivity.
    + vm_compute. reflexivity.
    + vm_compute. reflexivity.
    + reflexivity.
    + vm_compute. intros [x Hx]. discriminate Hx.
Defined.
